(** * LogisTech: best-fit bin selection, ingestion pipeline and cargo loading

    A shallow embedding of the warehouse core of the LogisTech repository:

    - [logistech/models.py]: [Package], [StorageBin] with [occupy_space],
      [free_space] and the capacity comparison [__lt__];
    - [logistech/algorithms.py]: [find_optimal_shipment] and its inner
      recursive closure [backtrack];
    - [logistech/controller.py]: the [LogiMaster] controller with
      [_load_and_sort_bins], [find_best_fit_bin], [ingest_package],
      [process_next_package] and [prepare_shipment].

    Modelling conventions.

    - Sizes, capacities and occupancies are Python floats.  This first part
      takes them as rationals ([Q]), with the boolean tests of [QArith] for
      the comparisons; it carries the properties that depend only on how
      the code compares and moves these numbers: the selector, the queue,
      the order of the catalog, the loading stack, the frame properties.
      Every property that depends on what an addition or a subtraction
      returns is stated on the part "The same code on IEEE doubles"
      (module [Double]), where the same functions work on binary64 numbers
      and the optimizer knows the recursion limit of the interpreter.
    - Python integers (the [low], [high], [mid] of the binary search, row
      ids) are [Z].
    - The controller is one mutable object: its methods are computations in
      a state-and-exception monad over the record [LogiMaster].  A bin object
      is referred to by its position in [bin_inventory], which is how the
      aliasing between "the bin the search returned" and "the bin in the
      catalog" is kept.
    - The SQL database is an external collaborator.  What a session answers
      (rows, lookups that find nothing, a commit that fails) is an argument
      of the operation that opens the session.
    - For the frame properties of [find_optimal_shipment] the lists and the
      package objects live in an explicit heap (section "Heap model"). *)

From Stdlib Require Import QArith Lqa ZArith Floats.
From stdpp Require Import base option list strings gmap sorting.
From Equations Require Import Equations.

(** ** Numbers *)

(** [a >= b], [a > b], [a < b] on floats, as boolean tests. *)
Definition Qge_bool (a b : Q) : bool := Qle_bool b a.
Definition Qgt_bool (a b : Q) : bool := negb (Qle_bool a b).
Definition Qlt_bool (a b : Q) : bool := negb (Qle_bool b a).

(** Python's [max(a, b)]: the first argument unless the second is strictly
    larger. *)
Definition py_max (a b : Q) : Q := if Qgt_bool b a then b else a.

(** ** logistech/models.py *)

Record Package := mkPackage {
  tracking_id : string;
  size : Q;
  destination : string;
  is_fragile : bool;
  current_bin_id : option Z;
  current_truck_id : option Z
}.

(** [Package.__init__]: both location fields start as [None]. *)
Definition new_Package (tid : string) (sz : Q) (dest : string) (fragile : bool)
  : Package :=
  mkPackage tid sz dest fragile None None.

Record StorageBin := mkStorageBin {
  capacity : Q;
  occupancy : Q;
  bin_id : Z;
  location_code : string
}.

(** [StorageBin.__init__(bin_id, capacity, location_code, current_occupancy)] *)
Definition new_StorageBin (id : Z) (cap : Q) (loc : string) (occ : Q)
  : StorageBin :=
  mkStorageBin cap occ id loc.

Definition set_occupancy (occ : Q) (b : StorageBin) : StorageBin :=
  mkStorageBin (capacity b) occ (bin_id b) (location_code b).

Definition get_remaining_capacity (b : StorageBin) : Q :=
  (capacity b - occupancy b)%Q.

(** [occupy_space]: the returned boolean and the bin after the call. *)
Definition occupy_space (amount : Q) (b : StorageBin) : bool * StorageBin :=
  if Qge_bool (get_remaining_capacity b) amount
  then (true, set_occupancy (occupancy b + amount)%Q b)
  else (false, b).

(** [free_space] returns nothing; only the bin after the call. *)
Definition free_space (amount : Q) (b : StorageBin) : StorageBin :=
  set_occupancy (py_max 0 (occupancy b - amount)%Q) b.

(** [StorageBin.__lt__] *)
Definition StorageBin_lt (self other : StorageBin) : bool :=
  Qlt_bool (capacity self) (capacity other).

(** The data-model invariant of a storage unit. *)
Definition occupancy_in_range (b : StorageBin) : Prop :=
  (0 <= occupancy b)%Q ∧ (occupancy b <= capacity b)%Q.

(** ** Sorting

    [list.sort()] and [sorted()] are stable.  A stable sort is determined by
    the order it sorts by, so the insertion sort below returns what Python
    returns.  [after x y] is the test "[x] must come after [y]": the element
    taken from the front is put before everything it need not follow. *)

Section StableSort.
Context {A : Type} (after : A → A → bool).

Fixpoint insert_sorted (x : A) (l : list A) : list A :=
  match l with
  | [] => [x]
  | y :: l' => if after x y then y :: insert_sorted x l' else x :: y :: l'
  end.

Fixpoint stable_sort (l : list A) : list A :=
  match l with
  | [] => []
  | x :: l' => insert_sorted x (stable_sort l')
  end.
End StableSort.

(** ** logistech/algorithms.py

    The search is written over any carrier [A] with a size function, so that
    the same definition runs on package records and on references to package
    objects in the heap model. *)

Section Backtracking.
Context {A : Type} (psize : A → Q).

(** [sorted(packages, key=lambda p: p.size, reverse=True)]: descending by
    size, equal sizes in their original order.  [x] goes after [y] exactly
    when [y] is strictly larger. *)
Definition sorted_desc (packages : list A) : list A :=
  stable_sort (λ x y, Qlt_bool (psize x) (psize y)) packages.

(** The variables the closure [backtrack] shares with its caller and with
    its own recursive calls: the list object [current_load] (mutated in
    place by [append] and [pop]) and the [nonlocal] variables [best_load]
    and [best_size].  [calls] is ghost instrumentation: the arguments
    [(index, current_size)] of every call of [backtrack], in call order. *)
Record search := mkSearch {
  current_load : list A;
  best_load : list A;
  best_size : Q;
  calls : list (nat * Q)
}.

(** [current_load.append(package)] *)
Definition load_append (p : A) (st : search) : search :=
  mkSearch (current_load st ++ [p]) (best_load st) (best_size st) (calls st).

(** [current_load.pop()] *)
Definition load_pop (st : search) : search :=
  mkSearch (removelast (current_load st)) (best_load st) (best_size st)
           (calls st).

(** [best_load = current_load[:]; best_size = current_size] *)
Definition record_best (current_size : Q) (st : search) : search :=
  mkSearch (current_load st) (current_load st) current_size (calls st).

(** Entering a call: its arguments go on the log. *)
Definition log_call (index : nat) (current_size : Q) (st : search) : search :=
  mkSearch (current_load st) (best_load st) (best_size st)
           (calls st ++ [(index, current_size)]).

Variable target_capacity : Q.

(** [for i in range(index, len(sorted_packages))]: [l] is
    [sorted_packages[i:]], which the loop never mutates, so that
    [sorted_packages[i]] is the head of [l].  [bt] is the recursive call. *)
Fixpoint for_range (bt : list A → nat → Q → search → search)
    (current_size : Q) (l : list A) (i : nat) (st : search) {struct l}
  : search :=
  match l with
  | [] => st
  | package :: tl =>
      for_range bt current_size tl (S i)
        (if Qle_bool (current_size + psize package) target_capacity
         then load_pop
                (bt tl (S i) (current_size + psize package)%Q
                    (load_append package st))
         else st)
  end.

(** [backtrack(index, current_load, current_size)], with
    [rest = sorted_packages[index:]]. *)
Fixpoint backtrack (rest : list A) (index : nat) (current_size : Q)
    (st : search) {struct rest} : search :=
  let st := log_call index current_size st in
  if Qeq_bool current_size target_capacity then
    record_best current_size st
  else
    let st :=
      if Qgt_bool current_size (best_size st)
      then record_best current_size st
      else st in
    for_range backtrack current_size rest index st.

Definition search_init : search := mkSearch [] [] 0 [].

(** The state of the closure variables when [backtrack(0, [], 0.0)]
    returns. *)
Definition run_search (packages : list A) : search :=
  backtrack (sorted_desc packages) 0 0 search_init.

Definition find_optimal_shipment_on (packages : list A) : list A :=
  best_load (run_search packages).

End Backtracking.

Arguments search : clear implicits.
Arguments mkSearch {A}.
Arguments current_load {A}.
Arguments best_load {A}.
Arguments best_size {A}.
Arguments calls {A}.
Arguments search_init {A}.

(** [find_optimal_shipment(packages, target_capacity)] on package records. *)
Definition find_optimal_shipment (packages : list Package) (target_capacity : Q)
  : list Package :=
  find_optimal_shipment_on size target_capacity packages.

(** ** The search, by index

    The same closure with the loop written as in the source, over the
    indices [range(index, len(sorted_packages))] and reading
    [sorted_packages[i]].  The recursion is on a bound on the depth of the
    calls: [None] means the bound was too small or an index was out of
    range.  It is shown below to agree with [backtrack] on
    [sorted_packages[index:]]. *)

Section BacktrackingByIndex.
Context {A : Type} (psize : A → Q) (target_capacity : Q).
Context (sorted_packages : list A).

Fixpoint backtrack_by_index (depth : nat) (index : nat) (current_size : Q)
    (st : search A) {struct depth} : option (search A) :=
  match depth with
  | O => None
  | S depth =>
      let st := log_call index current_size st in
      if Qeq_bool current_size target_capacity then
        Some (record_best current_size st)
      else
        let st :=
          if Qgt_bool current_size (best_size st)
          then record_best current_size st
          else st in
        foldl
          (λ acc i,
             st ← acc;
             package ← sorted_packages !! i;
             if Qle_bool (current_size + psize package) target_capacity
             then
               st ← backtrack_by_index depth (S i)
                      (current_size + psize package)%Q
                      (load_append package st);
               Some (load_pop st)
             else Some st)
          (Some st)
          (seq index (length sorted_packages - index))
  end.
End BacktrackingByIndex.

(** ** Exceptions, and computations on a mutable object

    A method either returns a value or raises; either way it leaves a state
    behind.  [try_except] is [try: ... except Exception: ...]: the handler
    runs in the state the body left when it raised. *)

Inductive exn :=
| IndexError
| AttributeError
| NoResultFound
| MultipleResultsFound
| OperationalError
| RecursionError.

Inductive outcome (A : Type) :=
| Returned (a : A)
| Raised (e : exn).
Arguments Returned {A}.
Arguments Raised {A}.

Definition M (S A : Type) : Type := S → outcome A * S.

Definition ret {S A} (a : A) : M S A := λ s, (Returned a, s).

Definition raise {S A} (e : exn) : M S A := λ s, (Raised e, s).

Definition bind {S A B} (m : M S A) (k : A → M S B) : M S B :=
  λ s, match m s with
       | (Returned a, s') => k a s'
       | (Raised e, s') => (Raised e, s')
       end.

Definition try_except {S A} (body : M S A) (handler : exn → M S A) : M S A :=
  λ s, match body s with
       | (Returned a, s') => (Returned a, s')
       | (Raised e, s') => handler e s'
       end.

Definition gets {S A} (f : S → A) : M S A := λ s, (Returned (f s), s).

Definition modify {S} (f : S → S) : M S unit := λ s, (Returned tt, f s).

(** A pure computation that may raise, run inside a method. *)
Definition lift {S A} (o : outcome A) : M S A := λ s, (o, s).

(** The monad operations are registered with stdpp's [MRet] and [MBind], so
    that methods are written with its notations [x ← m; k] and [m;; k]. *)
#[global] Instance M_ret {S} : MRet (M S) := λ A, @ret S A.
#[global] Instance M_bind {S} : MBind (M S) := λ A B k m, @bind S A B m k.

(** [for x in l: body(x)] *)
Fixpoint for_each {S A} (l : list A) (body : A → M S unit) : M S unit :=
  match l with
  | [] => ret tt
  | x :: l' => bind (body x) (λ _, for_each l' body)
  end.

(** [seq[i]] for a Python integer [i]: negative indices count from the end.
    The result carries the position that was read. *)
Definition py_getitem {A} (l : list A) (i : Z) : outcome (nat * A) :=
  let n := Z.of_nat (length l) in
  let j := if (i <? 0)%Z then (i + n)%Z else i in
  if (j <? 0)%Z then Raised IndexError
  else match l !! Z.to_nat j with
       | Some x => Returned (Z.to_nat j, x)
       | None => Raised IndexError
       end.

(** ** logistech/controller.py *)

(** The three in-memory attributes of the controller.  [conveyor_queue] is
    the deque, front first; [loading_stack] is the Python list used as a
    stack, oldest entry first. *)
Record LogiMaster := mkLogiMaster {
  bin_inventory : list StorageBin;
  conveyor_queue : list Package;
  loading_stack : list string
}.

Definition set_bin_inventory (bins : list StorageBin) (s : LogiMaster) :=
  mkLogiMaster bins (conveyor_queue s) (loading_stack s).
Definition set_conveyor_queue (q : list Package) (s : LogiMaster) :=
  mkLogiMaster (bin_inventory s) q (loading_stack s).
Definition set_loading_stack (l : list string) (s : LogiMaster) :=
  mkLogiMaster (bin_inventory s) (conveyor_queue s) l.

(** A row of the [storage_bins] table. *)
Record BinRow := mkBinRow {
  row_bin_id : Z;
  row_location_code : string;
  row_max_capacity : Q;
  row_current_occupancy : Q
}.

(** What a database session answers when asked to commit. *)
Inductive commit_answer :=
| Committed
| CommitFails (e : exn).

(** [_load_and_sort_bins].  [query] is what [session.query(DBSQLABin).all()]
    gives: the rows, or the exception it raised, in which case the method
    returns the empty list.  [oop_bins.sort()] sorts ascending with
    [__lt__]: a bin goes after another exactly when the other is strictly
    smaller. *)
Definition _load_and_sort_bins (query : outcome (list BinRow))
  : list StorageBin :=
  match query with
  | Returned sql_bins =>
      let oop_bins :=
        map (λ b, new_StorageBin (row_bin_id b) (row_max_capacity b)
                    (row_location_code b) (row_current_occupancy b))
            sql_bins in
      stable_sort (λ x y, StorageBin_lt y x) oop_bins
  | Raised _ => []
  end.

(** [LogiMaster.__init__] *)
Definition LogiMaster_init (query : outcome (list BinRow)) : LogiMaster :=
  mkLogiMaster (_load_and_sort_bins query) [] [].

(** Reading the bin object at position [i] of the catalog, and calling a
    method on it.  The object stays where it is in the list. *)
Definition bin_at (i : nat) : M LogiMaster StorageBin :=
  λ s, match bin_inventory s !! i with
       | Some b => (Returned b, s)
       | None => (Raised IndexError, s)
       end.

Definition bin_call {R} (i : nat) (method : StorageBin → R * StorageBin)
  : M LogiMaster R :=
  λ s, match bin_inventory s !! i with
       | Some b =>
           (Returned (fst (method b)),
            set_bin_inventory (alter (λ b, snd (method b)) i (bin_inventory s)) s)
       | None => (Raised IndexError, s)
       end.

(** The [while low <= high] loop of [find_best_fit_bin].  [best_fit_bin]
    holds a position of [bins] or [None]; the position recorded for
    [current_bin] is the one [bins[mid]] read, with [mid = (low + high) // 2]. *)
Equations? find_best_fit_bin_loop (bins : list StorageBin) (package_size : Q)
    (low high : Z) (best_fit_bin : option nat) : outcome (option nat)
    by wf (Z.to_nat (high - low + 1)) lt :=
  find_best_fit_bin_loop bins package_size low high best_fit_bin
    with Z_le_gt_dec low high := {
    | right _ := Returned best_fit_bin
    | left _ with py_getitem bins ((low + high) / 2) := {
      | Raised e := Raised e
      | Returned (mid, current_bin)
          with Qge_bool (capacity current_bin) package_size := {
        | true :=
            find_best_fit_bin_loop bins package_size
              low ((low + high) / 2 - 1) (Some mid)
        | false :=
            find_best_fit_bin_loop bins package_size
              ((low + high) / 2 + 1) high best_fit_bin } } }.
Proof.
  all: assert ((low <= (low + high) / 2)%Z ∧ ((low + high) / 2 <= high)%Z)
    by (split; [apply Z.div_le_lower_bound | apply Z.div_le_upper_bound]; lia);
    lia.
Qed.

Definition find_best_fit_bin (package_size : Q) : M LogiMaster (option nat) :=
  bins ← gets bin_inventory;
  best_fit_bin ←
    lift (find_best_fit_bin_loop bins package_size
            0 (Z.of_nat (length bins) - 1) None);
  match best_fit_bin with
  | Some i =>
      b ← bin_at i;
      if Qge_bool (get_remaining_capacity b) package_size
      then ret (Some i)
      else ret None
  | None => ret None
  end.

(** What [find_best_fit_bin] answers on a catalog. *)
Definition best_fit_answer (bins : list StorageBin) (package_size : Q)
  : outcome (option nat) :=
  fst (find_best_fit_bin package_size (mkLogiMaster bins [] [])).

(** [_log_shipment] writes an audit row in a session of its own and swallows
    every exception: it neither raises nor touches the controller. *)
Definition _log_shipment (tracking : string) (sz : Q) (status : string)
  : M LogiMaster unit :=
  ret tt.

(** [_update_db_assignment] re-raises whatever its session raised, after
    rolling the session back. *)
Definition _update_db_assignment (db : commit_answer) (package : Package)
    (bin_obj : nat) : M LogiMaster unit :=
  match db with
  | Committed => ret tt
  | CommitFails e => raise e
  end.

Definition ingest_package (package : Package) : M LogiMaster unit :=
  modify (λ s, set_conveyor_queue (conveyor_queue s ++ [package]) s);;
  _log_shipment (tracking_id package) (size package) "INGESTED".

(** [process_next_package].  Every path ends without a [return] value, so
    the method returns [None], which is [tt] here. *)
Definition process_next_package (db : commit_answer) : M LogiMaster unit :=
  queue ← gets conveyor_queue;
  match queue with
  | [] => ret tt
  | package :: queue' =>
      modify (set_conveyor_queue queue');;
      best_bin ← find_best_fit_bin (size package);
      match best_bin with
      | Some i =>
          try_except
            (bin_call i (occupy_space (size package));;
             _update_db_assignment db package i;;
             _log_shipment (tracking_id package) (size package) "BIN_ASSIGNED")
            (λ e,
              bin_call i (λ b, (tt, free_space (size package) b));;
              modify (λ s, set_conveyor_queue (package :: conveyor_queue s) s))
      | None => ret tt
      end
  end.

(** A row of the [delivery_trucks] table. *)
Record TruckRow := mkTruckRow {
  row_truck_id : Z;
  row_truck_max_capacity : Q
}.

(** What the session of [prepare_shipment] sees: the two tables it queries
    (a row of [packages] has the fields of [Package]) and the answer to
    [session.commit()]. *)
Record ShipmentDb := mkShipmentDb {
  delivery_trucks : list TruckRow;
  packages_table : list Package;
  commit : commit_answer
}.

(** [Query.one()] *)
Definition one {A} (rows : list A) : outcome A :=
  match rows with
  | [] => Raised NoResultFound
  | [x] => Returned x
  | _ => Raised MultipleResultsFound
  end.

Definition session_commit (a : commit_answer) : M LogiMaster unit :=
  match a with
  | Committed => ret tt
  | CommitFails e => raise e
  end.

(** [prepare_shipment].  The writes to [sql_truck] and [sql_package] stay in
    the session and are not part of the controller; [session.rollback()] in
    the handler undoes them and nothing else. *)
Definition prepare_shipment (db : ShipmentDb) (truck_id : Z)
    (zip_code_filter : string) : M LogiMaster unit :=
  try_except
    (sql_truck ←
       lift (one (filter (λ t, row_truck_id t = truck_id) (delivery_trucks db)));
     let truck_capacity := row_truck_max_capacity sql_truck in
     let sql_candidates :=
       filter (λ p, current_bin_id p ≠ None ∧ destination p = zip_code_filter)
              (packages_table db) in
     let candidate_packages :=
       map (λ p, new_Package (tracking_id p) (size p) (destination p)
                   (is_fragile p))
           sql_candidates in
     match candidate_packages with
     | [] => ret tt
     | _ :: _ =>
         let optimal_load :=
           find_optimal_shipment candidate_packages truck_capacity in
         match optimal_load with
         | [] => ret tt
         | _ :: _ =>
             for_each optimal_load (λ package,
               modify (λ s, set_loading_stack
                              (loading_stack s ++ [tracking_id package]) s);;
               lift (one (filter (λ p, tracking_id p = tracking_id package)
                                 (packages_table db)));;
               _log_shipment (tracking_id package) (size package)
                            "TRUCK_LOADED");;
             session_commit (commit db)
         end
     end)
    (λ e, ret tt).

(** ** Heap model of [find_optimal_shipment]

    Lists and packages are objects.  A list object holds references to
    package objects; [append] and [pop] change the list object in place,
    [l[:]], [sorted] and the literal [[]] make a new one. *)

Definition loc := positive.

Record heap := mkHeap {
  lists : gmap loc (list loc);
  objects : gmap loc Package
}.










Section HeapBacktracking.
Variable target_capacity : Q.



End HeapBacktracking.


(** ** The data of db/setup.py and main.py *)

Definition seed_bins : list BinRow :=
  [ mkBinRow 101 "A01S01" 5 0;
    mkBinRow 102 "A01S02" 10 0;
    mkBinRow 201 "A05S10" 15 0;
    mkBinRow 202 "A05S11" 20 0;
    mkBinRow 301 "B10S05" 50 0;
    mkBinRow 302 "B10S06" 100 0 ].

Definition seed_trucks : list TruckRow :=
  [ mkTruckRow 1 500; mkTruckRow 2 1200 ].

Definition P001 : Package := new_Package "P001" 11 "10001" false.
Definition P002 : Package := new_Package "P002" 4 "20002" true.
Definition P003 : Package := new_Package "P003" 16 "30003" false.
Definition P005 : Package := new_Package "P005" 5 "40004" false.
Definition P007 : Package := new_Package "P007" 25 "40004" false.

(** The controller right after start-up on the seeded database. *)
Definition seeded : LogiMaster := LogiMaster_init (Returned seed_bins).

(** ** The selector, in the words of the specification

    The catalog is ascending by capacity.  The selector looks at the
    leftmost unit whose capacity is at least the item size, and at no other:
    it answers that unit when its free space suffices and nothing
    otherwise. *)

Definition capacity_ascending (bins : list StorageBin) : Prop :=
  ∀ i j bi bj, (i ≤ j)%nat → bins !! i = Some bi → bins !! j = Some bj →
               (capacity bi <= capacity bj)%Q.

Definition leftmost_capable (bins : list StorageBin) (item_size : Q)
  : option (nat * StorageBin) :=
  list_find (λ b, Is_true (Qge_bool (capacity b) item_size)) bins.

Definition select_spec (bins : list StorageBin) (item_size : Q) : option nat :=
  match leftmost_capable bins item_size with
  | Some (i, b) =>
      if Qge_bool (get_remaining_capacity b) item_size then Some i else None
  | None => None
  end.


(** ** Occupancy calls on the bins of a catalog *)

Inductive bin_op :=
| OccupySpace (i : nat) (amount : Q)
| FreeSpace (i : nat) (amount : Q).

(** One call on the bin at position [i]. *)
Definition run_bin_op (op : bin_op) : M LogiMaster unit :=
  match op with
  | OccupySpace i amount => bin_call i (occupy_space amount);; mret tt
  | FreeSpace i amount => bin_call i (λ b, (tt, free_space amount b))
  end.

(** A sequence of calls, each made whatever the one before answered. *)
Definition run_bin_ops (ops : list bin_op) (s : LogiMaster) : LogiMaster :=
  foldl (λ s op, snd (run_bin_op op s)) s ops.

(** What identifies a bin and fixes its place in the catalog. *)
Definition bin_identity (b : StorageBin) : Z * Q * string :=
  (bin_id b, capacity b, location_code b).

(** The bins, or rows, of one capacity, in the order they are listed. *)
Definition bins_of_capacity (c : Q) (bins : list StorageBin) : list Z :=
  bin_id <$> filter (λ b, Is_true (Qeq_bool (capacity b) c)) bins.

Definition rows_of_capacity (c : Q) (rows : list BinRow) : list Z :=
  row_bin_id <$> filter (λ r, Is_true (Qeq_bool (row_max_capacity r) c)) rows.

(** ** The claim that an empty queue gives a result of its own

    Read on the value the caller receives: it differs from the value of a
    call on a queue that is not empty. *)
Definition empty_outcome_distinguishable : Prop :=
  ∀ db s_empty s_other,
    conveyor_queue s_empty = [] →
    conveyor_queue s_other ≠ [] →
    fst (process_next_package db s_empty)
      ≠ fst (process_next_package db s_other).

(** ** The run of main.py used in the examples: A, B, C are ingested in this
    order, A is assigned, then B's assignment fails on persistence. *)
Definition ingested_ABC : LogiMaster :=
  snd ((ingest_package P001;; ingest_package P002;; ingest_package P003)
         seeded).

Definition assigned_A : LogiMaster :=
  snd (process_next_package Committed ingested_ABC).

(** The packages table once P005 and P007 sit in their bins, with a
    database whose commit fails. *)
Definition stored_P005_P007 : list Package :=
  [ mkPackage "P005" 5 "40004" false (Some 102%Z) None;
    mkPackage "P007" 25 "40004" false (Some 301%Z) None ].

Definition failing_db : ShipmentDb :=
  mkShipmentDb seed_trucks stored_P005_P007 (CommitFails OperationalError).

(** ** How a heap run and a run on values correspond

    [sim_state h cur best st]: in the heap [h] the list object [cur] holds
    the current selection of [st], the list object the variable [best_load]
    points to holds the best selection of [st], [best_size] agrees, and the
    two list objects are different objects. *)
Definition sim_state (h : heap) (cur : loc) (best : loc * Q)
    (st : search loc) : Prop :=
  lists h !! cur = Some (current_load st) ∧
  lists h !! fst best = Some (best_load st) ∧
  snd best = best_size st ∧
  cur ≠ fst best.




(** ** Tactics *)

(** Unfolds the operations of the monad, so that a method applied to a
    state reduces to the pair it returns. *)
Ltac unfold_M :=
  unfold mbind, mret, M_bind, M_ret, bind, ret, raise, gets, modify, lift,
    try_except in *.


(** * More of the controller and of the models *)

(** ** The loop of the selector, with its iterations counted

    The same loop as [find_best_fit_bin_loop], returning beside its result
    the number of times the body of [while low <= high] ran. *)
Equations? find_best_fit_bin_loop_counted (bins : list StorageBin)
    (package_size : Q) (low high : Z) (best_fit_bin : option nat)
    : outcome (option nat) * nat
    by wf (Z.to_nat (high - low + 1)) lt :=
  find_best_fit_bin_loop_counted bins package_size low high best_fit_bin
    with Z_le_gt_dec low high := {
    | right _ := (Returned best_fit_bin, O)
    | left _ with py_getitem bins ((low + high) / 2) := {
      | Raised e := (Raised e, 1%nat)
      | Returned (mid, current_bin)
          with Qge_bool (capacity current_bin) package_size := {
        | true :=
            let r := find_best_fit_bin_loop_counted bins package_size
                       low ((low + high) / 2 - 1) (Some mid) in
            (fst r, S (snd r))
        | false :=
            let r := find_best_fit_bin_loop_counted bins package_size
                       ((low + high) / 2 + 1) high best_fit_bin in
            (fst r, S (snd r)) } } }.
Proof.
  all: assert ((low <= (low + high) / 2)%Z ∧ ((low + high) / 2 <= high)%Z)
    by (split; [apply Z.div_le_lower_bound | apply Z.div_le_upper_bound]; lia);
    lia.
Qed.

(** ** Sequences of controller operations *)

Inductive controller_op :=
| Ingest (package : Package)
| ProcessNext (db : commit_answer)
| PrepareShipment (db : ShipmentDb) (truck_id : Z) (zip_code_filter : string).

Definition run_op (op : controller_op) : M LogiMaster unit :=
  match op with
  | Ingest package => ingest_package package
  | ProcessNext db => process_next_package db
  | PrepareShipment db truck_id zip => prepare_shipment db truck_id zip
  end.

(** One call after the other, on the state the call before left. *)
Definition run_ops (ops : list controller_op) (s : LogiMaster) : LogiMaster :=
  foldl (λ s op, snd (run_op op s)) s ops.

(** The packages a sequence of operations ingests. *)
Definition ingested (ops : list controller_op) : list Package :=
  omap (λ op, match op with Ingest p => Some p | _ => None end) ops.

(** The state the data model asks of a controller: every bin within its
    capacity, and no queued package of negative size. *)
Definition controller_ok (s : LogiMaster) : Prop :=
  Forall occupancy_in_range (bin_inventory s) ∧
  Forall (λ p, (0 <= size p)%Q) (conveyor_queue s).

(** A row of [storage_bins] the data model accepts. *)
Definition row_ok (r : BinRow) : Prop :=
  (0 <= row_current_occupancy r)%Q ∧
  (row_current_occupancy r <= row_max_capacity r)%Q.

(** The conversion of a row done by [_load_and_sort_bins]. *)
Definition bin_of_row (b : BinRow) : StorageBin :=
  new_StorageBin (row_bin_id b) (row_max_capacity b) (row_location_code b)
                 (row_current_occupancy b).

(** ** The parts of [prepare_shipment]

    The candidates of steps 2 and 3, the load of step 4 and the loop of
    step 5, under names of their own; [prepare_shipment] is made of exactly
    these terms. *)

(** The rows stored in a bin and destined for the ZIP, converted. *)
Definition shipment_candidates (db : ShipmentDb) (zip_code_filter : string)
  : list Package :=
  map (λ p, new_Package (tracking_id p) (size p) (destination p)
              (is_fragile p))
      (filter (λ p, current_bin_id p ≠ None ∧ destination p = zip_code_filter)
              (packages_table db)).

(** [find_optimal_shipment(candidate_packages, truck_capacity)] *)
Definition planned_load (db : ShipmentDb) (truck : TruckRow)
    (zip_code_filter : string) : list Package :=
  find_optimal_shipment (shipment_candidates db zip_code_filter)
                        (row_truck_max_capacity truck).

(** [for package in optimal_load: ...] *)
Definition loading_loop (db : ShipmentDb) (optimal_load : list Package)
  : M LogiMaster unit :=
  for_each optimal_load (λ package,
    modify (λ s, set_loading_stack
                   (loading_stack s ++ [tracking_id package]) s);;
    lift (one (filter (λ p, tracking_id p = tracking_id package)
                      (packages_table db)));;
    _log_shipment (tracking_id package) (size package) "TRUCK_LOADED").

(** * The same code on IEEE doubles

    Python's [float] is an IEEE 754 binary64 number.  Where a property
    depends on what an addition or a subtraction returns, and not only on
    how two stored numbers compare, the exact rationals used so far are not
    what the code computes.  This part embeds the code whose arithmetic
    matters a second time, on the binary64 numbers of [PrimFloat]: the
    storage bins with [occupy_space] and [free_space], the selector with
    [process_next_package], and the optimizer.  The Python operators [+],
    [-], [<=], [<], [==] on floats are [PrimFloat]'s [+], [-], [<=?], [<?],
    [=?]; [a >= b] is [b <=? a] and [a > b] is [b <? a]. *)

Set Warnings "-inexact-float".

(** ** Doubles as numbers *)

(** The comparisons of doubles see a number through a key: its class (the
    infinities, negative, zero, positive), then its exponent, then its
    mantissa, compared in this order.  NaN has no key. *)
Definition sf_key (x : spec_float) : option (Z * Z * Z) :=
  match x with
  | S754_nan => None
  | S754_infinity false => Some (2, 0, 0)%Z
  | S754_infinity true => Some (-2, 0, 0)%Z
  | S754_zero _ => Some (0, 0, 0)%Z
  | S754_finite false m e => Some (1, e, Zpos m)%Z
  | S754_finite true m e => Some (-1, - e, Zneg m)%Z
  end.

Definition key_compare (a b : Z * Z * Z) : comparison :=
  match a, b with
  | (c1, e1, m1), (c2, e2, m2) =>
      match (c1 ?= c2)%Z with
      | Eq => match (e1 ?= e2)%Z with Eq => (m1 ?= m2)%Z | r => r end
      | r => r
      end
  end.

Definition key_le (a b : Z * Z * Z) : Prop :=
  match a, b with
  | (c1, e1, m1), (c2, e2, m2) =>
      (c1 < c2 ∨ (c1 = c2 ∧ (e1 < e2 ∨ (e1 = e2 ∧ m1 <= m2))))%Z
  end.

Definition key_lt (a b : Z * Z * Z) : Prop :=
  match a, b with
  | (c1, e1, m1), (c2, e2, m2) =>
      (c1 < c2 ∨ (c1 = c2 ∧ (e1 < e2 ∨ (e1 = e2 ∧ m1 < m2))))%Z
  end.

Definition fkey (x : float) : option (Z * Z * Z) := sf_key (Prim2SF x).

(** A double that is a number: [x == x], which fails for NaN only. *)
Definition is_num (x : float) : Prop := (x =? x)%float = true.

(** The rational a finite double stands for. *)
Definition SF2Q (x : spec_float) : Q :=
  match x with
  | S754_finite s m e => (inject_Z (cond_Zopp s (Zpos m)) * 2 ^ e)%Q
  | _ => 0%Q
  end.

Definition F2Q (x : float) : Q := SF2Q (Prim2SF x).

(** The results of rounding a number of sign [s]: never NaN, and of sign
    [s]. *)
Definition sf_signed (s : bool) (r : spec_float) : Prop :=
  match r with
  | S754_zero s' | S754_infinity s' | S754_finite s' _ _ => s' = s
  | S754_nan => False
  end.

Module Double.
Local Open Scope float_scope.

(** Python's [max(a, b)]: the first argument unless the second is strictly
    larger; so [max(0.0, nan)] is [0.0]. *)
Definition py_max (a b : float) : float := if a <? b then b else a.

(** ** logistech/models.py *)

Record Package := mkPackage {
  tracking_id : string;
  size : float;
  destination : string;
  is_fragile : bool;
  current_bin_id : option Z;
  current_truck_id : option Z
}.

Definition new_Package (tid : string) (sz : float) (dest : string)
    (fragile : bool) : Package :=
  mkPackage tid sz dest fragile None None.

Record StorageBin := mkStorageBin {
  capacity : float;
  occupancy : float;
  bin_id : Z;
  location_code : string
}.

Definition new_StorageBin (id : Z) (cap : float) (loc : string) (occ : float)
  : StorageBin :=
  mkStorageBin cap occ id loc.

Definition set_occupancy (occ : float) (b : StorageBin) : StorageBin :=
  mkStorageBin (capacity b) occ (bin_id b) (location_code b).

Definition get_remaining_capacity (b : StorageBin) : float :=
  capacity b - occupancy b.

(** [occupy_space]: [if self.get_remaining_capacity() >= amount:
    self.occupancy += amount; return True] and [return False] otherwise. *)
Definition occupy_space (amount : float) (b : StorageBin)
  : bool * StorageBin :=
  if amount <=? get_remaining_capacity b
  then (true, set_occupancy (occupancy b + amount) b)
  else (false, b).

(** [free_space]: [self.occupancy = max(0.0, self.occupancy - amount)]. *)
Definition free_space (amount : float) (b : StorageBin) : StorageBin :=
  set_occupancy (py_max 0 (occupancy b - amount)) b.

(** The data-model invariant of a storage unit, read on doubles. *)
Definition occupancy_in_range (b : StorageBin) : Prop :=
  (0 <=? occupancy b) = true ∧ (occupancy b <=? capacity b) = true.

(** ** logistech/algorithms.py *)

(** [sorted(packages, key=lambda p: p.size, reverse=True)]: a package goes
    after another exactly when the other is strictly larger.  This is the
    list Python returns when the sizes are numbers; with a NaN among them
    the comparisons are no order and the list Python returns depends on
    its sorting algorithm.  What is proved of the search itself is
    therefore stated for any list [sorted_packages], and what is proved
    of [find_optimal_shipment] for sizes that are numbers. *)
Definition sorted_desc (packages : list Package) : list Package :=
  stable_sort (λ x y, size x <? size y) packages.

(** The variables the closure [backtrack] shares with its caller; [calls]
    is ghost instrumentation, the arguments [(index, current_size)] of
    every call in call order. *)
Record search := mkSearch {
  current_load : list Package;
  best_load : list Package;
  best_size : float;
  calls : list (nat * float)
}.

Definition load_append (p : Package) (st : search) : search :=
  mkSearch (current_load st ++ [p]) (best_load st) (best_size st) (calls st).

Definition load_pop (st : search) : search :=
  mkSearch (removelast (current_load st)) (best_load st) (best_size st)
           (calls st).

Definition record_best (current_size : float) (st : search) : search :=
  mkSearch (current_load st) (current_load st) current_size (calls st).

Definition log_call (index : nat) (current_size : float) (st : search)
  : search :=
  mkSearch (current_load st) (best_load st) (best_size st)
           (calls st ++ [(index, current_size)]).

Definition search_init : search := mkSearch [] [] 0 [].

Section Backtracking.
Variable target_capacity : float.

(** [for i in range(index, len(sorted_packages))], with
    [l = sorted_packages[i:]].  An exception of the recursive call leaves
    the loop, and the call, at once. *)
Fixpoint for_range (bt : list Package → nat → float → search → outcome search)
    (current_size : float) (l : list Package) (i : nat) (st : search)
    {struct l} : outcome search :=
  match l with
  | [] => Returned st
  | package :: tl =>
      if current_size + size package <=? target_capacity
      then
        match bt tl (S i) (current_size + size package)
                 (load_append package st) with
        | Returned st' => for_range bt current_size tl (S i) (load_pop st')
        | Raised e => Raised e
        end
      else for_range bt current_size tl (S i) st
  end.

(** [backtrack(index, current_load, current_size)] as call number [depth]
    of the nesting, in an interpreter that allows [limit] nested calls of
    [backtrack] where [find_optimal_shipment] is called: one call more
    raises [RecursionError]. *)
Fixpoint backtrack (limit depth : nat) (rest : list Package) (index : nat)
    (current_size : float) (st : search) {struct rest} : outcome search :=
  if (limit <? depth)%nat then Raised RecursionError
  else
    let st := log_call index current_size st in
    if current_size =? target_capacity then
      Returned (record_best current_size st)
    else
      let st :=
        if best_size st <? current_size
        then record_best current_size st
        else st in
      for_range (backtrack limit (S depth)) current_size rest index st.

(** The closure where the nesting is never exhausted. *)
Fixpoint for_range_unbounded
    (bt : list Package → nat → float → search → search)
    (current_size : float) (l : list Package) (i : nat) (st : search)
    {struct l} : search :=
  match l with
  | [] => st
  | package :: tl =>
      for_range_unbounded bt current_size tl (S i)
        (if current_size + size package <=? target_capacity
         then load_pop (bt tl (S i) (current_size + size package)
                           (load_append package st))
         else st)
  end.

Fixpoint backtrack_unbounded (rest : list Package) (index : nat)
    (current_size : float) (st : search) {struct rest} : search :=
  let st := log_call index current_size st in
  if current_size =? target_capacity then record_best current_size st
  else
    let st :=
      if best_size st <? current_size
      then record_best current_size st
      else st in
    for_range_unbounded backtrack_unbounded current_size rest index st.

(** The closure variables when [backtrack(0, [], 0.0)] returns. *)
Definition run_search (limit : nat) (packages : list Package)
  : outcome search :=
  backtrack limit 1 (sorted_desc packages) 0 0 search_init.

Definition run_search_unbounded (packages : list Package) : search :=
  backtrack_unbounded (sorted_desc packages) 0 0 search_init.
End Backtracking.

(** [find_optimal_shipment(packages, target_capacity)]. *)
Definition find_optimal_shipment (limit : nat) (packages : list Package)
    (target_capacity : float) : outcome (list Package) :=
  match run_search target_capacity limit packages with
  | Returned st => Returned (best_load st)
  | Raised e => Raised e
  end.

(** The running total of a selection: the sum the search carries along as
    it adds the packages one by one from [start]. *)
Definition fsum_from (start : float) (l : list Package) : float :=
  foldl (λ acc p, acc + size p) start l.

Definition fsum (l : list Package) : float := fsum_from 0 l.

(** Each addition of the running total stays at most the ceiling. *)
Fixpoint fits_from (T start : float) (l : list Package) : Prop :=
  match l with
  | [] => True
  | p :: l' => (start + size p <=? T) = true ∧ fits_from T (start + size p) l'
  end.

(** ** The contract of the search *)

Section SearchContract.
Variable T : float.

(** What the closure variables satisfy between calls: the recorded
    selection is drawn from the sorted candidates in their order, each of
    its additions fits, [best_size] is its running total, and once a call
    was entered with a running total equal to the ceiling, [best_size]
    equals the ceiling. *)
Definition best_ok (sorted : list Package) (st : search) : Prop :=
  best_load st `sublist_of` sorted ∧
  fits_from T 0 (best_load st) ∧
  best_size st = fsum (best_load st) ∧
  (best_size st <=? T) = true ∧
  ((∃ index cs, (index, cs) ∈ calls st ∧ (cs =? T) = true) →
   (best_size st =? T) = true).

(** The contract of one call on the suffix [rest], entered with the
    selection [current_load st] of running total [cs]. *)
Definition call_ok (sorted : list Package)
    (bt : list Package → nat → float → search → search)
    (rest : list Package) : Prop :=
  ∀ index cs st,
    current_load st ++ rest `sublist_of` sorted →
    cs = fsum (current_load st) →
    fits_from T 0 (current_load st) →
    (cs <=? T) = true →
    best_ok sorted st →
    let st' := bt rest index cs st in
    current_load st' = current_load st ∧
    best_ok sorted st' ∧
    (best_size st <=? best_size st') = true ∧
    (∀ S, S `sublist_of` rest → fits_from T cs S →
          (fsum_from cs S <=? best_size st') = true) ∧
    ∃ new, calls st' = calls st ++ (index, cs) :: new.
End SearchContract.

(** ** The call log *)

(** A call was entered with a running total equal to the ceiling. *)
Definition exact_seen (T : float) (log : list (nat * float)) : Prop :=
  ∃ index cs, (index, cs) ∈ log ∧ (cs =? T) = true.

(** Every call of the log that was not entered at the ceiling is followed,
    later in the log, by its recursive call for each candidate from its
    index on whose addition keeps the running total at most the
    ceiling. *)
Definition calls_closed (T : float) (sorted : list Package)
    (log : list (nat * float)) : Prop :=
  ∀ before index cs after,
    log = before ++ (index, cs) :: after →
    (cs =? T) = false →
    ∀ k p, (index ≤ k)%nat → sorted !! k = Some p →
      (cs + size p <=? T) = true →
      (S k, cs + size p) ∈ after.

(** What one call on the suffix [rest = sorted[index:]] does to the
    closure variables and to the log. *)
Definition log_ok (T : float) (sorted : list Package)
    (bt : list Package → nat → float → search → search)
    (rest : list Package) : Prop :=
  ∀ index cs st,
    drop index sorted = rest →
    cs = fsum (current_load st) →
    best_size st = fsum (best_load st) →
    (exact_seen T (calls st) → (best_size st =? T) = true) →
    (exact_seen T (calls st) → (cs <=? T) = true) →
    let st' := bt rest index cs st in
    current_load st' = current_load st ∧
    best_size st' = fsum (best_load st') ∧
    (exact_seen T (calls st') → (best_size st' =? T) = true) ∧
    ∃ new, calls st' = calls st ++ (index, cs) :: new ∧
           calls_closed T sorted ((index, cs) :: new).

(** The total a list of doubles has as rational numbers. *)
Definition exact_total (l : list Package) : Q :=
  foldr (λ p acc, (F2Q (size p) + acc)%Q) 0%Q l.

(** ** logistech/controller.py *)

Record LogiMaster := mkLogiMaster {
  bin_inventory : list StorageBin;
  conveyor_queue : list Package;
  loading_stack : list string
}.

Definition set_bin_inventory (bins : list StorageBin) (s : LogiMaster) :=
  mkLogiMaster bins (conveyor_queue s) (loading_stack s).
Definition set_conveyor_queue (q : list Package) (s : LogiMaster) :=
  mkLogiMaster (bin_inventory s) q (loading_stack s).

Definition bin_at (i : nat) : M LogiMaster StorageBin :=
  λ s, match bin_inventory s !! i with
       | Some b => (Returned b, s)
       | None => (Raised IndexError, s)
       end.

Definition bin_call {R} (i : nat) (method : StorageBin → R * StorageBin)
  : M LogiMaster R :=
  λ s, match bin_inventory s !! i with
       | Some b =>
           (Returned (fst (method b)),
            set_bin_inventory (alter (λ b, snd (method b)) i (bin_inventory s)) s)
       | None => (Raised IndexError, s)
       end.

(** The [while low <= high] loop of [find_best_fit_bin]. *)
Equations? find_best_fit_bin_loop (bins : list StorageBin)
    (package_size : float) (low high : Z) (best_fit_bin : option nat)
    : outcome (option nat)
    by wf (Z.to_nat (high - low + 1)) lt :=
  find_best_fit_bin_loop bins package_size low high best_fit_bin
    with Z_le_gt_dec low high := {
    | right _ := Returned best_fit_bin
    | left _ with py_getitem bins ((low + high) / 2) := {
      | Raised e := Raised e
      | Returned (mid, current_bin)
          with package_size <=? capacity current_bin := {
        | true :=
            find_best_fit_bin_loop bins package_size
              low ((low + high) / 2 - 1) (Some mid)
        | false :=
            find_best_fit_bin_loop bins package_size
              ((low + high) / 2 + 1) high best_fit_bin } } }.
Proof.
  all: assert ((low <= (low + high) / 2)%Z ∧ ((low + high) / 2 <= high)%Z)
    by (split; [apply Z.div_le_lower_bound | apply Z.div_le_upper_bound]; lia);
    lia.
Qed.

Definition find_best_fit_bin (package_size : float)
  : M LogiMaster (option nat) :=
  bins ← gets bin_inventory;
  best_fit_bin ←
    lift (find_best_fit_bin_loop bins package_size
            0 (Z.of_nat (length bins) - 1) None);
  match best_fit_bin with
  | Some i =>
      b ← bin_at i;
      if package_size <=? get_remaining_capacity b
      then ret (Some i)
      else ret None
  | None => ret None
  end.

Definition _log_shipment (tracking : string) (sz : float) (status : string)
  : M LogiMaster unit :=
  ret tt.

Definition _update_db_assignment (db : commit_answer) (package : Package)
    (bin_obj : nat) : M LogiMaster unit :=
  match db with
  | Committed => ret tt
  | CommitFails e => raise e
  end.

Definition process_next_package (db : commit_answer) : M LogiMaster unit :=
  queue ← gets conveyor_queue;
  match queue with
  | [] => ret tt
  | package :: queue' =>
      modify (set_conveyor_queue queue');;
      best_bin ← find_best_fit_bin (size package);
      match best_bin with
      | Some i =>
          try_except
            (bin_call i (occupy_space (size package));;
             _update_db_assignment db package i;;
             _log_shipment (tracking_id package) (size package) "BIN_ASSIGNED")
            (λ e,
              bin_call i (λ b, (tt, free_space (size package) b));;
              modify (λ s, set_conveyor_queue (package :: conveyor_queue s) s))
      | None => ret tt
      end
  end.

(** [prepare_shipment] where [limit] nested calls of [backtrack] are
    allowed.  A row of [delivery_trucks] has a double for its capacity; a
    row of [packages] has the fields of [Package].  The writes to
    [sql_truck] and [sql_package], among them [total_size], stay in the
    session. *)
Definition set_loading_stack (stack : list string) (s : LogiMaster) :=
  mkLogiMaster (bin_inventory s) (conveyor_queue s) stack.

Record TruckRow := mkTruckRow {
  row_truck_id : Z;
  row_truck_max_capacity : float
}.

Record ShipmentDb := mkShipmentDb {
  delivery_trucks : list TruckRow;
  packages_table : list Package;
  commit : commit_answer
}.

Definition session_commit (a : commit_answer) : M LogiMaster unit :=
  match a with
  | Committed => ret tt
  | CommitFails e => raise e
  end.

Definition shipment_candidates (db : ShipmentDb) (zip_code_filter : string)
  : list Package :=
  map (λ p, new_Package (tracking_id p) (size p) (destination p)
              (is_fragile p))
      (filter (λ p, current_bin_id p ≠ None ∧ destination p = zip_code_filter)
              (packages_table db)).

Definition loading_loop (db : ShipmentDb) (optimal_load : list Package)
  : M LogiMaster unit :=
  for_each optimal_load (λ package,
    modify (λ s, set_loading_stack
                   (loading_stack s ++ [tracking_id package]) s);;
    lift (one (filter (λ p, tracking_id p = tracking_id package)
                      (packages_table db)));;
    _log_shipment (tracking_id package) (size package) "TRUCK_LOADED").

Definition prepare_shipment (limit : nat) (db : ShipmentDb) (truck_id : Z)
    (zip_code_filter : string) : M LogiMaster unit :=
  try_except
    (sql_truck ←
       lift (one (filter (λ t, row_truck_id t = truck_id)
                         (delivery_trucks db)));
     let truck_capacity := row_truck_max_capacity sql_truck in
     let candidate_packages := shipment_candidates db zip_code_filter in
     match candidate_packages with
     | [] => ret tt
     | _ :: _ =>
         optimal_load ←
           lift (find_optimal_shipment limit candidate_packages
                   truck_capacity);
         match optimal_load with
         | [] => ret tt
         | _ :: _ =>
             loading_loop db optimal_load;;
             session_commit (commit db)
         end
     end)
    (λ e, ret tt).

(** ** The claims, read on doubles *)

(** C1 as stated: the selection returned fits the ceiling and no selection
    of the candidates that fits has a larger total, totals being the sums
    of the sizes as numbers. *)
Definition returns_a_best_subset (limit : nat) (packages : list Package)
    (target_capacity : float) : Prop :=
  ∃ result,
    find_optimal_shipment limit packages target_capacity = Returned result ∧
    result ⊆+ packages ∧
    (exact_total result <= F2Q target_capacity)%Q ∧
    ∀ other, other ⊆+ packages →
      (exact_total other <= F2Q target_capacity)%Q →
      (exact_total other <= exact_total result)%Q.

(** C3 as stated: after a failed persistence the matched bin's occupancy
    equals the one before, and the item is back at the front. *)
Definition rollback_restores (s : LogiMaster) (e : exn) : Prop :=
  ∀ package queue' i b,
    conveyor_queue s = package :: queue' →
    fst (find_best_fit_bin (size package) s) = Returned (Some i) →
    bin_inventory s !! i = Some b →
    let s' := snd (process_next_package (CommitFails e) s) in
    conveyor_queue s' = package :: queue' ∧
    ∃ b', bin_inventory s' !! i = Some b' ∧
          (occupancy b' =? occupancy b) = true.

(** C5 as stated: a call entered with a running sum equal to the ceiling is
    the last call of the search. *)
Definition search_stops_at_exact_match (limit : nat)
    (packages : list Package) (target_capacity : float) : Prop :=
  ∀ st before index current_size after,
    run_search target_capacity limit packages = Returned st →
    calls st = before ++ (index, current_size) :: after →
    (current_size =? target_capacity) = true →
    after = [].

(** C7 as stated: both calls keep the occupancy between 0 and the
    capacity. *)
Definition calls_keep_range (b : StorageBin) (amount : float) : Prop :=
  occupancy_in_range b → (0 <=? amount) = true →
  occupancy_in_range (snd (occupy_space amount b)) ∧
  occupancy_in_range (free_space amount b).

(** ** Data *)

Definition package_of_size (tid : string) (sz : float) : Package :=
  new_Package tid sz "40004" false.

(** A bin of capacity 1.7 that holds 0.6. *)
Definition bin_17 : StorageBin := new_StorageBin 1 1.7 "A01" 0.6.

(** A controller with one bin of capacity 1.0 holding 0.1, and a package
    of size 0.2 waiting. *)
Definition tenth_held : LogiMaster :=
  mkLogiMaster [new_StorageBin 1 1 "A01" 0.1] [package_of_size "P1" 0.2] [].

(** The seeded bins, empty, with package A of size 11 waiting before B and
    C. *)
Definition seeded_ABC : LogiMaster :=
  mkLogiMaster
    [ new_StorageBin 101 5 "A01S01" 0; new_StorageBin 102 10 "A01S02" 0;
      new_StorageBin 201 15 "A05S10" 0; new_StorageBin 202 20 "A05S11" 0;
      new_StorageBin 301 50 "B10S05" 0; new_StorageBin 302 100 "B10S06" 0 ]
    [ new_Package "P001" 11 "10001" false;
      new_Package "P002" 4 "20002" true;
      new_Package "P003" 16 "30003" false ]
    [].

(** The same controller once A is stored (bin 201 holds 11): B of size 4
    is at the front, C behind it. *)
Definition seeded_BC : LogiMaster :=
  mkLogiMaster
    [ new_StorageBin 101 5 "A01S01" 0; new_StorageBin 102 10 "A01S02" 0;
      new_StorageBin 201 15 "A05S10" 11; new_StorageBin 202 20 "A05S11" 0;
      new_StorageBin 301 50 "B10S05" 0; new_StorageBin 302 100 "B10S06" 0 ]
    [ new_Package "P002" 4 "20002" true;
      new_Package "P003" 16 "30003" false ]
    [].

(** Candidates of sizes 1.2, 1.0 and 0.7; of sizes 0.4 and 0.1; two of
    size 5; of sizes 25 and 5. *)
Definition trio : list Package :=
  [package_of_size "A" 1.2; package_of_size "B" 1; package_of_size "C" 0.7].

Definition pair_04_01 : list Package :=
  [package_of_size "A" 0.4; package_of_size "B" 0.1].

Definition two_fives : list Package :=
  [package_of_size "A" 5; package_of_size "B" 5].

(** Candidates of sizes 0.4, 0.1 and 0.1. *)
Definition trio_06 : list Package :=
  [package_of_size "A" 0.4; package_of_size "B" 0.1; package_of_size "C" 0.1].

Definition P005_P007 : list Package :=
  [package_of_size "P005" 5; package_of_size "P007" 25].

(** The trucks of db/setup.py, and the packages table once P005 and P007
    sit in their bins. *)
Definition seed_trucks : list TruckRow :=
  [ mkTruckRow 1 500; mkTruckRow 2 1200 ].

Definition stored_P005_P007 : list Package :=
  [ mkPackage "P005" 5 "40004" false (Some 102%Z) None;
    mkPackage "P007" 25 "40004" false (Some 301%Z) None ].

End Double.
(** * Properties *)

(** ** Boolean tests on rationals *)

Lemma Qge_bool_iff a b : Qge_bool a b = true ↔ (b <= a)%Q.
Proof. unfold Qge_bool. apply Qle_bool_iff. Qed.

Lemma Qgt_bool_iff a b : Qgt_bool a b = true ↔ (b < a)%Q.
Proof.
  unfold Qgt_bool. rewrite negb_true_iff, <- not_true_iff_false, Qle_bool_iff.
  split; [apply Qnot_le_lt | apply Qlt_not_le].
Qed.

Lemma Qlt_bool_iff a b : Qlt_bool a b = true ↔ (a < b)%Q.
Proof. apply Qgt_bool_iff. Qed.

Lemma Qgt_bool_false a b : Qgt_bool a b = false ↔ (a <= b)%Q.
Proof.
  unfold Qgt_bool. rewrite negb_false_iff. apply Qle_bool_iff.
Qed.

Lemma Qge_bool_false a b : Qge_bool a b = false ↔ (a < b)%Q.
Proof.
  unfold Qge_bool. rewrite <- not_true_iff_false, Qle_bool_iff.
  split; [apply Qnot_le_lt | apply Qlt_not_le].
Qed.

Lemma py_max_spec a b :
  ((a < b)%Q ∧ py_max a b = b) ∨ ((b <= a)%Q ∧ py_max a b = a).
Proof.
  unfold py_max. destruct (Qgt_bool b a) eqn:E.
  - left. split; [by apply Qgt_bool_iff | done].
  - right. split; [by apply Qgt_bool_false | done].
Qed.

(** ** Storage bins *)

Lemma occupy_space_capacity amount b :
  capacity (snd (occupy_space amount b)) = capacity b.
Proof. unfold occupy_space. by destruct (Qge_bool _ _). Qed.

Lemma free_space_capacity amount b : capacity (free_space amount b) = capacity b.
Proof. done. Qed.

(** ** Sublists *)


(** ** The sort *)

Section StableSortFacts.
Context {A : Type} (after : A → A → bool).

Lemma insert_sorted_Permutation x l : insert_sorted after x l ≡ₚ x :: l.
Proof.
  induction l as [|y l IH]; simpl; [done|].
  destruct (after x y); [|done]. rewrite IH. apply Permutation_swap.
Qed.

Lemma stable_sort_Permutation l : stable_sort after l ≡ₚ l.
Proof.
  induction l as [|x l IH]; simpl; [done|].
  by rewrite insert_sorted_Permutation, IH.
Qed.

(** Elements that [x] never has to follow and that never have to follow
    [x] keep their order: inserting [x] does not disturb a filter that
    leaves [x] out, and puts [x] first in a filter whose other elements it
    need not follow. *)
Lemma filter_insert_sorted_out (P : A → Prop) `{∀ a, Decision (P a)} x l :
  ¬ P x → filter P (insert_sorted after x l) = filter P l.
Proof.
  intros Hx. induction l as [|y l IH]; simpl.
  - by rewrite filter_cons_False.
  - destruct (after x y).
    + rewrite !filter_cons, IH. done.
    + by rewrite (filter_cons_False _ x).
Qed.

Lemma filter_insert_sorted_in (P : A → Prop) `{∀ a, Decision (P a)} x l :
  P x → (∀ y, P y → after x y = false) →
  filter P (insert_sorted after x l) = x :: filter P l.
Proof.
  intros Hx Hafter. induction l as [|y l IH]; simpl.
  - by rewrite filter_cons_True.
  - destruct (after x y) eqn:E.
    + assert (¬ P y) as Hy.
      { intros Hy. rewrite (Hafter y Hy) in E. done. }
      by rewrite !(filter_cons_False _ y), IH.
    + by rewrite (filter_cons_True _ x).
Qed.

Lemma stable_sort_stable (P : A → Prop) `{∀ a, Decision (P a)} l :
  (∀ x y, P x → P y → after x y = false) →
  filter P (stable_sort after l) = filter P l.
Proof.
  intros Hafter. induction l as [|x l IH]; simpl; [done|].
  destruct (decide (P x)) as [Hx|Hx].
  - rewrite filter_insert_sorted_in, IH, filter_cons_True; auto.
  - rewrite filter_insert_sorted_out, IH, filter_cons_False; auto.
Qed.
End StableSortFacts.

(** Sorting ascending by a key. *)
Section SortAscending.
Context {A : Type} (key : A → Q).
Local Open Scope Q_scope.

Local Abbreviation after := (λ x y : A, Qlt_bool (key y) (key x)).
Local Abbreviation le := (λ x y : A, key x <= key y).

Lemma insert_sorted_ascending x l :
  StronglySorted le l → StronglySorted le (insert_sorted after x l).
Proof.
  induction 1 as [|y l Hl IH Hy]; simpl.
  - repeat constructor.
  - destruct (Qlt_bool (key y) (key x)) eqn:E.
    + apply Qlt_bool_iff in E. constructor; [done|].
      rewrite insert_sorted_Permutation. constructor; [lra|done].
    + apply not_true_iff_false in E. rewrite Qlt_bool_iff in E.
      constructor; [by constructor|].
      constructor; [lra|].
      eapply Forall_impl; [exact Hy|]. intros z Hz. simpl in Hz. lra.
Qed.

Lemma stable_sort_ascending l : StronglySorted le (stable_sort after l).
Proof.
  induction l; simpl; [constructor | by apply insert_sorted_ascending].
Qed.

Lemma StronglySorted_lookup_le l i j x y :
  StronglySorted le l → (i ≤ j)%nat → l !! i = Some x → l !! j = Some y →
  key x <= key y.
Proof.
  intros Hl. revert i j. induction Hl as [|z l Hl IH Hz]; intros i j Hij Hi Hj.
  - done.
  - destruct i as [|i], j as [|j]; simpl in *; try lia.
    + injection Hi as <-. injection Hj as <-. apply Qle_refl.
    + injection Hi as <-. apply (proj1 (Forall_forall _ _) Hz).
      by eapply list_elem_of_lookup_2.
    + apply (IH i j); [lia|done|done].
Qed.

(** Sorting a list that is already ascending changes nothing. *)
Lemma insert_sorted_head x l :
  Forall (le x) l → insert_sorted after x l = x :: l.
Proof.
  intros Hx. destruct l as [|y l]; simpl; [done|].
  inversion Hx as [|? ? Hy _]; subst.
  assert (Qlt_bool (key y) (key x) = false) as ->; [|done].
  apply not_true_iff_false. rewrite Qlt_bool_iff. lra.
Qed.

Lemma stable_sort_id l : StronglySorted le l → stable_sort after l = l.
Proof.
  induction 1 as [|x l Hl IH Hx]; simpl; [done|].
  by rewrite IH, insert_sorted_head.
Qed.
End SortAscending.

(** ** The backtracking search *)

Section BacktrackFacts.
Context {A : Type} (psize : A → Q) (T : Q).
Local Open Scope Q_scope.

Lemma backtrack_unfold rest index cs st :
  backtrack psize T rest index cs st =
  let st := log_call index cs st in
  if Qeq_bool cs T then record_best cs st
  else for_range psize T (backtrack psize T) cs rest index
         (if Qgt_bool cs (best_size st) then record_best cs st else st).
Proof. by destruct rest. Qed.

End BacktrackFacts.

(** ** The loop by index and the loop by suffix agree *)

Section ByIndex.
Context {A : Type} (psize : A → Q) (T : Q) (sorted : list A).

Lemma for_indices_suffix depth cs :
  (∀ index cs st,
     (length sorted - index < depth)%nat →
     backtrack_by_index psize T sorted depth index cs st
     = Some (backtrack psize T (drop index sorted) index cs st)) →
  ∀ n i st,
    n = (length sorted - i)%nat →
    (length sorted - i ≤ depth)%nat →
    foldl
      (λ acc i,
         st ← acc;
         package ← sorted !! i;
         if Qle_bool (cs + psize package) T
         then
           st ← backtrack_by_index psize T sorted depth (S i)
                  (cs + psize package)%Q (load_append package st);
           Some (load_pop st)
         else Some st)
      (Some st) (seq i n)
    = Some (for_range psize T (backtrack psize T) cs (drop i sorted) i st).
Proof.
  intros Hbt. induction n as [|n IH]; intros i st Hn Hdepth.
  - simpl. rewrite drop_ge by lia. done.
  - destruct (sorted !! i) as [package|] eqn:Hi.
    2: { apply lookup_ge_None in Hi. lia. }
    rewrite (drop_S _ _ _ Hi). simpl. rewrite Hi. simpl.
    destruct (Qle_bool (cs + psize package) T).
    + rewrite Hbt by lia. simpl. apply IH; lia.
    + apply IH; lia.
Qed.

(** With a bound larger than the number of candidates left, the loop by
    index returns, and returns what [backtrack] returns on the suffix. *)
Lemma backtrack_by_index_suffix depth index cs st :
  (length sorted - index < depth)%nat →
  backtrack_by_index psize T sorted depth index cs st
  = Some (backtrack psize T (drop index sorted) index cs st).
Proof.
  revert index cs st.
  induction depth as [|depth IH]; intros index cs st Hdepth; [lia|].
  rewrite backtrack_unfold. simpl.
  destruct (Qeq_bool cs T); [done|].
  apply (for_indices_suffix depth cs); [|done|lia].
  intros i c s Hlt. by apply IH.
Qed.

End ByIndex.

(** The whole search: [backtrack(0, [], 0.0)] by index is [run_search]. *)
Lemma run_search_by_index {A} (psize : A → Q) (T : Q) (packages : list A) :
  backtrack_by_index psize T (sorted_desc psize packages)
    (S (length packages)) 0 0 search_init
  = Some (run_search psize T packages).
Proof.
  rewrite backtrack_by_index_suffix; [done|].
  unfold sorted_desc.
  rewrite (Permutation_length (stable_sort_Permutation _ packages)). lia.
Qed.

(** ** The best-fit selector *)

Lemma py_getitem_in_range {A} (l : list A) (i : Z) :
  (0 ≤ i < Z.of_nat (length l))%Z →
  ∃ x, l !! Z.to_nat i = Some x ∧ py_getitem l i = Returned (Z.to_nat i, x).
Proof.
  intros Hi. unfold py_getitem. cbv zeta.
  assert (Hneg : (i <? 0)%Z = false) by lia. rewrite Hneg, Hneg.
  destruct (l !! Z.to_nat i) as [x|] eqn:E.
  - by exists x.
  - apply lookup_ge_None in E. lia.
Qed.

(** What the loop of the binary search computes, started on a window
    [low..high] such that everything left of it is too small, everything
    right of it is large enough, and [best_fit_bin] is the position just
    right of the window when there is one. *)
Lemma find_best_fit_bin_loop_spec bins package_size low high best_fit_bin :
  capacity_ascending bins →
  (0 ≤ low)%Z → (high < Z.of_nat (length bins))%Z → (low ≤ high + 1)%Z →
  (∀ j b, (Z.of_nat j < low)%Z → bins !! j = Some b →
          (capacity b < package_size)%Q) →
  (∀ j b, (high < Z.of_nat j)%Z → bins !! j = Some b →
          (package_size <= capacity b)%Q) →
  best_fit_bin = (if decide (high + 1 < Z.of_nat (length bins))%Z
                  then Some (Z.to_nat (high + 1)) else None) →
  ∃ r, find_best_fit_bin_loop bins package_size low high best_fit_bin
         = Returned r ∧
       match r with
       | Some i =>
           (∃ b, bins !! i = Some b ∧ (package_size <= capacity b)%Q) ∧
           ∀ j b, (j < i)%nat → bins !! j = Some b →
                  (capacity b < package_size)%Q
       | None => ∀ j b, bins !! j = Some b → (capacity b < package_size)%Q
       end.
Proof.
  intros Hasc.
  remember (Z.to_nat (high - low + 1)) as n eqn:Hn.
  revert low high best_fit_bin Hn.
  induction (lt_wf n) as [n _ IH].
  intros low high best -> Hlow Hhigh Hwin Hleft Hright Hbest.
  rewrite find_best_fit_bin_loop_equation_1.
  destruct (Z_le_gt_dec low high) as [Hle|Hgt]; simpl.
  - set (mid := ((low + high) / 2)%Z).
    assert (Hmid : (low ≤ mid ≤ high)%Z).
    { subst mid. split;
        [apply Z.div_le_lower_bound | apply Z.div_le_upper_bound]; lia. }
    destruct (py_getitem_in_range bins mid) as (b & Hb & ->); [lia|]. simpl.
    destruct (Qge_bool (capacity b) package_size) eqn:E; simpl.
    + apply Qge_bool_iff in E.
      apply (IH (Z.to_nat (mid - 1 - low + 1))); try lia; [done| |].
      * intros j b' Hj Hb'.
        apply Qle_trans with (capacity b); [done|].
        apply (Hasc (Z.to_nat mid) j b b'); [lia|done|done].
      * rewrite decide_True by lia. f_equal. lia.
    + apply Qge_bool_false in E.
      apply (IH (Z.to_nat (high - (mid + 1) + 1))); try lia; [|done|done].
      intros j b' Hj Hb'.
      apply Qle_lt_trans with (capacity b); [|done].
      apply (Hasc j (Z.to_nat mid) b' b); [lia|done|done].
  - assert (low = high + 1)%Z as -> by lia.
    exists best. split; [done|]. subst best. case_decide as Hd.
    + destruct (bins !! Z.to_nat (high + 1)) as [b|] eqn:Eb.
      2: { apply lookup_ge_None in Eb. lia. }
      split.
      * exists b. split; [done|]. apply (Hright (Z.to_nat (high + 1)) b); [lia|done].
      * intros j b' Hj. apply Hleft. lia.
    + intros j b Hb. apply (Hleft j b); [|done].
      apply lookup_lt_Some in Hb. lia.
Qed.

Lemma load_and_sort_bins_sorted query :
  StronglySorted (λ x y, (capacity x <= capacity y)%Q)
                 (_load_and_sort_bins query).
Proof.
  destruct query as [rows|e]; simpl; [|constructor].
  apply (stable_sort_ascending capacity).
Qed.

Lemma load_and_sort_bins_ascending query :
  capacity_ascending (_load_and_sort_bins query).
Proof.
  intros i j bi bj Hij Hi Hj.
  by apply (StronglySorted_lookup_le capacity _ i j bi bj
              (load_and_sort_bins_sorted query)).
Qed.

(** The loop started on the whole catalog finds the leftmost capable bin. *)
Lemma find_best_fit_bin_loop_leftmost bins package_size :
  capacity_ascending bins →
  find_best_fit_bin_loop bins package_size
    0 (Z.of_nat (length bins) - 1) None
  = Returned (fst <$> leftmost_capable bins package_size) ∧
  ∀ i b, leftmost_capable bins package_size = Some (i, b) → bins !! i = Some b.
Proof.
  intros Hasc.
  destruct (find_best_fit_bin_loop_spec bins package_size
              0 (Z.of_nat (length bins) - 1) None Hasc)
    as (r & -> & Hr); try lia.
  - intros j b Hj Hb. apply lookup_lt_Some in Hb. lia.
  - rewrite decide_False by lia. done.
  - split.
    + f_equal. unfold leftmost_capable. destruct r as [i|].
      * destruct Hr as ((b & Hb & Hcap) & Hleft).
        assert (list_find (λ b, Is_true (Qge_bool (capacity b) package_size))
                  bins = Some (i, b)) as ->; [|done].
        apply list_find_Some. split; [done|]. split.
        -- apply Is_true_true. by apply Qge_bool_iff.
        -- intros j y Hy Hj Hcapy. apply Is_true_true, Qge_bool_iff in Hcapy.
           specialize (Hleft j y Hj Hy). lra.
      * assert (list_find (λ b, Is_true (Qge_bool (capacity b) package_size))
                  bins = None) as ->; [|done].
        apply list_find_None, Forall_forall. intros b Hb Hcap.
        apply Is_true_true, Qge_bool_iff in Hcap.
        apply list_elem_of_lookup in Hb as (j & Hj).
        specialize (Hr j b Hj). lra.
    + intros i b Hf. unfold leftmost_capable in Hf.
      by apply list_find_Some in Hf as (? & _).
Qed.

Lemma select_spec_Some bins item_size i :
  select_spec bins item_size = Some i ↔
  ∃ b, bins !! i = Some b ∧
       (item_size <= capacity b)%Q ∧
       (∀ j b', (j < i)%nat → bins !! j = Some b' →
                (capacity b' < item_size)%Q) ∧
       (item_size <= capacity b - occupancy b)%Q.
Proof.
  unfold select_spec, leftmost_capable. split.
  - destruct (list_find _ bins) as [[k b]|] eqn:E; [|done].
    apply list_find_Some in E as (Hb & Hcap & Hleft).
    destruct (Qge_bool (get_remaining_capacity b) item_size) eqn:G; [|done].
    intros [= ->]. exists b. split; [done|].
    apply Is_true_true, Qge_bool_iff in Hcap. apply Qge_bool_iff in G.
    split; [done|]. split; [|done].
    intros j b' Hj Hb'. apply Qnot_le_lt. intros Hle.
    apply (Hleft j b' Hb' Hj). by apply Is_true_true, Qge_bool_iff.
  - intros (b & Hb & Hcap & Hleft & Hfree).
    assert (list_find (λ b, Is_true (Qge_bool (capacity b) item_size)) bins
            = Some (i, b)) as ->.
    { apply list_find_Some. split; [done|]. split.
      - by apply Is_true_true, Qge_bool_iff.
      - intros j y Hy Hj Hcapy. apply Is_true_true, Qge_bool_iff in Hcapy.
        specialize (Hleft j y Hj Hy). lra. }
    assert (Qge_bool (get_remaining_capacity b) item_size = true) as ->; [|done].
    by apply Qge_bool_iff.
Qed.

Lemma find_best_fit_bin_run (s : LogiMaster) (package_size : Q) :
  capacity_ascending (bin_inventory s) →
  find_best_fit_bin package_size s
  = (Returned (select_spec (bin_inventory s) package_size), s).
Proof.
  intros Hasc.
  destruct (find_best_fit_bin_loop_leftmost _ package_size Hasc) as [Hloop Hat].
  unfold find_best_fit_bin, select_spec. unfold_M. rewrite Hloop.
  destruct (leftmost_capable (bin_inventory s) package_size) as [[i b]|] eqn:E;
    simpl; [|done].
  unfold bin_at. rewrite (Hat i b eq_refl).
  by destruct (Qge_bool (get_remaining_capacity b) package_size).
Qed.



(** ** The selector only reads *)

Lemma find_best_fit_bin_frame (s : LogiMaster) (package_size : Q) :
  find_best_fit_bin package_size s
  = (best_fit_answer (bin_inventory s) package_size, s).
Proof.
  unfold best_fit_answer, find_best_fit_bin. unfold_M. simpl.
  destruct (find_best_fit_bin_loop (bin_inventory s) package_size 0
              (Z.of_nat (length (bin_inventory s)) - 1) None) as [[i|]|e];
    [|done|done].
  unfold bin_at. simpl. destruct (bin_inventory s !! i) as [b|]; [|done].
  by destruct (Qge_bool (get_remaining_capacity b) package_size).
Qed.

(** A position the selector answers holds a bin with the free space. *)
Lemma best_fit_answer_Some bins package_size i :
  best_fit_answer bins package_size = Returned (Some i) →
  ∃ b, bins !! i = Some b ∧
       (package_size <= get_remaining_capacity b)%Q.
Proof.
  unfold best_fit_answer, find_best_fit_bin. unfold_M. simpl.
  destruct (find_best_fit_bin_loop bins package_size 0
              (Z.of_nat (length bins) - 1) None) as [[j|]|e]; [|done|done].
  unfold bin_at. simpl. destruct (bins !! j) as [b|] eqn:Eb; [|done].
  destruct (Qge_bool (get_remaining_capacity b) package_size) eqn:G; [|done].
  intros [= <-]. exists b. split; [done|]. by apply Qge_bool_iff.
Qed.

(** What [process_next_package] leaves behind, in terms of the selector's
    answer. *)
Lemma process_next_package_run db (s : LogiMaster) package queue' :
  conveyor_queue s = package :: queue' →
  process_next_package db s =
  match best_fit_answer (bin_inventory s) (size package) with
  | Returned (Some i) =>
      let occupied := alter (λ b, snd (occupy_space (size package) b)) i
                            (bin_inventory s) in
      match db with
      | Committed =>
          (Returned tt, mkLogiMaster occupied queue' (loading_stack s))
      | CommitFails _ =>
          (Returned tt,
           mkLogiMaster (alter (free_space (size package)) i occupied)
                        (package :: queue') (loading_stack s))
      end
  | Returned None =>
      (Returned tt, mkLogiMaster (bin_inventory s) queue' (loading_stack s))
  | Raised e =>
      (Raised e, mkLogiMaster (bin_inventory s) queue' (loading_stack s))
  end.
Proof.
  intros Hq. unfold process_next_package.
  unfold mbind at 1, M_bind at 1, bind at 1, gets at 1. rewrite Hq.
  unfold mbind at 1, M_bind at 1, bind at 1, modify at 1.
  unfold mbind at 1, M_bind at 1, bind at 1.
  rewrite find_best_fit_bin_frame. simpl.
  destruct (best_fit_answer (bin_inventory s) (size package))
    as [[i|]|e] eqn:E; [|done|done].
  destruct (best_fit_answer_Some _ _ _ E) as (b & Hb & _).
  unfold try_except, _update_db_assignment, _log_shipment, bin_call.
  unfold_M. simpl. rewrite Hb. simpl.
  destruct db as [|e]; [done|]. simpl.
  rewrite list_lookup_alter_eq, Hb. done.
Qed.

(** C9.  [find_best_fit_bin] leaves the controller exactly as it found it:
    the catalog (its order, every capacity and every occupancy), the queue
    and the stack.  The occupancy changes afterwards, in
    [process_next_package], by the [occupy_space] call on the bin the
    selector answered: after a successful run the controller differs from
    the one before by the popped queue head and by that one call. *)
Theorem find_best_fit_bin_mutates_nothing (s : LogiMaster) (package_size : Q) :
  snd (find_best_fit_bin package_size s) = s ∧
  snd (process_next_package Committed s) =
  match conveyor_queue s with
  | [] => s
  | package :: queue' =>
      match fst (find_best_fit_bin (size package) s) with
      | Returned (Some i) =>
          set_bin_inventory
            (alter (λ b, snd (occupy_space (size package) b)) i
                   (bin_inventory s))
            (set_conveyor_queue queue' s)
      | _ => set_conveyor_queue queue' s
      end
  end.
Proof.
  split.
  - by rewrite find_best_fit_bin_frame.
  - destruct (conveyor_queue s) as [|package queue'] eqn:Hq.
    + unfold process_next_package. unfold_M. rewrite Hq. done.
    + rewrite (process_next_package_run _ _ _ _ Hq), find_best_fit_bin_frame.
      simpl. by destruct (best_fit_answer _ _) as [[i|]|e].
Qed.

Lemma find_best_fit_bin_loop_returns bins package_size low high best_fit_bin :
  (0 ≤ low)%Z → (high < Z.of_nat (length bins))%Z →
  (∀ i, best_fit_bin = Some i → (i < length bins)%nat) →
  ∃ r, find_best_fit_bin_loop bins package_size low high best_fit_bin
       = Returned r ∧
       ∀ i, r = Some i → (i < length bins)%nat.
Proof.
  remember (Z.to_nat (high - low + 1)) as n eqn:Hn.
  revert low high best_fit_bin Hn.
  induction (lt_wf n) as [n _ IH]. intros low high best -> Hlow Hhigh Hbest.
  rewrite find_best_fit_bin_loop_equation_1.
  destruct (Z_le_gt_dec low high) as [Hle|Hgt]; simpl; [|by exists best].
  assert (Hmid : (low ≤ (low + high) / 2 ≤ high)%Z).
  { split; [apply Z.div_le_lower_bound | apply Z.div_le_upper_bound]; lia. }
  destruct (py_getitem_in_range bins ((low + high) / 2)) as (b & Hb & ->);
    [lia|]. simpl.
  destruct (Qge_bool (capacity b) package_size); simpl.
  - apply (IH (Z.to_nat ((low + high) / 2 - 1 - low + 1))); try lia.
    intros i [= <-]. lia.
  - apply (IH (Z.to_nat (high - ((low + high) / 2 + 1) + 1))); try lia. done.
Qed.

Lemma best_fit_answer_returns bins package_size :
  ∃ r, best_fit_answer bins package_size = Returned r.
Proof.
  unfold best_fit_answer, find_best_fit_bin. unfold_M. simpl.
  destruct (find_best_fit_bin_loop_returns bins package_size 0
              (Z.of_nat (length bins) - 1) None) as ([i|] & -> & Hi);
    try lia; try done.
  - unfold bin_at. simpl. destruct (bins !! i) as [b|] eqn:Eb.
    + destruct (Qge_bool (get_remaining_capacity b) package_size); eauto.
    + apply lookup_ge_None in Eb. specialize (Hi i eq_refl). lia.
  - eauto.
Qed.

(** ** The empty queue *)

Lemma process_next_package_returns_None db (s : LogiMaster) :
  fst (process_next_package db s) = Returned tt.
Proof.
  destruct (conveyor_queue s) as [|package queue'] eqn:Hq.
  - unfold process_next_package. unfold_M. by rewrite Hq.
  - rewrite (process_next_package_run _ _ _ _ Hq).
    destruct (best_fit_answer_returns (bin_inventory s) (size package))
      as (r & ->).
    by destruct r, db.
Qed.

(** C8, as stated, fails: the value a caller receives from a call on the
    empty queue is the value it receives from a call that assigns a
    package.  Both are [None]. *)
Lemma empty_outcome_not_distinguishable : ¬ empty_outcome_distinguishable.
Proof.
  intros H. apply (H Committed seeded ingested_ABC); [done|done|].
  by rewrite !process_next_package_returns_None.
Qed.

(** C8, amended.  On an empty queue [process_next_package] ends normally
    and leaves the controller as it found it: the queue, every bin of the
    catalog and the stack.  What it returns is [None], which is also what
    it returns in every other state and for every answer of the database:
    an assignment, a package that fits nowhere and a rollback give the
    caller the same value. *)
Theorem empty_queue_is_a_no_op (db : commit_answer) (s : LogiMaster) :
  conveyor_queue s = [] →
  process_next_package db s = (Returned tt, s) ∧
  ∀ db' s', fst (process_next_package db' s') = Returned tt.
Proof.
  intros Hq. split.
  - unfold process_next_package. unfold_M. by rewrite Hq.
  - intros db' s'. apply process_next_package_returns_None.
Qed.

Lemma empty_queue_is_a_no_op_witness :
  process_next_package Committed seeded = (Returned tt, seeded) ∧
  ∀ db' s', fst (process_next_package db' s') = Returned tt.
Proof.
  apply (empty_queue_is_a_no_op Committed seeded). reflexivity.
Defined.

(** ** The stack after a failed shipment *)

Lemma loading_loop_run (db : ShipmentDb) (load : list Package) (s : LogiMaster) :
  Forall (λ package,
            ∃ row, one (filter (λ p, tracking_id p = tracking_id package)
                               (packages_table db)) = Returned row) load →
  for_each load (λ package,
    modify (λ s, set_loading_stack
                   (loading_stack s ++ [tracking_id package]) s);;
    lift (one (filter (λ p, tracking_id p = tracking_id package)
                      (packages_table db)));;
    _log_shipment (tracking_id package) (size package) "TRUCK_LOADED") s
  = (Returned tt,
     set_loading_stack (loading_stack s ++ (tracking_id <$> load)) s).
Proof.
  intros Hall. revert s.
  induction Hall as [|package load (row & Hrow) _ IH]; intros s.
  - simpl. unfold ret, set_loading_stack. rewrite List.app_nil_r. by destruct s.
  - simpl. unfold _log_shipment. unfold_M. rewrite Hrow. simpl.
    rewrite IH. unfold set_loading_stack. simpl.
    by rewrite <- List.app_assoc.
Qed.

Lemma find_optimal_shipment_nil target_capacity :
  find_optimal_shipment [] target_capacity = [].
Proof.
  unfold find_optimal_shipment, find_optimal_shipment_on, run_search. simpl.
  destruct (Qeq_bool 0 target_capacity); [done|]. simpl.
  by destruct (Qgt_bool 0 0).
Qed.

(** C4 fails on the code.  When the truck is found, every package of the
    optimal load is found, and the commit at the end fails, the call ends
    normally and the stack holds, after what it held before, the tracking
    id of every package of the batch that was not committed. *)
Theorem failed_shipment_stays_on_stack (db : ShipmentDb) (truck_id : Z)
    (zip_code_filter : string) (s : LogiMaster) (truck : TruckRow) (e : exn) :
  one (filter (λ t, row_truck_id t = truck_id) (delivery_trucks db))
    = Returned truck →
  let candidate_packages :=
    map (λ p, new_Package (tracking_id p) (size p) (destination p)
                (is_fragile p))
        (filter (λ p, current_bin_id p ≠ None ∧ destination p = zip_code_filter)
                (packages_table db)) in
  let optimal_load :=
    find_optimal_shipment candidate_packages (row_truck_max_capacity truck) in
  Forall (λ package,
            ∃ row, one (filter (λ p, tracking_id p = tracking_id package)
                               (packages_table db)) = Returned row)
         optimal_load →
  commit db = CommitFails e →
  prepare_shipment db truck_id zip_code_filter s
  = (Returned tt,
     set_loading_stack (loading_stack s ++ (tracking_id <$> optimal_load)) s).
Proof.
  intros Htruck. cbv zeta. intros Hrows Hcommit.
  unfold prepare_shipment, try_except.
  unfold mbind at 1, M_bind at 1, bind at 1, lift at 1. rewrite Htruck.
  cbv zeta.
  set (candidates :=
         map (λ p, new_Package (tracking_id p) (size p) (destination p)
                     (is_fragile p)) _) in *.
  set (optimal := find_optimal_shipment candidates _) in *.
  assert (Hnil : candidates = [] → optimal = []).
  { intros Ec. subst optimal. rewrite Ec. apply find_optimal_shipment_nil. }
  clearbody optimal candidates.
  destruct candidates as [|c cs].
  { rewrite Hnil by done. simpl. unfold ret, set_loading_stack.
    rewrite List.app_nil_r. by destruct s. }
  destruct optimal as [|o os] eqn:Eo.
  { simpl. unfold ret, set_loading_stack. rewrite List.app_nil_r.
    by destruct s. }
  rewrite <- Eo in *. clear Eo.
  unfold mbind at 1, M_bind at 1, bind at 1.
  rewrite (loading_loop_run db optimal s Hrows).
  unfold session_commit. rewrite Hcommit. done.
Qed.

Lemma failed_shipment_stays_on_stack_witness :
  prepare_shipment failing_db 1 "40004" seeded
  = (Returned tt, set_loading_stack ["P007"; "P005"] seeded).
Proof.
  apply (failed_shipment_stays_on_stack failing_db 1 "40004" seeded
           (mkTruckRow 1 500) OperationalError).
  - reflexivity.
  - repeat constructor; eexists; reflexivity.
  - reflexivity.
Defined.

(** ** The order of the catalog *)

Section SameKeys.
Context {A : Type} (key : A → Q).
Local Open Scope Q_scope.

Lemma StronglySorted_same_keys (l l' : list A) :
  key <$> l' = key <$> l →
  StronglySorted (λ x y, key x <= key y) l →
  StronglySorted (λ x y, key x <= key y) l'.
Proof.
  intros Hk Hl. revert l' Hk.
  induction Hl as [|x l Hl IH Hx]; intros [|x' l'] Hk; try done.
  - constructor.
  - injection Hk as Hx' Hl'. constructor; [by apply IH|].
    apply Forall_forall. intros y Hy.
    assert (Hin : key y ∈ key <$> l).
    { replace (key <$> l) with (key <$> l') by exact Hl'.
      by apply list_elem_of_fmap_2. }
    apply list_elem_of_fmap in Hin as (z & Hz & Hzl).
    rewrite Hx', Hz. by apply (proj1 (Forall_forall _ _) Hx).
Qed.
End SameKeys.

Lemma bin_call_identity {R} i (method : StorageBin → R * StorageBin) s :
  (∀ b, bin_identity (snd (method b)) = bin_identity b) →
  bin_identity <$> bin_inventory (snd (bin_call i method s))
  = bin_identity <$> bin_inventory s.
Proof.
  intros Hid. unfold bin_call. destruct (bin_inventory s !! i); [|done].
  simpl. rewrite (list_fmap_alter bin_identity _ id).
  - by apply list_alter_id.
  - apply Forall_forall. intros b _. apply Hid.
Qed.

Lemma run_bin_op_identity op s :
  bin_identity <$> bin_inventory (snd (run_bin_op op s))
  = bin_identity <$> bin_inventory s.
Proof.
  destruct op as [i amount|i amount]; simpl.
  - unfold_M.
    pose proof (bin_call_identity i (occupy_space amount) s) as H.
    destruct (bin_call i (occupy_space amount) s) as [[r|e] s']; simpl in *;
      apply H; intros b; unfold occupy_space;
      by destruct (Qge_bool (get_remaining_capacity b) amount).
  - by apply bin_call_identity.
Qed.

Lemma run_bin_ops_identity ops s :
  bin_identity <$> bin_inventory (run_bin_ops ops s)
  = bin_identity <$> bin_inventory s.
Proof.
  unfold run_bin_ops. revert s. induction ops as [|op ops IH]; intros s; [done|].
  simpl. by rewrite IH, run_bin_op_identity.
Qed.

Lemma bins_of_capacity_identity c l l' :
  bin_identity <$> l' = bin_identity <$> l →
  bins_of_capacity c l' = bins_of_capacity c l.
Proof.
  unfold bins_of_capacity. revert l'.
  induction l as [|b l IH]; intros [|b' l'] Hid; try done.
  injection Hid as Hbid Hcap Hloc Hl.
  rewrite !filter_cons, Hcap. destruct (decide _); csimpl;
    rewrite (IH l' Hl); congruence.
Qed.

Lemma bins_of_capacity_rows c rows :
  bins_of_capacity c
    (map (λ b, new_StorageBin (row_bin_id b) (row_max_capacity b)
                 (row_location_code b) (row_current_occupancy b)) rows)
  = rows_of_capacity c rows.
Proof.
  unfold bins_of_capacity, rows_of_capacity.
  induction rows as [|r rows IH]; [done|].
  simpl. rewrite !filter_cons. simpl.
  destruct (decide _); csimpl; by rewrite IH.
Qed.

Lemma load_and_sort_bins_stable c rows :
  bins_of_capacity c (_load_and_sort_bins (Returned rows))
  = rows_of_capacity c rows.
Proof.
  rewrite <- bins_of_capacity_rows. unfold bins_of_capacity, _load_and_sort_bins.
  f_equal. apply stable_sort_stable.
  intros x y Hx%Is_true_true%Qeq_bool_iff Hy%Is_true_true%Qeq_bool_iff.
  unfold StorageBin_lt. apply not_true_iff_false. rewrite Qlt_bool_iff.
  apply Qle_not_lt. rewrite Hx, Hy. apply Qle_refl.
Qed.

(** C6.  Take a controller whose catalog is the one loading produced, and
    any sequence of [occupy_space] and [free_space] calls on its bins.
    Afterwards the catalog lists the same bins (id, capacity and location)
    at the same positions; it is ascending by capacity; the bins of any one
    capacity are in the order of the rows they were loaded from; and
    sorting it again would return it as it is. *)
Theorem catalog_order_invariant (query : outcome (list BinRow))
    (s : LogiMaster) (ops : list bin_op) :
  bin_inventory s = _load_and_sort_bins query →
  let after := bin_inventory (run_bin_ops ops s) in
  bin_identity <$> after = bin_identity <$> _load_and_sort_bins query ∧
  StronglySorted (λ x y, (capacity x <= capacity y)%Q) after ∧
  capacity_ascending after ∧
  (∀ rows c, query = Returned rows →
             bins_of_capacity c after = rows_of_capacity c rows) ∧
  stable_sort (λ x y, StorageBin_lt y x) after = after.
Proof.
  intros Hs after.
  assert (Hid : bin_identity <$> after
                = bin_identity <$> _load_and_sort_bins query).
  { subst after. by rewrite run_bin_ops_identity, Hs. }
  assert (Hsorted : StronglySorted (λ x y, (capacity x <= capacity y)%Q) after).
  { apply (StronglySorted_same_keys capacity (_load_and_sort_bins query)).
    - apply (f_equal (fmap (λ t : Z * Q * string, snd (fst t)))) in Hid.
      by rewrite <- !list_fmap_compose in Hid.
    - apply load_and_sort_bins_sorted. }
  split; [done|]. split; [done|]. split.
  { intros i j bi bj Hij Hi Hj.
    by apply (StronglySorted_lookup_le capacity after i j bi bj Hsorted). }
  split.
  { intros rows c ->.
    rewrite (bins_of_capacity_identity c _ _ Hid).
    apply load_and_sort_bins_stable. }
  by apply (stable_sort_id capacity).
Qed.

Lemma catalog_order_invariant_witness :
  let after :=
    bin_inventory
      (run_bin_ops [OccupySpace 2 11; FreeSpace 0 3; OccupySpace 5 200] seeded) in
  bin_identity <$> after = bin_identity <$> _load_and_sort_bins (Returned seed_bins) ∧
  capacity_ascending after.
Proof.
  destruct (catalog_order_invariant (Returned seed_bins) seeded
              [OccupySpace 2 11; FreeSpace 0 3; OccupySpace 5 200])
    as (Hid & _ & Hasc & _).
  - reflexivity.
  - split; [exact Hid | exact Hasc].
Defined.

(** ** The search touches only what it made *)

Section SearchShape.
Context {A : Type} (psize : A → Q) (T : Q).





End SearchShape.



(** ** The heap run *)





Lemma sim_state_log_call h cur best st index cs :
  sim_state h cur best st → sim_state h cur best (log_call index cs st).
Proof. done. Qed.



Section HeapSimulation.
Context (psize : loc → Q) (T : Q).

Local Abbreviation valid h :=
  (λ r, ∃ pkg, objects h !! r = Some pkg ∧ size pkg = psize r).



End HeapSimulation.





(** * Further properties *)

(** ** The selector on any catalog *)

Lemma find_best_fit_bin_loop_capable bins package_size low high best_fit_bin :
  (0 ≤ low)%Z → (high < Z.of_nat (length bins))%Z →
  (∀ i, best_fit_bin = Some i →
        ∃ b, bins !! i = Some b ∧ (package_size <= capacity b)%Q) →
  ∃ r, find_best_fit_bin_loop bins package_size low high best_fit_bin
       = Returned r ∧
       ∀ i, r = Some i →
            ∃ b, bins !! i = Some b ∧ (package_size <= capacity b)%Q.
Proof.
  remember (Z.to_nat (high - low + 1)) as n eqn:Hn.
  revert low high best_fit_bin Hn.
  induction (lt_wf n) as [n _ IH]. intros low high best -> Hlow Hhigh Hbest.
  rewrite find_best_fit_bin_loop_equation_1.
  destruct (Z_le_gt_dec low high) as [Hle|Hgt]; simpl; [|by exists best].
  assert (Hmid : (low ≤ (low + high) / 2 ≤ high)%Z).
  { split; [apply Z.div_le_lower_bound | apply Z.div_le_upper_bound]; lia. }
  destruct (py_getitem_in_range bins ((low + high) / 2)) as (b & Hb & ->);
    [lia|]. simpl.
  destruct (Qge_bool (capacity b) package_size) eqn:E; simpl.
  - apply (IH (Z.to_nat ((low + high) / 2 - 1 - low + 1))); try lia.
    intros i [= <-]. exists b. split; [done|]. by apply Qge_bool_iff.
  - apply (IH (Z.to_nat (high - ((low + high) / 2 + 1) + 1))); try lia. done.
Qed.

Lemma find_best_fit_bin_capable (s : LogiMaster) (package_size : Q) :
  ∃ r, find_best_fit_bin package_size s = (Returned r, s) ∧
       ∀ i, r = Some i →
            ∃ b, bin_inventory s !! i = Some b ∧
                 (package_size <= capacity b)%Q ∧
                 Qge_bool (get_remaining_capacity b) package_size = true.
Proof.
  unfold find_best_fit_bin. unfold_M.
  destruct (find_best_fit_bin_loop_capable (bin_inventory s) package_size 0
              (Z.of_nat (length (bin_inventory s)) - 1) None)
    as (r & -> & Hr); try lia; [done|].
  destruct r as [i|]; [|by exists None].
  destruct (Hr i eq_refl) as (b & Hb & Hcap).
  unfold bin_at. rewrite Hb.
  destruct (Qge_bool (get_remaining_capacity b) package_size) eqn:E.
  - exists (Some i). split; [done|]. intros ? [= <-]. by exists b.
  - by exists None.
Qed.

Lemma process_next_package_no_bin (db : commit_answer) (s : LogiMaster)
    (package : Package) (queue' : list Package) :
  conveyor_queue s = package :: queue' →
  fst (find_best_fit_bin (size package) s) = Returned None →
  process_next_package db s = (Returned tt, set_conveyor_queue queue' s).
Proof.
  intros Hq Hfind. rewrite find_best_fit_bin_frame in Hfind. simpl in Hfind.
  by rewrite (process_next_package_run _ _ _ _ Hq), Hfind.
Qed.

Lemma process_next_package_small_bins (db : commit_answer) (s : LogiMaster)
    (package : Package) (queue' : list Package) :
  conveyor_queue s = package :: queue' →
  (∀ b, b ∈ bin_inventory s → (capacity b < size package)%Q) →
  process_next_package db s = (Returned tt, set_conveyor_queue queue' s).
Proof.
  intros Hq Hsmall. apply (process_next_package_no_bin db s package); [done|].
  destruct (find_best_fit_bin_capable s (size package)) as (r & -> & Hr).
  simpl. destruct r as [i|]; [|done]. exfalso.
  destruct (Hr i eq_refl) as (b & Hb & Hcap & _).
  specialize (Hsmall b ltac:(by eapply list_elem_of_lookup_2)). lra.
Qed.


(** ** The selector takes logarithmically many steps *)

Lemma find_best_fit_bin_loop_counted_fst bins package_size low high best :
  fst (find_best_fit_bin_loop_counted bins package_size low high best)
  = find_best_fit_bin_loop bins package_size low high best.
Proof.
  remember (Z.to_nat (high - low + 1)) as n eqn:Hn.
  revert low high best Hn.
  induction (lt_wf n) as [n _ IH]. intros low high best ->.
  rewrite find_best_fit_bin_loop_counted_equation_1,
    find_best_fit_bin_loop_equation_1.
  destruct (Z_le_gt_dec low high) as [Hle|Hgt]; simpl; [|done].
  assert (Hmid : (low ≤ (low + high) / 2 ≤ high)%Z).
  { split; [apply Z.div_le_lower_bound | apply Z.div_le_upper_bound]; lia. }
  destruct (py_getitem bins ((low + high) / 2)) as [[mid b]|e]; simpl; [|done].
  destruct (Qge_bool (capacity b) package_size); simpl.
  - apply (IH (Z.to_nat ((low + high) / 2 - 1 - low + 1))); lia.
  - apply (IH (Z.to_nat (high - ((low + high) / 2 + 1) + 1))); lia.
Qed.

Lemma find_best_fit_bin_loop_counted_bound bins package_size low high best :
  (0 ≤ low)%Z → (low ≤ high)%Z →
  (2 ^ Z.of_nat
         (snd (find_best_fit_bin_loop_counted bins package_size low high best))
   ≤ 2 * (high - low + 1))%Z.
Proof.
  remember (Z.to_nat (high - low + 1)) as n eqn:Hn.
  revert low high best Hn.
  induction (lt_wf n) as [n _ IH]. intros low high best -> Hlow Hwin.
  rewrite find_best_fit_bin_loop_counted_equation_1.
  destruct (Z_le_gt_dec low high) as [Hle|Hgt]; simpl; [|lia].
  remember ((low + high) / 2)%Z as mid eqn:Emid.
  assert (Hmid : (2 * mid ≤ low + high < 2 * mid + 2)%Z).
  { subst mid. pose proof (Z.div_mod (low + high) 2 ltac:(lia)).
    pose proof (Z.mod_pos_bound (low + high) 2 ltac:(lia)). lia. }
  destruct (py_getitem bins mid) as [[m b]|e]; simpl; [|lia].
  destruct (Qge_bool (capacity b) package_size); simpl snd.
  - destruct (Z_le_gt_dec low (mid - 1)) as [Hl|Hl].
    + specialize (IH (Z.to_nat (mid - 1 - low + 1)) ltac:(lia)
                     low (mid - 1)%Z (Some m) eq_refl Hlow Hl).
      rewrite Nat2Z.inj_succ, Z.pow_succ_r by lia. rewrite <- ?Emid.
      set (X := (2 ^ _)%Z) in *. clearbody X. lia.
    + rewrite <- ?Emid. rewrite find_best_fit_bin_loop_counted_equation_1.
      destruct (Z_le_gt_dec low (mid - 1)); [lia|]. simpl. lia.
  - destruct (Z_le_gt_dec (mid + 1) high) as [Hl|Hl].
    + specialize (IH (Z.to_nat (high - (mid + 1) + 1)) ltac:(lia)
                     (mid + 1)%Z high best eq_refl ltac:(lia) Hl).
      rewrite Nat2Z.inj_succ, Z.pow_succ_r by lia. rewrite <- ?Emid.
      set (X := (2 ^ _)%Z) in *. clearbody X. lia.
    + rewrite <- ?Emid. rewrite find_best_fit_bin_loop_counted_equation_1.
      destruct (Z_le_gt_dec (mid + 1) high); [lia|]. simpl. lia.
Qed.

(** X4.  The loop of [find_best_fit_bin], counted: it computes what the
    loop computes, and on a catalog of [n] bins its body runs [k] times
    with [2^k <= 2n], that is at most [log2 n + 1] times; on the empty
    catalog it does not run at all. *)
Theorem find_best_fit_bin_logarithmic (bins : list StorageBin)
    (package_size : Q) :
  let run := find_best_fit_bin_loop_counted bins package_size
               0 (Z.of_nat (length bins) - 1) None in
  fst run = find_best_fit_bin_loop bins package_size
              0 (Z.of_nat (length bins) - 1) None ∧
  (bins = [] → snd run = 0%nat) ∧
  (bins ≠ [] → 2 ^ snd run ≤ 2 * length bins ∧
               snd run ≤ Nat.log2 (length bins) + 1).
Proof.
  cbv zeta. split; [apply find_best_fit_bin_loop_counted_fst|]. split.
  - intros ->. done.
  - intros Hne.
    assert (Hlen : (0 < length bins)%nat).
    { destruct bins; [done|simpl; lia]. }
    pose proof (find_best_fit_bin_loop_counted_bound bins package_size 0
                  (Z.of_nat (length bins) - 1) None ltac:(lia) ltac:(lia))
      as Hb.
    set (k := snd _) in *.
    assert (Hk : 2 ^ k ≤ 2 * length bins).
    { apply Nat2Z.inj_le. rewrite Nat2Z.inj_pow. lia. }
    split; [done|].
    destruct (Nat.log2_spec (length bins) Hlen) as [_ Hup].
    destruct (le_gt_dec k (Nat.log2 (length bins) + 1)) as [|Hgt]; [done|].
    exfalso.
    assert (2 ^ (S (S (Nat.log2 (length bins)))) ≤ 2 ^ k).
    { apply Nat.pow_le_mono_r; lia. }
    rewrite (Nat.pow_succ_r' 2 (S _)) in H. lia.
Qed.

(** ** Best fit, on an ascending catalog *)

(** X5.  On a catalog ascending by capacity: the bin the selector answers
    is a tightest one, no bin that could hold the package has a smaller
    capacity; and when every bin large enough for the package also has the
    free space for it, a package that some bin is large enough for is never
    turned away. *)
Theorem find_best_fit_bin_tightest (s : LogiMaster) (package_size : Q) :
  capacity_ascending (bin_inventory s) →
  (∀ i b, fst (find_best_fit_bin package_size s) = Returned (Some i) →
          bin_inventory s !! i = Some b →
          ∀ j b', bin_inventory s !! j = Some b' →
                  (package_size <= capacity b')%Q →
                  (capacity b <= capacity b')%Q) ∧
  ((∀ b, b ∈ bin_inventory s → (package_size <= capacity b)%Q →
         (package_size <= get_remaining_capacity b)%Q) →
   (∃ b, b ∈ bin_inventory s ∧ (package_size <= capacity b)%Q) →
   ∃ i, fst (find_best_fit_bin package_size s) = Returned (Some i)).
Proof.
  intros Hasc. rewrite find_best_fit_bin_run by done. simpl. split.
  - intros i b [= Hsel] Hb j b' Hb' Hcap.
    apply select_spec_Some in Hsel as (b0 & Hb0 & _ & Hleft & _).
    assert (b0 = b) as -> by congruence.
    destruct (le_lt_dec i j) as [Hij|Hji].
    + by apply (Hasc i j b b').
    + specialize (Hleft j b' Hji Hb'). lra.
  - intros Hroom (b & Hin & Hcap).
    destruct (select_spec (bin_inventory s) package_size) as [i|] eqn:E;
      [by exists i|]. exfalso.
    unfold select_spec, leftmost_capable in E.
    destruct (list_find _ (bin_inventory s)) as [[k bk]|] eqn:F.
    + apply list_find_Some in F as (Hk & Hcapk & _).
      apply Is_true_true, Qge_bool_iff in Hcapk.
      assert (Hfree : Qge_bool (get_remaining_capacity bk) package_size = true).
      { apply Qge_bool_iff, Hroom; [|done]. by eapply list_elem_of_lookup_2. }
      by rewrite Hfree in E.
    + apply list_find_None in F.
      apply (proj1 (Forall_forall _ _) F b Hin).
      by apply Is_true_true, Qge_bool_iff.
Qed.

Lemma find_best_fit_bin_tightest_witness :
  ∃ i, fst (find_best_fit_bin 11 seeded) = Returned (Some i).
Proof.
  destruct (find_best_fit_bin_tightest seeded 11) as [_ Hsome].
  - apply load_and_sort_bins_ascending.
  - apply Hsome.
    + intros b Hb Hcap. unfold seeded, LogiMaster_init in Hb. simpl in Hb.
      repeat (apply elem_of_cons in Hb as [->|Hb];
              [first [ vm_compute; discriminate
                     | exfalso; vm_compute in Hcap; by apply Hcap ]|]).
      by apply elem_of_nil in Hb.
    + exists (new_StorageBin 201 15 "A05S10" 0). split.
      * unfold seeded, LogiMaster_init. simpl. do 2 right. left.
      * vm_compute. discriminate.
Defined.

(** ** The queue *)

Lemma ingest_package_run package (s : LogiMaster) :
  ingest_package package s
  = (Returned tt, set_conveyor_queue (conveyor_queue s ++ [package]) s).
Proof. done. Qed.

Lemma process_next_package_queue (s : LogiMaster) :
  conveyor_queue (snd (process_next_package Committed s))
  = drop 1 (conveyor_queue s).
Proof.
  destruct (conveyor_queue s) as [|package queue'] eqn:Hq.
  - unfold process_next_package. unfold_M. by rewrite Hq.
  - rewrite (process_next_package_run _ _ _ _ Hq).
    destruct (best_fit_answer_returns (bin_inventory s) (size package))
      as (r & ->).
    by destruct r.
Qed.

Lemma run_ops_cons op ops (s : LogiMaster) :
  run_ops (op :: ops) s = run_ops ops (snd (run_op op s)).
Proof. done. Qed.

Lemma run_ops_app ops1 ops2 (s : LogiMaster) :
  run_ops (ops1 ++ ops2) s = run_ops ops2 (run_ops ops1 s).
Proof. apply foldl_app. Qed.

(** X6.  The queue is first in, first out.  Ingesting packages one after
    the other puts them behind what waits, in the order they came, and
    touches neither the catalog nor the stack.  Each
    [process_next_package] whose persistence succeeds takes exactly the
    front package off, whether a bin was found for it or not: [k] such
    calls leave the queue without its first [k] packages, and as many calls
    as there are packages leave it empty. *)
Theorem conveyor_queue_is_fifo (s : LogiMaster) (arrivals : list Package)
    (k : nat) :
  let ingested_all := run_ops (Ingest <$> arrivals) s in
  conveyor_queue ingested_all = conveyor_queue s ++ arrivals ∧
  bin_inventory ingested_all = bin_inventory s ∧
  loading_stack ingested_all = loading_stack s ∧
  conveyor_queue (run_ops (replicate k (ProcessNext Committed)) s)
    = drop k (conveyor_queue s) ∧
  conveyor_queue
    (run_ops (replicate (length (conveyor_queue s ++ arrivals))
                        (ProcessNext Committed)) ingested_all) = [].
Proof.
  assert (Hing : ∀ l s0,
    conveyor_queue (run_ops (Ingest <$> l) s0) = conveyor_queue s0 ++ l ∧
    bin_inventory (run_ops (Ingest <$> l) s0) = bin_inventory s0 ∧
    loading_stack (run_ops (Ingest <$> l) s0) = loading_stack s0).
  { induction l as [|p l IH]; intros s0.
    - simpl. by rewrite List.app_nil_r.
    - rewrite fmap_cons, run_ops_cons.
      destruct (IH (snd (run_op (Ingest p) s0))) as (Hq & Hb & Hs).
      rewrite Hq, Hb, Hs. simpl. by rewrite <- List.app_assoc. }
  assert (Hproc : ∀ n s0,
    conveyor_queue (run_ops (replicate n (ProcessNext Committed)) s0)
    = drop n (conveyor_queue s0)).
  { induction n as [|n IH]; intros s0; [done|].
    rewrite replicate_S, run_ops_cons, IH. simpl.
    rewrite process_next_package_queue, drop_drop. done. }
  cbv zeta. destruct (Hing arrivals s) as (Hq & Hb & Hs).
  repeat split; try done.
  rewrite Hproc, Hq. by apply drop_all.
Qed.

(** ** A package no bin is found for *)

(** X7.  When the selector finds no bin for the front package, the call
    takes the package off the queue and does nothing else: the package is
    not put back, whatever the database would have answered, and the
    catalog and the stack stay as they were.  This is the case whenever
    every bin of the catalog is smaller than the package. *)
Theorem unfit_package_is_dropped (db : commit_answer) (s : LogiMaster)
    (package : Package) (queue' : list Package) :
  conveyor_queue s = package :: queue' →
  (fst (find_best_fit_bin (size package) s) = Returned None →
   process_next_package db s = (Returned tt, set_conveyor_queue queue' s)) ∧
  ((∀ b, b ∈ bin_inventory s → (capacity b < size package)%Q) →
   process_next_package db s = (Returned tt, set_conveyor_queue queue' s)).
Proof.
  intros Hq. split.
  - by apply (process_next_package_no_bin db s package).
  - by apply (process_next_package_small_bins db s package).
Qed.

Lemma unfit_package_is_dropped_witness :
  process_next_package Committed
    (snd (ingest_package (new_Package "P100" 150 "10001" false) seeded))
  = (Returned tt, seeded).
Proof.
  destruct (unfit_package_is_dropped Committed
           (snd (ingest_package (new_Package "P100" 150 "10001" false) seeded))
           (new_Package "P100" 150 "10001" false) []) as [Hdrop _].
  - reflexivity.
  - apply Hdrop. reflexivity.
Defined.

(** ** What a call keeps of the catalog *)

Lemma process_next_package_identity db (s : LogiMaster) :
  bin_identity <$> bin_inventory (snd (process_next_package db s))
    = bin_identity <$> bin_inventory s ∧
  loading_stack (snd (process_next_package db s)) = loading_stack s.
Proof.
  destruct (conveyor_queue s) as [|package queue'] eqn:Hq.
  { unfold process_next_package. unfold_M. by rewrite Hq. }
  rewrite (process_next_package_run _ _ _ _ Hq).
  destruct (best_fit_answer (bin_inventory s) (size package)) as [[i|]|e];
    [|done|done].
  assert (Hocc : ∀ l : list StorageBin,
            bin_identity
              <$> alter (λ b, snd (occupy_space (size package) b)) i l
            = bin_identity <$> l).
  { intros l. rewrite (list_fmap_alter bin_identity _ id).
    - by apply list_alter_id.
    - apply Forall_forall. intros b _. unfold occupy_space.
      by destruct (Qge_bool _ _). }
  destruct db; simpl; [by rewrite Hocc|].
  split; [|done].
  rewrite (list_fmap_alter bin_identity _ id).
  - rewrite list_alter_id by done. apply Hocc.
  - by apply Forall_forall.
Qed.


(** ** Loading the catalog *)

(** X10.  Loading loses no bin and invents none: the catalog is a
    rearrangement of the rows, each converted with its id, capacity,
    location and occupancy, and it is ascending by capacity.  Rows that
    respect the data model (occupancy between 0 and capacity) give a
    controller that respects it.  When the query raises, the catalog is
    empty. *)
Theorem load_keeps_every_row (rows : list BinRow) (e : exn) :
  _load_and_sort_bins (Returned rows) ≡ₚ bin_of_row <$> rows ∧
  length (_load_and_sort_bins (Returned rows)) = length rows ∧
  capacity_ascending (_load_and_sort_bins (Returned rows)) ∧
  (Forall row_ok rows → controller_ok (LogiMaster_init (Returned rows))) ∧
  _load_and_sort_bins (Raised e) = [].
Proof.
  assert (Hperm : _load_and_sort_bins (Returned rows) ≡ₚ bin_of_row <$> rows).
  { apply stable_sort_Permutation. }
  split; [done|]. split.
  { by rewrite Hperm, length_fmap. }
  split; [apply load_and_sort_bins_ascending|]. split; [|done].
  intros Hrows. split; [|constructor]. simpl.
  rewrite Hperm. apply Forall_fmap. eapply Forall_impl; [exact Hrows|].
  intros r Hr. exact Hr.
Qed.

(** X11.  A controller that starts after a failed query has no bins, and
    a controller without bins assigns nothing: every
    [process_next_package] takes the front package off the queue and drops
    it, whatever its size and whatever the database answers, and the
    catalog stays empty. *)
Theorem empty_catalog_drops_everything (db : commit_answer) (s : LogiMaster)
    (e : exn) :
  bin_inventory s = [] →
  bin_inventory (LogiMaster_init (Raised e)) = [] ∧
  fst (process_next_package db s) = Returned tt ∧
  conveyor_queue (snd (process_next_package db s))
    = drop 1 (conveyor_queue s) ∧
  bin_inventory (snd (process_next_package db s)) = [] ∧
  loading_stack (snd (process_next_package db s)) = loading_stack s.
Proof.
  intros Hbins. split; [done|].
  destruct (conveyor_queue s) as [|package queue'] eqn:Hq.
  { unfold process_next_package. unfold_M. rewrite Hq. simpl.
    by rewrite Hq. }
  rewrite (process_next_package_small_bins db s package queue' Hq); [done|].
  intros b Hb. rewrite Hbins in Hb. by apply elem_of_nil in Hb.
Qed.

Lemma empty_catalog_drops_everything_witness :
  conveyor_queue
    (snd (process_next_package Committed
            (snd (ingest_package P001
                    (LogiMaster_init (Raised OperationalError)))))) = [].
Proof.
  destruct (empty_catalog_drops_everything Committed
              (snd (ingest_package P001
                      (LogiMaster_init (Raised OperationalError))))
              OperationalError) as (_ & _ & Hq & _).
  - reflexivity.
  - exact Hq.
Defined.

(** X12.  The catalog does not depend on the order in which the database
    hands over the rows, as long as no two different rows have the same
    capacity: two queries returning the same rows in different orders load
    the same catalog. *)
Theorem load_ignores_row_order (rows1 rows2 : list BinRow) :
  rows1 ≡ₚ rows2 →
  (∀ r1 r2, r1 ∈ rows1 → r2 ∈ rows1 →
            (row_max_capacity r1 == row_max_capacity r2)%Q → r1 = r2) →
  _load_and_sort_bins (Returned rows1) = _load_and_sort_bins (Returned rows2).
Proof.
  intros Hperm Hdistinct.
  apply (StronglySorted_unique_strong
           (λ x y : StorageBin, (capacity x <= capacity y)%Q)).
  - intros b1 b2 Hb1 Hb2 H12 H21.
    assert (Hin : ∀ b rows, b ∈ _load_and_sort_bins (Returned rows) →
                            ∃ r, b = bin_of_row r ∧ r ∈ rows).
    { intros b rows Hb. apply list_elem_of_fmap.
      unfold _load_and_sort_bins in Hb.
      by rewrite stable_sort_Permutation in Hb. }
    destruct (Hin b1 rows1 Hb1) as (r1 & -> & Hr1).
    destruct (Hin b2 rows2 Hb2) as (r2 & -> & Hr2).
    rewrite <- Hperm in Hr2.
    rewrite (Hdistinct r1 r2 Hr1 Hr2); [done|].
    simpl in H12, H21. lra.
  - apply load_and_sort_bins_sorted.
  - apply load_and_sort_bins_sorted.
  - unfold _load_and_sort_bins.
    rewrite !stable_sort_Permutation. by apply fmap_Permutation.
Qed.

Lemma load_ignores_row_order_witness :
  _load_and_sort_bins (Returned seed_bins)
  = _load_and_sort_bins (Returned (reverse seed_bins)).
Proof.
  apply (load_ignores_row_order seed_bins (reverse seed_bins)).
  - by rewrite reverse_Permutation.
  - intros r1 r2 Hr1 Hr2 Hcap. unfold seed_bins in Hr1, Hr2.
    repeat (apply elem_of_cons in Hr1 as [->|Hr1]);
      try (by apply elem_of_nil in Hr1);
      repeat (apply elem_of_cons in Hr2 as [->|Hr2]);
      try (by apply elem_of_nil in Hr2);
      first [reflexivity | (exfalso; vm_compute in Hcap; discriminate Hcap)].
Defined.

(** ** The optimizer: order of the load *)

Section SortDescending.
Context {A : Type} (psize : A → Q).
Local Open Scope Q_scope.

Local Abbreviation ge := (λ x y : A, psize y <= psize x).





End SortDescending.

Section SearchCalls.
Context {A : Type} (psize : A → Q) (T : Q).
Local Open Scope Q_scope.


(** When no candidate fits on top of the running sum, the loop does
    nothing. *)
Lemma for_range_nothing_fits bt cs l i st :
  Forall (λ p, T < cs + psize p) l → for_range psize T bt cs l i st = st.
Proof.
  intros Hl. revert i. induction Hl as [|p l Hp _ IH]; intros i; simpl.
  - done.
  - assert (Qle_bool (cs + psize p) T = false) as ->; [|apply IH].
    apply not_true_iff_false. rewrite Qle_bool_iff. lra.
Qed.

(** With a ceiling of 0, or when no candidate fits alone, the first call is
    the only one and nothing is selected. *)
Lemma run_search_nothing_fits packages :
  T == 0 ∨ Forall (λ p, T < psize p) packages →
  calls (run_search psize T packages) = [(0%nat, 0)] ∧
  best_load (run_search psize T packages) = [].
Proof.
  intros Hnone. unfold run_search. rewrite backtrack_unfold. cbv zeta.
  destruct (Qeq_bool 0 T) eqn:E; [done|].
  destruct Hnone as [H0|Hbig].
  { exfalso. apply not_true_iff_false in E. apply E.
    apply Qeq_bool_iff. lra. }
  rewrite for_range_nothing_fits.
  - simpl. by destruct (Qgt_bool 0 0).
  - unfold sorted_desc. rewrite stable_sort_Permutation.
    eapply Forall_impl; [exact Hbig|].
    intros p Hp. simpl in Hp. lra.
Qed.
End SearchCalls.


(** ** Shipments *)

Lemma set_loading_stack_nil (s : LogiMaster) :
  set_loading_stack (loading_stack s ++ []) s = s.
Proof. unfold set_loading_stack. rewrite List.app_nil_r. by destruct s. Qed.

Lemma loading_loop_cons (db : ShipmentDb) (package : Package)
    (load : list Package) (s : LogiMaster) :
  loading_loop db (package :: load) s
  = let s' := set_loading_stack (loading_stack s ++ [tracking_id package]) s in
    match one (filter (λ p, tracking_id p = tracking_id package)
                      (packages_table db)) with
    | Returned _ => loading_loop db load s'
    | Raised e => (Raised e, s')
    end.
Proof.
  unfold loading_loop. simpl. unfold _log_shipment. unfold_M.
  by destruct (one _).
Qed.

(** The loop pushes the tracking ids in the order of the load, and stops
    at the first package whose row is not found, after its push. *)
Lemma loading_loop_prefix (db : ShipmentDb) (load : list Package)
    (s : LogiMaster) :
  ∃ r pushed,
    loading_loop db load s
      = (r, set_loading_stack (loading_stack s ++ pushed) s) ∧
    pushed `prefix_of` tracking_id <$> load.
Proof.
  revert s. induction load as [|package load IH]; intros s.
  - exists (Returned tt), []. split; [|done].
    by rewrite set_loading_stack_nil.
  - rewrite loading_loop_cons. cbv zeta.
    destruct (one (filter (λ p, tracking_id p = tracking_id package)
                          (packages_table db))) as [row|e].
    + destruct (IH (set_loading_stack
                      (loading_stack s ++ [tracking_id package]) s))
        as (r & pushed & Hrun & Hpre).
      rewrite Hrun.
      exists r, (tracking_id package :: pushed). split.
      * unfold set_loading_stack. simpl. by rewrite <- List.app_assoc.
      * by apply prefix_cons.
    + exists (Raised e), [tracking_id package]. split; [done|].
      apply prefix_cons, prefix_nil.
Qed.

(** [prepare_shipment] in terms of its parts: whatever happens inside the
    [try], the call returns [None], and the controller is as the loop left
    it. *)
Lemma prepare_shipment_run (db : ShipmentDb) (truck_id : Z)
    (zip_code_filter : string) (s : LogiMaster) :
  prepare_shipment db truck_id zip_code_filter s
  = match one (filter (λ t, row_truck_id t = truck_id) (delivery_trucks db))
    with
    | Returned truck =>
        (Returned tt,
         snd (loading_loop db (planned_load db truck zip_code_filter) s))
    | Raised _ => (Returned tt, s)
    end.
Proof.
  unfold prepare_shipment, try_except.
  unfold mbind at 1, M_bind at 1, bind at 1, lift at 1.
  destruct (one (filter (λ t, row_truck_id t = truck_id) (delivery_trucks db)))
    as [truck|e]; [|done].
  cbv zeta. unfold planned_load.
  fold (shipment_candidates db zip_code_filter).
  set (candidates := shipment_candidates db zip_code_filter).
  set (optimal := find_optimal_shipment candidates _).
  assert (Hnil : candidates = [] → optimal = []).
  { intros Ec. subst optimal. rewrite Ec. apply find_optimal_shipment_nil. }
  clearbody optimal candidates.
  destruct candidates as [|c cs]; [by rewrite Hnil|].
  destruct optimal as [|o os] eqn:Eo; [done|].
  rewrite <- Eo. clear Eo Hnil.
  fold (loading_loop db optimal).
  unfold mbind at 1, M_bind at 1, bind at 1.
  destruct (loading_loop db optimal s) as [[[]|e] s']; simpl; [|done].
  by destruct (commit db).
Qed.


(** X19.  The early exits of [prepare_shipment] leave the controller as it
    was: no truck of the given id, several trucks of this id, no package
    stored in a bin for the ZIP, and no candidate that fits the truck
    alone. *)
Theorem prepare_shipment_early_exits (db : ShipmentDb) (truck_id : Z)
    (zip_code_filter : string) (s : LogiMaster) :
  let found := filter (λ t, row_truck_id t = truck_id) (delivery_trucks db) in
  let unchanged :=
    prepare_shipment db truck_id zip_code_filter s = (Returned tt, s) in
  ((∀ t, t ∈ delivery_trucks db → row_truck_id t ≠ truck_id) → unchanged) ∧
  ((1 < length found)%nat → unchanged) ∧
  ((∀ p, p ∈ packages_table db →
         current_bin_id p = None ∨ destination p ≠ zip_code_filter) →
   unchanged) ∧
  (∀ truck, found = [truck] →
     Forall (λ p, (row_truck_max_capacity truck < size p)%Q)
            (shipment_candidates db zip_code_filter) →
     unchanged).
Proof.
  cbv zeta. rewrite prepare_shipment_run.
  assert (Hempty : ∀ truck,
    planned_load db truck zip_code_filter = [] →
    snd (loading_loop db (planned_load db truck zip_code_filter) s) = s).
  { by intros truck ->. }
  split; [|split; [|split]].
  - intros Hno.
    assert (filter (λ t, row_truck_id t = truck_id) (delivery_trucks db) = [])
      as ->; [|done].
    induction (delivery_trucks db) as [|t l IH]; [done|].
    rewrite filter_cons_False.
    + apply IH. intros t' Ht'. apply Hno. by right.
    + apply Hno. by left.
  - intros Hmany.
    destruct (filter (λ t, row_truck_id t = truck_id) (delivery_trucks db))
      as [|t1 [|t2 l]]; simpl in *; [lia|lia|done].
  - intros Hnone.
    destruct (one _) as [truck|e]; [|done]. rewrite Hempty; [done|].
    unfold planned_load.
    assert (shipment_candidates db zip_code_filter = []) as ->;
      [|apply find_optimal_shipment_nil].
    unfold shipment_candidates.
    induction (packages_table db) as [|p l IH]; [done|].
    rewrite filter_cons_False.
    + apply IH. intros p' Hp'. apply Hnone. by right.
    + intros [Hbin Hzip]. destruct (Hnone p ltac:(by left)); done.
  - intros truck -> Hbig. simpl. rewrite Hempty; [done|].
    destruct (run_search_nothing_fits size (row_truck_max_capacity truck)
                (shipment_candidates db zip_code_filter)) as [_ Hnil];
      [by right|done].
Qed.

Lemma prepare_shipment_early_exits_witness :
  prepare_shipment failing_db 7 "40004" seeded = (Returned tt, seeded) ∧
  prepare_shipment failing_db 1 "99999" seeded = (Returned tt, seeded).
Proof.
  destruct (prepare_shipment_early_exits failing_db 7 "40004" seeded)
    as (Hno & _).
  destruct (prepare_shipment_early_exits failing_db 1 "99999" seeded)
    as (_ & _ & Hzip & _).
  split.
  - apply Hno. intros t Ht.
    repeat (apply elem_of_cons in Ht as [->|Ht]); try done.
    by apply elem_of_nil in Ht.
  - apply Hzip. intros p Hp. right.
    repeat (apply elem_of_cons in Hp as [->|Hp]); try done.
    by apply elem_of_nil in Hp.
Defined.

(** ** Any sequence of calls *)

Lemma process_next_package_queue_suffix (db : commit_answer) (s : LogiMaster) :
  conveyor_queue (snd (process_next_package db s))
    `suffix_of` conveyor_queue s.
Proof.
  destruct (conveyor_queue s) as [|package queue'] eqn:Hq.
  { unfold process_next_package. unfold_M. rewrite Hq. simpl. by rewrite Hq. }
  rewrite (process_next_package_run _ _ _ _ Hq).
  destruct (best_fit_answer (bin_inventory s) (size package)) as [[i|]|e];
    simpl; try by apply suffix_cons_r.
  destruct db; simpl; [by apply suffix_cons_r|done].
Qed.

Lemma prepare_shipment_frame (db : ShipmentDb) (truck_id : Z)
    (zip_code_filter : string) (s : LogiMaster) :
  let s' := snd (prepare_shipment db truck_id zip_code_filter s) in
  bin_inventory s' = bin_inventory s ∧
  conveyor_queue s' = conveyor_queue s ∧
  loading_stack s `prefix_of` loading_stack s'.
Proof.
  cbv zeta. rewrite prepare_shipment_run.
  destruct (one (filter (λ t, row_truck_id t = truck_id) (delivery_trucks db)))
    as [truck|e]; [|done].
  destruct (loading_loop_prefix db (planned_load db truck zip_code_filter) s)
    as (r & pushed & -> & _).
  simpl. repeat split. by apply prefix_app_r.
Qed.

Lemma ingested_cons op ops : ingested (op :: ops) = ingested [op] ++ ingested ops.
Proof. by destruct op. Qed.

(** What one call keeps. *)
Lemma run_op_keeps (op : controller_op) (s : LogiMaster) :
  let s' := snd (run_op op s) in
  bin_identity <$> bin_inventory s' = bin_identity <$> bin_inventory s ∧
  conveyor_queue s' `suffix_of` conveyor_queue s ++ ingested [op] ∧
  loading_stack s `prefix_of` loading_stack s'.
Proof.
  destruct op as [package|db|db truck_id zip]; cbv zeta; unfold run_op.
  - rewrite ingest_package_run.
    change (ingested [Ingest package]) with [package]. simpl.
    split; [done|]. by split.
  - destruct (process_next_package_identity db s) as [Hid ->].
    change (ingested [ProcessNext db]) with (@nil Package).
    rewrite List.app_nil_r.
    split; [done|]. split; [apply process_next_package_queue_suffix|done].
  - destruct (prepare_shipment_frame db truck_id zip s) as (Hb & Hq & Hs).
    cbv zeta in Hb, Hq, Hs.
    change (ingested [PrepareShipment db truck_id zip]) with (@nil Package).
    rewrite Hb, Hq, List.app_nil_r.
    split; [done|]. by split.
Qed.

Lemma run_ops_keeps (ops : list controller_op) (s : LogiMaster) :
  let s' := run_ops ops s in
  bin_identity <$> bin_inventory s' = bin_identity <$> bin_inventory s ∧
  conveyor_queue s' `suffix_of` conveyor_queue s ++ ingested ops ∧
  loading_stack s `prefix_of` loading_stack s'.
Proof.
  cbv zeta. revert s. induction ops as [|op ops IH]; intros s.
  { simpl. rewrite List.app_nil_r. done. }
  rewrite run_ops_cons, ingested_cons.
  destruct (run_op_keeps op s) as (Hid1 & Hq1 & Hs1).
  destruct (IH (snd (run_op op s))) as (Hid2 & Hq2 & Hs2).
  cbv zeta in Hid1, Hq1, Hs1.
  split; [congruence|]. split.
  - etrans; [exact Hq2|]. rewrite List.app_assoc. by apply suffix_app.
  - by etrans.
Qed.

(** X20.  Any sequence of [ingest_package], [process_next_package] and
    [prepare_shipment] calls, with any answers of the database, keeps the
    bins of the catalog and their order, takes packages off the queue only
    from the front (what waits at the end is an end piece of what waited at
    the start followed by what was ingested), and never takes anything off
    the loading stack or changes what it holds: a tracking id pushed by a
    shipment stays, also when that shipment was not committed. *)
Theorem run_ops_keeps_structure (ops : list controller_op) (s : LogiMaster) :
  let s' := run_ops ops s in
  bin_identity <$> bin_inventory s' = bin_identity <$> bin_inventory s ∧
  length (bin_inventory s') = length (bin_inventory s) ∧
  conveyor_queue s' `suffix_of` conveyor_queue s ++ ingested ops ∧
  loading_stack s `prefix_of` loading_stack s'.
Proof.
  cbv zeta. destruct (run_ops_keeps ops s) as (Hid & Hq & Hs).
  cbv zeta in Hid, Hq, Hs. repeat split; try done.
  apply (f_equal length) in Hid. by rewrite !length_fmap in Hid.
Qed.





(** * Doubles *)

(** ** How doubles compare *)

Lemma SFcompare_key x y :
  SFcompare x y
  = match sf_key x, sf_key y with
    | Some a, Some b => Some (key_compare a b)
    | _, _ => None
    end.
Proof.
  destruct x as [[]|[]| |[] mx ex], y as [[]|[]| |[] my ey]; simpl;
    try reflexivity.
  rewrite Z.compare_opp, (Z.compare_antisym ex ey).
  by destruct (ex ?= ey)%Z.
Qed.

Lemma key_compare_le a b :
  match key_compare a b with Lt | Eq => True | Gt => False end ↔ key_le a b.
Proof.
  destruct a as [[c1 e1] m1], b as [[c2 e2] m2]. simpl.
  destruct (Z.compare_spec c1 c2) as [Ec|Ec|Ec],
    (Z.compare_spec e1 e2) as [Ee|Ee|Ee],
    (Z.compare_spec m1 m2) as [Em|Em|Em]; simpl; lia.
Qed.

Lemma key_compare_lt a b : key_compare a b = Lt ↔ key_lt a b.
Proof.
  destruct a as [[c1 e1] m1], b as [[c2 e2] m2]. simpl.
  destruct (Z.compare_spec c1 c2) as [Ec|Ec|Ec],
    (Z.compare_spec e1 e2) as [Ee|Ee|Ee],
    (Z.compare_spec m1 m2) as [Em|Em|Em]; simpl;
    (split; [intros Hc; first [discriminate Hc | lia] | intros Hk; first [reflexivity | lia]]).
Qed.

Lemma key_compare_eq a b : key_compare a b = Eq ↔ a = b.
Proof.
  destruct a as [[c1 e1] m1], b as [[c2 e2] m2]. simpl.
  destruct (Z.compare_spec c1 c2) as [Ec|Ec|Ec],
    (Z.compare_spec e1 e2) as [Ee|Ee|Ee],
    (Z.compare_spec m1 m2) as [Em|Em|Em]; simpl;
    (split; [intros Hc; first [discriminate Hc | by subst]
            | intros Hk; first [reflexivity | injection Hk; lia]]).
Qed.

Lemma leb_iff (a b : float) :
  (a <=? b)%float = true
  ↔ ∃ ka kb, fkey a = Some ka ∧ fkey b = Some kb ∧ key_le ka kb.
Proof.
  rewrite FloatAxioms.leb_spec. unfold SFleb, fkey. rewrite SFcompare_key.
  destruct (sf_key (Prim2SF a)) as [ka|], (sf_key (Prim2SF b)) as [kb|];
    try (split; [discriminate|intros (? & ? & ? & ? & ?); discriminate]).
  pose proof (key_compare_le ka kb) as H.
  destruct (key_compare ka kb); split.
  all: try (intros _; exists ka, kb; split; [done|split; [done|by apply H]]).
  all: try done.
  intros (? & ? & [= <-] & [= <-] & Hle). by apply H in Hle.
Qed.

Lemma ltb_iff (a b : float) :
  (a <? b)%float = true
  ↔ ∃ ka kb, fkey a = Some ka ∧ fkey b = Some kb ∧ key_lt ka kb.
Proof.
  rewrite FloatAxioms.ltb_spec. unfold SFltb, fkey. rewrite SFcompare_key.
  destruct (sf_key (Prim2SF a)) as [ka|], (sf_key (Prim2SF b)) as [kb|];
    try (split; [discriminate|intros (? & ? & ? & ? & ?); discriminate]).
  pose proof (key_compare_lt ka kb) as H.
  destruct (key_compare ka kb); split.
  all: try (intros _; exists ka, kb; split; [done|split; [done|by apply H]]).
  all: try done.
  all: intros (? & ? & [= <-] & [= <-] & Hlt); apply H in Hlt; discriminate.
Qed.

Lemma eqb_iff (a b : float) :
  (a =? b)%float = true ↔ ∃ k, fkey a = Some k ∧ fkey b = Some k.
Proof.
  rewrite FloatAxioms.eqb_spec. unfold SFeqb, fkey. rewrite SFcompare_key.
  destruct (sf_key (Prim2SF a)) as [ka|], (sf_key (Prim2SF b)) as [kb|];
    try (split; [discriminate|intros (? & ? & ?); discriminate]).
  pose proof (key_compare_eq ka kb) as H.
  destruct (key_compare ka kb); split.
  all: try done.
  - intros _. exists ka. split; [done|]. f_equal. symmetry. by apply H.
  - intros (k & [= <-] & [= <-]). by assert (Lt = Eq) by by apply H.
  - intros (k & [= <-] & [= <-]). by assert (Gt = Eq) by by apply H.
Qed.

Lemma is_num_key (a : float) : is_num a ↔ ∃ k, fkey a = Some k.
Proof.
  unfold is_num. rewrite eqb_iff. split.
  - intros (k & H & _). by exists k.
  - intros (k & H). by exists k.
Qed.

Ltac float_keys :=
  repeat match goal with
  | H : (_ <=? _)%float = true |- _ =>
      apply leb_iff in H as (? & ? & ? & ? & H)
  | H : (_ <? _)%float = true |- _ =>
      apply ltb_iff in H as (? & ? & ? & ? & H)
  | H : (_ =? _)%float = true |- _ =>
      apply eqb_iff in H as (? & ? & ?)
  | H : is_num _ |- _ => apply is_num_key in H as (? & H)
  end;
  repeat match goal with
  | H1 : fkey ?a = Some ?k1, H2 : fkey ?a = Some ?k2 |- _ =>
      rewrite H1 in H2; injection H2 as <-
  end.

Ltac key_lia :=
  repeat match goal with
  | k : (Z * Z * Z)%type |- _ => destruct k as [[? ?] ?]
  end;
  unfold key_le, key_lt in *; simpl in *; lia.

Lemma fle_is_num a b : (a <=? b)%float = true → is_num a ∧ is_num b.
Proof.
  intros H. float_keys. split; apply is_num_key; eauto.
Qed.

Lemma flt_is_num a b : (a <? b)%float = true → is_num a ∧ is_num b.
Proof.
  intros H. float_keys. split; apply is_num_key; eauto.
Qed.

Lemma feq_is_num a b : (a =? b)%float = true → is_num a ∧ is_num b.
Proof.
  intros H. float_keys. split; apply is_num_key; eauto.
Qed.

Lemma fle_refl a : is_num a → (a <=? a)%float = true.
Proof.
  intros H. float_keys. apply leb_iff. eexists _, _.
  split; [done|split; [done|]]. key_lia.
Qed.

Lemma fle_trans a b c :
  (a <=? b)%float = true → (b <=? c)%float = true → (a <=? c)%float = true.
Proof.
  intros H1 H2. float_keys. apply leb_iff. eexists _, _.
  split; [done|split; [done|]]. key_lia.
Qed.

Lemma flt_fle a b : (a <? b)%float = true → (a <=? b)%float = true.
Proof.
  intros H. float_keys. apply leb_iff. eexists _, _.
  split; [done|split; [done|]]. key_lia.
Qed.

Lemma feq_fle a b :
  (a =? b)%float = true → (a <=? b)%float = true ∧ (b <=? a)%float = true.
Proof.
  intros H. float_keys.
  split; apply leb_iff; eexists _, _; (split; [done|split; [done|]]); key_lia.
Qed.

Lemma fle_antisym a b :
  (a <=? b)%float = true → (b <=? a)%float = true → (a =? b)%float = true.
Proof.
  intros H1 H2. float_keys. apply eqb_iff.
  match goal with
  | Ha : fkey a = Some ?ka, Hb : fkey b = Some ?kb |- _ =>
      assert (ka = kb) as ->; [|by exists kb]
  end.
  repeat match goal with
  | k : (Z * Z * Z)%type |- _ => destruct k as [[? ?] ?]
  end.
  unfold key_le in *. do 2 f_equal; lia.
Qed.

Lemma fle_total a b :
  is_num a → is_num b → (a <? b)%float = false → (b <=? a)%float = true.
Proof.
  intros Ha Hb Hlt. float_keys. apply leb_iff. eexists _, _.
  split; [done|split; [done|]].
  apply not_true_iff_false in Hlt. rewrite ltb_iff in Hlt.
  match goal with
  | Ha : fkey a = Some ?ka, Hb : fkey b = Some ?kb |- _ =>
      assert (¬ key_lt ka kb) by (intros ?; apply Hlt; by exists ka, kb)
  end.
  clear Hlt. key_lia.
Qed.

Lemma fle_not_flt a b : (a <=? b)%float = true → (b <? a)%float = false.
Proof.
  intros H. apply not_true_iff_false. intros Hlt. float_keys. key_lia.
Qed.

Lemma flt_not_fle a b : (a <? b)%float = true → (b <=? a)%float = false.
Proof.
  intros H. apply not_true_iff_false. intros Hle. float_keys. key_lia.
Qed.

Lemma flt_fle_trans a b c :
  (a <? b)%float = true → (b <=? c)%float = true → (a <? c)%float = true.
Proof.
  intros H1 H2. float_keys. apply ltb_iff. eexists _, _.
  split; [done|split; [done|]]. key_lia.
Qed.

Lemma fle_flt_trans a b c :
  (a <=? b)%float = true → (b <? c)%float = true → (a <? c)%float = true.
Proof.
  intros H1 H2. float_keys. apply ltb_iff. eexists _, _.
  split; [done|split; [done|]]. key_lia.
Qed.

(** The comparisons see a double through its key only. *)
Lemma leb_fkey a a' b b' :
  fkey a = fkey a' → fkey b = fkey b' → (a <=? b)%float = (a' <=? b')%float.
Proof.
  intros Ha Hb. apply eq_true_iff_eq. rewrite !leb_iff, Ha, Hb. done.
Qed.

Lemma ltb_fkey a a' b b' :
  fkey a = fkey a' → fkey b = fkey b' → (a <? b)%float = (a' <? b')%float.
Proof.
  intros Ha Hb. apply eq_true_iff_eq. rewrite !ltb_iff, Ha, Hb. done.
Qed.

Lemma eqb_fkey a a' b b' :
  fkey a = fkey a' → fkey b = fkey b' → (a =? b)%float = (a' =? b')%float.
Proof.
  intros Ha Hb. apply eq_true_iff_eq. rewrite !eqb_iff, Ha, Hb. done.
Qed.

Lemma feq_fkey a b : (a =? b)%float = true → fkey a = fkey b.
Proof. intros H. float_keys. congruence. Qed.

(** [0.0 + x] compares as [x]. *)
Lemma fkey_add_zero x : fkey (0 + x)%float = fkey x.
Proof.
  unfold fkey. rewrite add_spec.
  change (Prim2SF 0) with (S754_zero false).
  by destruct (Prim2SF x) as [[]|[]| |[] m e].
Qed.

(** ** The search within the recursion limit *)

Section DoubleSearch.
Variable T : float.
Local Open Scope float_scope.

Local Abbreviation bt_unbounded := (Double.backtrack_unbounded T).

Lemma backtrack_unbounded_unfold rest index cs st :
  bt_unbounded rest index cs st =
  let st := Double.log_call index cs st in
  if cs =? T then Double.record_best cs st
  else Double.for_range_unbounded T bt_unbounded cs rest index
         (if Double.best_size st <? cs then Double.record_best cs st else st).
Proof. by destruct rest. Qed.

Lemma backtrack_limited_unfold limit depth rest index cs st :
  Double.backtrack T limit depth rest index cs st =
  if (limit <? depth)%nat then Raised RecursionError
  else
    let st := Double.log_call index cs st in
    if cs =? T then Returned (Double.record_best cs st)
    else Double.for_range T (Double.backtrack T limit (S depth)) cs rest index
           (if Double.best_size st <? cs then Double.record_best cs st
            else st).
Proof. by destruct rest. Qed.

Lemma for_range_within_limit bt bt' cs l :
  (∀ tl index cs st, (length tl < length l)%nat →
     bt tl index cs st = Returned (bt' tl index cs st)) →
  ∀ i st,
    Double.for_range T bt cs l i st
    = Returned (Double.for_range_unbounded T bt' cs l i st).
Proof.
  induction l as [|p tl IH]; intros Hbt i st; simpl; [done|].
  destruct (cs + Double.size p <=? T).
  - rewrite Hbt by (simpl; lia).
    apply IH. intros tl' ? ? ? Hlt. apply Hbt. simpl. lia.
  - apply IH. intros tl' ? ? ? Hlt. apply Hbt. simpl. lia.
Qed.

(** As long as the nesting allowed exceeds the number of candidates left,
    no call raises. *)
Lemma backtrack_within_limit limit depth rest index cs st :
  (depth + length rest ≤ limit)%nat →
  Double.backtrack T limit depth rest index cs st
  = Returned (bt_unbounded rest index cs st).
Proof.
  remember (length rest) as n eqn:Hn. revert rest Hn depth index cs st.
  induction (lt_wf n) as [n _ IH]. intros rest -> depth index cs st Hlim.
  rewrite backtrack_limited_unfold, backtrack_unbounded_unfold. cbv zeta.
  assert ((limit <? depth)%nat = false) as -> by (apply Nat.ltb_ge; lia).
  destruct (cs =? T); [done|].
  apply for_range_within_limit. intros tl index' cs' st' Hlt.
  apply (IH (length tl) Hlt tl eq_refl). lia.
Qed.

Lemma sorted_desc_Permutation packages :
  Double.sorted_desc packages ≡ₚ packages.
Proof. apply stable_sort_Permutation. Qed.

Lemma run_search_within_limit limit packages :
  (length packages < limit)%nat →
  Double.run_search T limit packages
  = Returned (Double.run_search_unbounded T packages).
Proof.
  intros Hlim. apply backtrack_within_limit.
  rewrite sorted_desc_Permutation. lia.
Qed.

(** ** Running totals *)

Lemma fsum_from_app c l k :
  Double.fsum_from c (l ++ k) = Double.fsum_from (Double.fsum_from c l) k.
Proof. apply foldl_app. Qed.

Lemma fits_from_app c l k :
  Double.fits_from T c (l ++ k)
  ↔ Double.fits_from T c l ∧ Double.fits_from T (Double.fsum_from c l) k.
Proof.
  revert c. induction l as [|p l IH]; intros c; simpl; [tauto|].
  rewrite IH. tauto.
Qed.

(** A selection that fits has a total at most the ceiling, unless it is
    empty. *)
Lemma fits_from_total c l :
  Double.fits_from T c l → l ≠ [] → (Double.fsum_from c l <=? T) = true.
Proof.
  revert c. induction l as [|p l IH]; intros c Hfit Hne; [done|].
  destruct Hfit as [Hp Hfit]. simpl.
  destruct l as [|q l]; [done|]. by apply IH.
Qed.

(** ** What the search records *)

Lemma for_range_ok sorted cs l :
  (∀ tl, (length tl < length l)%nat →
         Double.call_ok T sorted bt_unbounded tl) →
  ∀ i st,
    Double.current_load st ++ l `sublist_of` sorted →
    cs = Double.fsum (Double.current_load st) →
    Double.fits_from T 0 (Double.current_load st) →
    Double.best_ok T sorted st →
    let st' := Double.for_range_unbounded T bt_unbounded cs l i st in
    Double.current_load st' = Double.current_load st ∧
    Double.best_ok T sorted st' ∧
    (Double.best_size st <=? Double.best_size st') = true ∧
    (∀ S, S `sublist_of` l → S ≠ [] → Double.fits_from T cs S →
          (Double.fsum_from cs S <=? Double.best_size st') = true) ∧
    ∃ new, Double.calls st' = Double.calls st ++ new.
Proof.
  induction l as [|p tl IH]; intros Hbt i st Hsub Hcs Hfit Hok; simpl.
  { pose proof Hok as (? & ? & ? & Hb & ?).
    apply fle_is_num in Hb as [Hb _].
    split; [done|]. split; [done|]. split; [by apply fle_refl|]. split.
    - intros S HS%sublist_nil_r. done.
    - exists []. by rewrite List.app_nil_r. }
  assert (Hsub' : Double.current_load st ++ tl `sublist_of` sorted).
  { etrans; [|exact Hsub]. apply sublist_app; [done|]. by apply sublist_cons. }
  set (st1 := if cs + Double.size p <=? T
              then Double.load_pop
                     (bt_unbounded tl (S i) (cs + Double.size p)
                        (Double.load_append p st))
              else st).
  assert (H1 : Double.current_load st1 = Double.current_load st ∧
               Double.best_ok T sorted st1 ∧
               (Double.best_size st <=? Double.best_size st1) = true ∧
               (∀ S, S `sublist_of` tl →
                     Double.fits_from T cs (p :: S) →
                     (Double.fsum_from cs (p :: S) <=? Double.best_size st1)
                     = true) ∧
               ∃ new, Double.calls st1 = Double.calls st ++ new).
  { subst st1. destruct (cs + Double.size p <=? T) eqn:E.
    - destruct (Hbt tl ltac:(simpl; lia) (S i) (cs + Double.size p)
                  (Double.load_append p st))
        as (Hc & Hb & Hm & Hopt & new & Hnew); simpl.
      + by rewrite <- List.app_assoc.
      + unfold Double.fsum. by rewrite fsum_from_app, Hcs.
      + apply fits_from_app. split; [done|]. simpl.
        unfold Double.fsum in Hcs. by rewrite <- Hcs.
      + done.
      + done.
      + simpl in *. rewrite Hc, removelast_last.
        split; [done|]. split; [done|]. split; [done|]. split.
        * intros S HS [_ HfitS]. by apply Hopt.
        * eexists. exact Hnew.
    - pose proof Hok as (? & ? & ? & Hb & ?).
      apply fle_is_num in Hb as [Hb _].
      split; [done|]. split; [done|]. split; [by apply fle_refl|]. split.
      + intros S HS [Hp _]. congruence.
      + exists []. by rewrite List.app_nil_r. }
  destruct H1 as (Hc1 & Hok1 & Hm1 & Hopt1 & new1 & Hlog1).
  destruct (IH (λ tl' Hlt, Hbt tl' ltac:(simpl; lia)) (S i) st1)
    as (Hc2 & Hok2 & Hm2 & Hopt2 & new2 & Hlog2); try done.
  { by rewrite Hc1. }
  { by rewrite Hc1. }
  { by rewrite Hc1. }
  fold st1. split; [congruence|]. split; [done|].
  split; [by eapply fle_trans|]. split.
  - intros S HS HSne HfitS.
    apply sublist_cons_r in HS as [HS|(S' & -> & HS)].
    + by apply Hopt2.
    + eapply fle_trans; [by apply Hopt1|done].
  - exists (new1 ++ new2). by rewrite Hlog2, Hlog1, List.app_assoc.
Qed.

Lemma backtrack_ok sorted rest : Double.call_ok T sorted bt_unbounded rest.
Proof.
  remember (length rest) as n eqn:Hn. revert rest Hn.
  induction (lt_wf n) as [n _ IH].
  intros rest -> index cs st Hsub Hcs Hfit HcsT Hok.
  rewrite backtrack_unbounded_unfold. cbv zeta.
  assert (Hcur : Double.current_load st `sublist_of` sorted).
  { etrans; [|exact Hsub]. by apply sublist_inserts_r. }
  destruct Hok as (Hb1 & Hb2 & Hb3 & Hb4 & Hb5).
  destruct (fle_is_num _ _ HcsT) as [Hnum HnumT].
  destruct (fle_is_num _ _ Hb4) as [Hnumb _].
  destruct (cs =? T) eqn:E.
  - destruct (feq_fle _ _ E) as [_ HTc].
    unfold Double.best_ok. simpl.
    split; [done|]. split; [|split; [by eapply fle_trans|split]].
    + split; [done|]. split; [done|]. split; [done|]. by split.
    + intros S HS HfitS. destruct S as [|q S]; [by apply fle_refl|].
      eapply fle_trans; [|exact HTc]. by apply fits_from_total.
    + by exists [].
  - set (st0 := Double.log_call index cs st).
    set (st1 := if Double.best_size st0 <? cs
                then Double.record_best cs st0 else st0).
    assert (Hexact : (∃ index' cs', (index', cs') ∈ Double.calls st0
                                    ∧ (cs' =? T) = true) →
                     (Double.best_size st =? T) = true).
    { intros (i' & c' & Hin & Hc'). apply Hb5. exists i', c'.
      split; [|done]. simpl in Hin. apply elem_of_app in Hin as [Hin|Hin];
        [done|]. apply list_elem_of_singleton in Hin as [= -> ->].
      congruence. }
    assert (H1 : Double.current_load st1 = Double.current_load st ∧
                 Double.best_ok T sorted st1 ∧
                 (Double.best_size st <=? Double.best_size st1) = true ∧
                 (cs <=? Double.best_size st1) = true ∧
                 Double.calls st1 = Double.calls st ++ [(index, cs)]).
    { subst st1 st0. simpl. destruct (Double.best_size st <? cs) eqn:G.
      - unfold Double.best_ok. simpl.
        split; [done|]. split; [|split; [by apply flt_fle|split;
          [by apply fle_refl|done]]].
        split; [done|]. split; [done|]. split; [done|]. split; [done|].
        intros Hex. apply Hexact in Hex.
        destruct (feq_fle _ _ Hex) as [_ HTb].
        pose proof (fle_not_flt _ _ (fle_trans _ _ _ HcsT HTb)). congruence.
      - unfold Double.best_ok. simpl.
        split; [done|]. split; [|split; [by apply fle_refl|split;
          [by apply fle_total|done]]].
        split; [done|]. split; [done|]. split; [done|]. by split. }
    destruct H1 as (Hc1 & Hok1 & Hm1 & Hge1 & Hlog1).
    destruct (for_range_ok sorted cs rest
                (λ tl Hlt, IH (length tl) Hlt tl eq_refl) index st1)
      as (Hc2 & Hok2 & Hm2 & Hopt2 & new2 & Hlog2); try done.
    { by rewrite Hc1. }
    { by rewrite Hc1. }
    { by rewrite Hc1. }
    split; [congruence|]. split; [done|].
    split; [by eapply fle_trans|]. split.
    + intros S HS HfitS. destruct S as [|x S].
      * simpl. by eapply fle_trans.
      * by apply Hopt2.
    + exists new2. by rewrite Hlog2, Hlog1, <- List.app_assoc.
Qed.
End DoubleSearch.

(** ** Rounding, as the specification of binary64 defines it *)

Section Rounding.
Local Open Scope Z_scope.

Lemma digits2_pos_bounds m :
  2 ^ (Zpos (digits2_pos m) - 1) <= Zpos m < 2 ^ Zpos (digits2_pos m).
Proof.
  induction m as [m IH|m IH|]; simpl digits2_pos.
  - rewrite Pos2Z.inj_succ, Z.pow_succ_r by lia.
    replace (Z.succ (Z.pos (digits2_pos m)) - 1)
      with (Z.succ (Z.pos (digits2_pos m) - 1)) by lia.
    rewrite Z.pow_succ_r by lia. lia.
  - rewrite Pos2Z.inj_succ, Z.pow_succ_r by lia.
    replace (Z.succ (Z.pos (digits2_pos m)) - 1)
      with (Z.succ (Z.pos (digits2_pos m) - 1)) by lia.
    rewrite Z.pow_succ_r by lia. lia.
  - simpl. lia.
Qed.

Lemma digits2_pos_lt m k : Zpos m < 2 ^ k → Zpos (digits2_pos m) <= k.
Proof.
  intros H. destruct (Z_le_gt_dec (Zpos (digits2_pos m)) k) as [|Hgt]; [done|].
  exfalso. pose proof (digits2_pos_bounds m) as [Hlo _].
  destruct (Z_lt_le_dec k 0) as [Hk|Hk].
  { rewrite Z.pow_neg_r in H by done. lia. }
  assert (2 ^ k <= 2 ^ (Zpos (digits2_pos m) - 1)).
  { apply Z.pow_le_mono_r; lia. }
  lia.
Qed.

Lemma digits2_pos_ge m k :
  0 <= k → 2 ^ k <= Zpos m → k + 1 <= Zpos (digits2_pos m).
Proof.
  intros Hk H. pose proof (digits2_pos_bounds m) as [_ Hhi].
  destruct (Z_le_gt_dec (k + 1) (Zpos (digits2_pos m))) as [|Hgt]; [done|].
  exfalso.
  assert (2 ^ Zpos (digits2_pos m) <= 2 ^ k).
  { apply Z.pow_le_mono_r; lia. }
  lia.
Qed.

Lemma digits2_pos_mono a b :
  Zpos a <= Zpos b → Zpos (digits2_pos a) <= Zpos (digits2_pos b).
Proof.
  intros H. apply digits2_pos_lt.
  pose proof (digits2_pos_bounds b). lia.
Qed.

Lemma iter_xO_value m d : Zpos (Pos.iter xO m d) = Zpos m * 2 ^ Zpos d.
Proof.
  induction d as [|d IH] using Pos.peano_ind.
  - simpl. lia.
  - rewrite Pos.iter_succ, Pos2Z.inj_succ, Z.pow_succ_r by lia.
    rewrite Pos2Z.inj_xO, IH. lia.
Qed.

Lemma iter_xO_digits m d :
  Zpos (digits2_pos (Pos.iter xO m d)) = Zpos (digits2_pos m) + Zpos d.
Proof.
  induction d as [|d IH] using Pos.peano_ind.
  - simpl. lia.
  - rewrite Pos.iter_succ. simpl digits2_pos.
    rewrite Pos2Z.inj_succ, IH. lia.
Qed.

Lemma shr_1_value mrs : 0 <= shr_m mrs → shr_m (shr_1 mrs) = shr_m mrs / 2.
Proof.
  destruct mrs as [m r s]. rewrite <- Z.div2_div.
  destruct m as [|[p|p|]|p]; simpl; intros H; try reflexivity; lia.
Qed.

Lemma shr_1_nonneg mrs : 0 <= shr_m mrs → 0 <= shr_m (shr_1 mrs).
Proof.
  destruct mrs as [m r s]. destruct m as [|[p|p|]|p]; simpl; lia.
Qed.

Lemma iter_pos_shr_1_value p mrs :
  0 <= shr_m mrs →
  0 <= shr_m (SpecFloat.iter_pos shr_1 p mrs) ∧
  shr_m (SpecFloat.iter_pos shr_1 p mrs) = shr_m mrs / 2 ^ Zpos p.
Proof.
  revert mrs. induction p as [p IH|p IH|]; intros mrs H;
    simpl SpecFloat.iter_pos.
  - destruct (IH (shr_1 mrs) (shr_1_nonneg _ H)) as [H1 E1].
    destruct (IH _ H1) as [H2 E2]. split; [done|].
    rewrite E2, E1, shr_1_value by done.
    assert (0 < 2 ^ Zpos p) by (apply Z.pow_pos_nonneg; lia).
    rewrite !Z.div_div by lia. f_equal.
    replace (Zpos p~1) with (1 + Zpos p + Zpos p) by lia.
    rewrite !Z.pow_add_r, Z.pow_1_r by lia. lia.
  - destruct (IH mrs H) as [H1 E1].
    destruct (IH _ H1) as [H2 E2]. split; [done|].
    rewrite E2, E1.
    assert (0 < 2 ^ Zpos p) by (apply Z.pow_pos_nonneg; lia).
    rewrite !Z.div_div by lia. f_equal.
    replace (Zpos p~0) with (Zpos p + Zpos p) by lia.
    rewrite !Z.pow_add_r by lia. lia.
  - split; [by apply shr_1_nonneg|]. rewrite shr_1_value by done.
    by rewrite Z.pow_1_r.
Qed.

(** What [shr_fexp] returns: the mantissa shifted right to the exponent
    the format asks for. *)
Lemma shr_fexp_value m e l :
  0 <= m →
  let n := Z.max (fexp prec emax (Zdigits2 m + e) - e) 0 in
  snd (shr_fexp prec emax m e l) = e + n ∧
  shr_m (fst (shr_fexp prec emax m e l)) = m / 2 ^ n.
Proof.
  intros H. cbv zeta. unfold shr_fexp, shr.
  assert (H0 : shr_m (shr_record_of_loc m l) = m) by by destruct l as [|[]].
  destruct (fexp prec emax (Zdigits2 m + e) - e) as [|p|p] eqn:E; simpl.
  - rewrite H0, Z.div_1_r. lia.
  - destruct (iter_pos_shr_1_value p (shr_record_of_loc m l)) as [_ Hv];
      [lia|].
    rewrite Hv, H0. split; [lia|]. f_equal.
  - rewrite H0, Z.div_1_r. lia.
Qed.

Lemma fexp_value z : fexp prec emax z = Z.max (z - 53) (-1074).
Proof. reflexivity. Qed.

Lemma shl_align_value m e e' :
  snd (shl_align m e e') = Z.min e e' ∧
  Zpos (fst (shl_align m e e')) = Zpos m * 2 ^ (e - snd (shl_align m e e')) ∧
  Zpos (digits2_pos (fst (shl_align m e e'))) + snd (shl_align m e e')
  = Zpos (digits2_pos m) + e.
Proof.
  unfold shl_align. destruct (e' - e) as [|d|d] eqn:E; simpl.
  - replace (e - e) with 0 by lia. simpl. lia.
  - replace (e - e) with 0 by lia. simpl. lia.
  - rewrite iter_xO_value, iter_xO_digits.
    replace (e - e') with (Zpos d) by lia. lia.
Qed.

Lemma round_nearest_even_bounds q l :
  q <= round_nearest_even q l <= q + 1.
Proof. destruct l as [|[]]; simpl; try lia. destruct (Z.even q); lia. Qed.

Lemma Zdigits2_le_prec m1 :
  0 <= m1 < 2 ^ 53 → Zdigits2 m1 <= 53.
Proof.
  intros [H0 H1]. destruct m1 as [|p|p]; simpl; [lia| |lia].
  by apply digits2_pos_lt.
Qed.

Lemma Zdigits2_mono a b : 0 <= a <= Zpos b → Zdigits2 a <= Zpos (digits2_pos b).
Proof.
  intros [H0 H1]. destruct a as [|p|p]; simpl; [lia| |lia].
  by apply digits2_pos_mono.
Qed.

(** Rounding a positive number below a double [x] gives a double that is
    not above [x]: zero, or a finite double of a smaller exponent, or of
    the exponent of [x] with a mantissa not larger. *)
Lemma binary_round_le (mx : positive) (ex : Z) (m : positive) (ez : Z) :
  fexp prec emax (Zpos (digits2_pos mx) + ex) = ex →
  ex <= emax - prec →
  ez <= ex →
  Zpos m < Zpos mx * 2 ^ (ex - ez) →
  match binary_round prec emax false m ez with
  | S754_zero _ => True
  | S754_finite false m' e' => e' < ex ∨ (e' = ex ∧ Zpos m' <= Zpos mx)
  | _ => False
  end.
Proof.
  intros Hcan Hex Hez Hlt. rewrite fexp_value in Hcan.
  change (emax - prec) with 971 in Hex.
  unfold binary_round.
  set (E := fexp prec emax (Zpos (digits2_pos m) + ez)).
  assert (HE : E = Z.max (Zpos (digits2_pos m) + ez - 53) (-1074))
    by apply fexp_value.
  destruct (shl_align_value m ez E) as (Hz1 & Hmz & Hdz).
  destruct (shl_align m ez E) as [mz ez1]. simpl in Hz1, Hmz, Hdz.
  (* the digits of [m] *)
  pose proof (digits2_pos_bounds mx) as [_ Hmxhi].
  pose proof (digits2_pos_bounds mx) as [Hmxlo _].
  assert (Hpow : 0 < 2 ^ (ex - ez)) by (apply Z.pow_pos_nonneg; lia).
  assert (HD : Zpos (digits2_pos m) + ez <= Zpos (digits2_pos mx) + ex).
  { assert (Zpos (digits2_pos m) <= Zpos (digits2_pos mx) + (ex - ez)); [|lia].
    apply digits2_pos_lt. rewrite Z.pow_add_r by lia. nia. }
  assert (HEex : E <= ex) by lia.
  assert (HEmin : -1074 <= E) by lia.
  (* the first shift *)
  unfold binary_round_aux. change (emax - prec) with 971.
  destruct (shr_fexp_value (Zpos mz) ez1 loc_Exact ltac:(lia)) as [He' Hq].
  cbv zeta in He', Hq. simpl Zdigits2 in He', Hq.
  rewrite Hdz in He', Hq. fold E in He', Hq.
  replace (Z.max (E - ez1) 0) with (E - ez1) in He', Hq by lia.
  destruct (shr_fexp prec emax (Zpos mz) ez1 loc_Exact) as [mrs' e'].
  simpl in He', Hq. assert (e' = E) as -> by lia. clear He'.
  set (q := shr_m mrs') in *.
  pose proof (round_nearest_even_bounds q (loc_of_shr_record mrs')) as Hm1.
  set (m1 := round_nearest_even q (loc_of_shr_record mrs')) in *.
  assert (Hpow1 : 0 < 2 ^ (E - ez1)) by (apply Z.pow_pos_nonneg; lia).
  assert (Hq0 : 0 <= q).
  { rewrite Hq. apply Z.div_pos; lia. }
  assert (Hq53 : q < 2 ^ 53).
  { rewrite Hq. apply Z.div_lt_upper_bound; [lia|].
    pose proof (digits2_pos_bounds mz) as [_ Hhi].
    assert (2 ^ Zpos (digits2_pos mz) <= 2 ^ (E - ez1 + 53)).
    { apply Z.pow_le_mono_r; lia. }
    rewrite Z.pow_add_r in H by lia. lia. }
  (* the second shift *)
  destruct (shr_fexp_value m1 E loc_Exact ltac:(lia)) as [He'' Hm''].
  cbv zeta in He'', Hm''. rewrite fexp_value in He'', Hm''.
  destruct (shr_fexp prec emax m1 E loc_Exact) as [mrs'' e''].
  simpl in He'', Hm''.
  destruct (Z.eq_dec E ex) as [HEq|HEne].
  - (* same exponent as [x]: the mantissa stays below *)
    assert (ez1 = ez) as -> by lia.
    assert (Zpos mz = Zpos m).
    { rewrite Hmz, Z.sub_diag, Z.pow_0_r. lia. }
    assert (Hqmx : q < Zpos mx).
    { rewrite Hq, H, HEq. apply Z.div_lt_upper_bound; lia. }
    assert (Hn2 : Z.max (Z.max (Zdigits2 m1 + E - 53) (-1074) - E) 0 = 0).
    { pose proof (Zdigits2_mono m1 mx ltac:(lia)). lia. }
    rewrite Hn2 in He'', Hm''. simpl in Hm''. rewrite Z.div_1_r in Hm''.
    rewrite Hm''. destruct m1 as [|p|p]; [done| |lia].
    assert ((e'' <=? 971) = true) as -> by (apply Z.leb_le; lia).
    right. lia.
  - assert (HElt : E < ex) by lia.
    destruct (Z.eq_dec m1 (2 ^ 53)) as [Hm1eq|Hm1ne].
    + (* the rounding carried into the next binade *)
      assert (Hd : Zdigits2 m1 = 54).
      { rewrite Hm1eq. reflexivity. }
      rewrite Hd in He'', Hm''.
      replace (Z.max (Z.max (54 + E - 53) (-1074) - E) 0) with 1
        in He'', Hm'' by lia.
      rewrite Hm'', Hm1eq.
      change (2 ^ 53 / 2 ^ 1) with (Zpos (2 ^ 52)%positive).
      assert ((e'' <=? 971) = true) as -> by (apply Z.leb_le; lia).
      destruct (Z.eq_dec e'' ex) as [He|He]; [right|left; lia].
      split; [done|].
      assert (Zpos (digits2_pos mx) = 53) as Hd53 by lia.
      rewrite Hd53 in Hmxlo. exact Hmxlo.
    + assert (Hn2 : Z.max (Z.max (Zdigits2 m1 + E - 53) (-1074) - E) 0 = 0).
      { pose proof (Zdigits2_le_prec m1 ltac:(lia)). lia. }
      rewrite Hn2 in He'', Hm''. simpl in Hm''. rewrite Z.div_1_r in Hm''.
      rewrite Hm''. destruct m1 as [|p|p]; [done| |lia].
      assert ((e'' <=? 971) = true) as -> by (apply Z.leb_le; lia).
      left. lia.
Qed.
End Rounding.

(** ** Signs of sums and differences of doubles *)

Lemma shr_fexp_nonneg m e l :
  (0 <= m)%Z → (0 <= shr_m (fst (shr_fexp prec emax m e l)))%Z.
Proof.
  intros H. unfold shr_fexp, shr.
  assert (H0 : (0 <= shr_m (shr_record_of_loc m l))%Z).
  { by destruct l as [|[]]. }
  destruct (fexp prec emax (Zdigits2 m + e) - e)%Z; simpl; try done.
  by apply iter_pos_shr_1_value.
Qed.

Lemma round_nearest_even_nonneg m l :
  (0 <= m)%Z → (0 <= round_nearest_even m l)%Z.
Proof.
  intros H. destruct l as [|[]]; simpl; try lia. destruct (Z.even m); lia.
Qed.

Lemma binary_round_aux_signed sx mx ex lx :
  (0 <= mx)%Z → sf_signed sx (binary_round_aux prec emax sx mx ex lx).
Proof.
  intros H. unfold binary_round_aux.
  pose proof (shr_fexp_nonneg mx ex lx H) as H1.
  destruct (shr_fexp prec emax mx ex lx) as [mrs' e']. simpl in H1.
  pose proof (shr_fexp_nonneg _ e' loc_Exact
                (round_nearest_even_nonneg _ (loc_of_shr_record mrs') H1))
    as H2.
  destruct (shr_fexp prec emax _ e' loc_Exact) as [mrs'' e'']. simpl in H2.
  destruct (shr_m mrs'') as [|m|m]; simpl; [done| |lia].
  by destruct (e'' <=? emax - prec)%Z.
Qed.

Lemma binary_round_signed sx m e :
  sf_signed sx (binary_round prec emax sx m e).
Proof.
  unfold binary_round. destruct (shl_align _ _ _) as [mz ez].
  by apply binary_round_aux_signed.
Qed.

Lemma sf_signed_key_nonneg r :
  sf_signed false r → ∃ k, sf_key r = Some k ∧ key_le (0, 0, 0)%Z k.
Proof.
  destruct r as [s|s| |s m e]; simpl; intros H; subst; try done;
    eexists; (split; [reflexivity|]); simpl; lia.
Qed.

Lemma sf_signed_key_nonpos r :
  sf_signed true r → ∃ k, sf_key r = Some k ∧ key_le k (0, 0, 0)%Z.
Proof.
  destruct r as [s|s| |s m e]; simpl; intros H; subst; try done;
    eexists; (split; [reflexivity|]); simpl; lia.
Qed.

Lemma fkey_zero : fkey 0%float = Some (0, 0, 0)%Z.
Proof. reflexivity. Qed.

Lemma leb_zero_iff x :
  (0 <=? x)%float = true ↔ ∃ k, fkey x = Some k ∧ key_le (0, 0, 0)%Z k.
Proof.
  rewrite leb_iff. split.
  - intros (? & k & [= <-] & ? & ?). by exists k.
  - intros (k & ? & ?). by exists (0, 0, 0)%Z, k.
Qed.

(** The sum of two doubles that are not negative is not negative; in
    particular it is a number. *)
Lemma add_nonneg x y :
  (0 <=? x)%float = true → (0 <=? y)%float = true →
  (0 <=? x + y)%float = true.
Proof.
  rewrite !leb_zero_iff. unfold fkey. rewrite add_spec.
  intros (kx & Hx & Hkx) (ky & Hy & Hky).
  destruct (Prim2SF x) as [sx|[]| |[] mx ex],
    (Prim2SF y) as [sy|[]| |[] my ey]; simpl in Hx, Hy;
    try discriminate Hx; try discriminate Hy;
    injection Hx as <-; injection Hy as <-; simpl in Hkx, Hky;
    try (exfalso; lia).
  - destruct sx, sy; eexists; (split; [reflexivity|]); simpl; lia.
  - by apply sf_signed_key_nonneg.
  - by apply sf_signed_key_nonneg.
  - by apply sf_signed_key_nonneg.
  - by apply sf_signed_key_nonneg.
  - by apply sf_signed_key_nonneg.
  - by apply sf_signed_key_nonneg.
  - by apply sf_signed_key_nonneg.
  - apply sf_signed_key_nonneg. simpl. apply binary_round_signed.
Qed.

Lemma valid_binary_finite s m e :
  valid_binary (S754_finite s m e) = true →
  fexp prec emax (Zpos (digits2_pos m) + e) = e ∧ (e <= emax - prec)%Z.
Proof.
  simpl. unfold bounded, canonical_mantissa.
  intros [H1 H2]%andb_prop. split; [by apply Z.eqb_eq|by apply Z.leb_le].
Qed.

(** Taking a double that is not negative away from a double that is not
    negative never gives more than there was: the difference is NaN (for
    two infinities) or at most the first double. *)
Lemma SFsub_le (X Y : spec_float) kx ky :
  valid_binary X = true →
  sf_key X = Some kx → key_le (0, 0, 0)%Z kx →
  sf_key Y = Some ky → key_le (0, 0, 0)%Z ky →
  SF64sub X Y = S754_nan ∨
  ∃ k, sf_key (SF64sub X Y) = Some k ∧ key_le k kx.
Proof.
  intros Hvalid Hx Hkx Hy Hky.
  destruct X as [sx|[]| |[] mx ex], Y as [sy|[]| |[] my ey];
    simpl in Hx, Hy; try discriminate Hx; try discriminate Hy;
    injection Hx as <-; injection Hy as <-; simpl in Hkx, Hky;
    try (exfalso; lia).
  - right. destruct sx, sy; eexists; (split; [reflexivity|]); simpl; lia.
  - right. eexists; (split; [reflexivity|]); simpl; lia.
  - right. eexists; (split; [reflexivity|]); simpl; lia.
  - right. eexists; (split; [reflexivity|]); simpl; lia.
  - by left.
  - right. eexists; (split; [reflexivity|]); simpl; lia.
  - right. eexists; (split; [reflexivity|]); simpl; lia.
  - right. eexists; (split; [reflexivity|]); simpl; lia.
  - right. unfold SF64sub, SFsub. cbv zeta. unfold cond_Zopp.
    destruct (valid_binary_finite _ _ _ Hvalid) as [Hcan Hex].
    destruct (shl_align_value mx ex (ex `min` ey)) as (Hs1 & Hv1 & _).
    destruct (shl_align mx ex (ex `min` ey)) as [MX e1].
    destruct (shl_align my ey (ex `min` ey)) as [MY e2].
    simpl in Hs1, Hv1 |- *.
    assert (e1 = (ex `min` ey)%Z) as -> by lia.
    destruct (Z.pos MX - Z.pos MY)%Z as [|m|m] eqn:Ed; simpl.
    + eexists; (split; [reflexivity|]); simpl; lia.
    + pose proof (binary_round_le mx ex m (ex `min` ey) Hcan Hex
                    ltac:(lia) ltac:(lia)) as Hr.
      destruct (binary_round prec emax false m (ex `min` ey))
        as [s|s| |[] m' e']; try done.
      * eexists; (split; [reflexivity|]); simpl; lia.
      * eexists; (split; [reflexivity|]); simpl; lia.
    + destruct (sf_signed_key_nonpos _
                  (binary_round_signed true m (ex `min` ey)))
        as (k & Hk & Hle).
      exists k. split; [done|]. destruct k as [[c e] mm]. simpl in *. lia.
Qed.

Lemma sub_le x y :
  (0 <=? x)%float = true → (0 <=? y)%float = true → is_num (x - y)%float →
  (x - y <=? x)%float = true.
Proof.
  rewrite !leb_zero_iff. intros (kx & Hx & Hkx) (ky & Hy & Hky) Hnum.
  apply is_num_key in Hnum as (k & Hk).
  apply leb_iff. exists k, kx. split; [done|]. split; [done|].
  unfold fkey in *. rewrite sub_spec in Hk.
  destruct (SFsub_le (Prim2SF x) (Prim2SF y) kx ky (Prim2SF_valid x)
              Hx Hkx Hy Hky) as [Hnan|(k' & Hk' & Hle)].
  - rewrite Hnan in Hk. discriminate Hk.
  - rewrite Hk' in Hk. by injection Hk as <-.
Qed.

(** ** Storage bins on doubles *)

Lemma py_max_zero_nonneg (d : float) :
  (0 <=? Double.py_max 0 d)%float = true.
Proof.
  unfold Double.py_max. destruct (0 <? d)%float eqn:E.
  - by apply flt_fle.
  - reflexivity.
Qed.

Lemma free_space_in_range_double (amount : float) (b : Double.StorageBin) :
  Double.occupancy_in_range b → (0 <=? amount)%float = true →
  Double.occupancy_in_range (Double.free_space amount b).
Proof.
  intros [H0 Hc] Ha. split; simpl; [apply py_max_zero_nonneg|].
  unfold Double.py_max.
  destruct (0 <? Double.occupancy b - amount)%float eqn:E.
  - eapply fle_trans; [|exact Hc]. apply sub_le; [done|done|].
    by apply flt_is_num in E as [_ ?].
  - exact (fle_trans _ _ _ H0 Hc).
Qed.

Lemma occupy_space_nonneg_double (amount : float) (b : Double.StorageBin) :
  (0 <=? Double.occupancy b)%float = true → (0 <=? amount)%float = true →
  (0 <=? Double.occupancy (snd (Double.occupy_space amount b)))%float = true.
Proof.
  intros H0 Ha. unfold Double.occupy_space.
  destruct (amount <=? Double.get_remaining_capacity b)%float; simpl;
    [by apply add_nonneg|done].
Qed.

(** C7 fails on doubles.  A bin of capacity 1.7 that holds 0.6 accepts an
    amount of 1.1, because the difference [1.7 - 0.6] rounds to
    [1.1000000000000001]; the occupancy becomes [0.6 + 1.1], which is
    [1.7000000000000002], above the capacity. *)
Lemma occupancy_can_exceed_capacity :
  ¬ Double.calls_keep_range Double.bin_17 1.1.
Proof.
  intros H. destruct H as [[_ Hup] _].
  - split; reflexivity.
  - reflexivity.
  - vm_compute in Hup. discriminate Hup.
Qed.

(** C7, amended.  On a bin with [0 <= occupancy <= capacity] and for an
    amount that is not negative: [occupy_space] refuses, without changing
    the bin, an amount above the remaining capacity [capacity - occupancy]
    as the doubles give it; an accepted amount is added to the occupancy,
    which stays at least 0 (its upper bound is not kept: the test is made
    on the rounded difference, not on the sum that is stored);
    [free_space] keeps [0 <= occupancy <= capacity]; the capacity never
    changes. *)
Theorem occupancy_range_on_doubles (b : Double.StorageBin) (amount : float) :
  Double.occupancy_in_range b → (0 <=? amount)%float = true →
  let accepted := fst (Double.occupy_space amount b) in
  let b' := snd (Double.occupy_space amount b) in
  ((Double.get_remaining_capacity b <? amount)%float = true →
   Double.occupy_space amount b = (false, b)) ∧
  (accepted = true →
   Double.occupancy b' = (Double.occupancy b + amount)%float) ∧
  (accepted = false → b' = b) ∧
  (0 <=? Double.occupancy b')%float = true ∧
  Double.capacity b' = Double.capacity b ∧
  Double.occupancy_in_range (Double.free_space amount b) ∧
  Double.capacity (Double.free_space amount b) = Double.capacity b.
Proof.
  intros Hrange Ha. cbv zeta.
  split; [|split; [|split; [|split; [|split; [|split]]]]].
  - intros Hover. unfold Double.occupy_space.
    by rewrite (flt_not_fle _ _ Hover).
  - unfold Double.occupy_space.
    by destruct (amount <=? Double.get_remaining_capacity b)%float.
  - unfold Double.occupy_space.
    by destruct (amount <=? Double.get_remaining_capacity b)%float.
  - apply occupy_space_nonneg_double; [apply Hrange|done].
  - unfold Double.occupy_space.
    by destruct (amount <=? Double.get_remaining_capacity b)%float.
  - by apply free_space_in_range_double.
  - done.
Qed.

Lemma occupancy_range_on_doubles_witness :
  (0 <=? Double.occupancy (snd (Double.occupy_space 1.1 Double.bin_17)))%float
    = true ∧
  Double.occupancy_in_range (Double.free_space 1.1 Double.bin_17).
Proof.
  destruct (occupancy_range_on_doubles Double.bin_17 1.1)
    as (_ & _ & _ & Hocc & _ & Hfree & _).
  - split; reflexivity.
  - reflexivity.
  - split; [exact Hocc|exact Hfree].
Defined.

(** ** A failed persistence, on doubles *)

Lemma find_best_fit_bin_double (package_size : float)
    (s : Double.LogiMaster) :
  ∃ r, Double.find_best_fit_bin package_size s = (r, s) ∧
       ∀ i, r = Returned (Some i) →
            ∃ b, Double.bin_inventory s !! i = Some b ∧
                 (package_size <=? Double.get_remaining_capacity b)%float
                 = true.
Proof.
  unfold Double.find_best_fit_bin. unfold_M.
  destruct (Double.find_best_fit_bin_loop _ _ _ _ _) as [[i|]|e].
  - unfold Double.bin_at.
    destruct (Double.bin_inventory s !! i) as [b|] eqn:Hb.
    + destruct (package_size <=? Double.get_remaining_capacity b)%float
        eqn:E.
      * eexists. split; [done|]. intros ? [= <-]. by exists b.
      * eexists. split; [done|]. intros ? [=].
    + eexists. split; [done|]. intros ? [=].
  - eexists. split; [done|]. intros ? [=].
  - eexists. split; [done|]. intros ? [=].
Qed.

Lemma find_best_fit_bin_queue_double (package_size : float)
    (queue : list Double.Package) (s : Double.LogiMaster) :
  Double.find_best_fit_bin package_size (Double.set_conveyor_queue queue s)
  = (fst (Double.find_best_fit_bin package_size s),
     Double.set_conveyor_queue queue s).
Proof.
  unfold Double.find_best_fit_bin. unfold_M. unfold Double.bin_at.
  change (Double.bin_inventory (Double.set_conveyor_queue queue s))
    with (Double.bin_inventory s).
  destruct (Double.find_best_fit_bin_loop _ _ _ _ _) as [[j|]|e'];
    [|done|done].
  simpl. destruct (Double.bin_inventory s !! j) as [bj|]; [|done].
  by destruct (package_size <=? Double.get_remaining_capacity bj)%float.
Qed.

Lemma process_next_package_failed_double (s : Double.LogiMaster)
    (package : Double.Package) (queue' : list Double.Package) (i : nat)
    (b : Double.StorageBin) (e : exn) :
  Double.conveyor_queue s = package :: queue' →
  fst (Double.find_best_fit_bin (Double.size package) s)
    = Returned (Some i) →
  Double.bin_inventory s !! i = Some b →
  Double.process_next_package (CommitFails e) s
  = (Returned tt,
     Double.mkLogiMaster
       (<[i := Double.free_space (Double.size package)
                 (snd (Double.occupy_space (Double.size package) b))]>
          (Double.bin_inventory s))
       (package :: queue') (Double.loading_stack s)).
Proof.
  intros Hq Hfind Hb. unfold Double.process_next_package.
  unfold mbind at 1, M_bind at 1, bind at 1, gets at 1. rewrite Hq.
  unfold mbind at 1, M_bind at 1, bind at 1, modify at 1.
  unfold mbind at 1, M_bind at 1, bind at 1.
  rewrite find_best_fit_bin_queue_double, Hfind.
  unfold try_except, Double._update_db_assignment, Double._log_shipment,
    Double.bin_call.
  unfold_M. simpl. rewrite Hb. simpl.
  rewrite list_lookup_alter_eq, Hb. simpl.
  unfold Double.set_bin_inventory, Double.set_conveyor_queue. simpl.
  f_equal. f_equal.
  apply list_eq. intros j. destruct (decide (j = i)) as [->|Hne].
  - rewrite !list_lookup_alter_eq, Hb, list_lookup_insert_eq; [done|].
    by eapply lookup_lt_Some.
  - by rewrite !list_lookup_alter_ne, list_lookup_insert_ne.
Qed.

(** Adding an amount to an occupancy of zero and taking it off again
    leaves nothing above zero, whatever the amount. *)
Lemma add_sub_zero (occ x : float) :
  (occ =? 0)%float = true → (0 <? (occ + x) - x)%float = false.
Proof.
  intros Hz.
  rewrite FloatAxioms.eqb_spec in Hz.
  rewrite FloatAxioms.ltb_spec, FloatAxioms.sub_spec, FloatAxioms.add_spec.
  change (Prim2SF 0) with (S754_zero false) in *.
  destruct (Prim2SF occ) as [so|so| |so mo eo];
    [|by destruct so|done|by destruct so].
  destruct (Prim2SF x) as [sx|sx| |sx mx ex].
  - by destruct so, sx.
  - by destruct sx.
  - done.
  - unfold SF64add, SF64sub, SFadd. cbv beta iota. unfold SFsub.
    rewrite Z.sub_diag. reflexivity.
Qed.

(** C3 fails on doubles.  A bin that holds 0.1 takes a package of size
    0.2 and gives it back: [(0.1 + 0.2) - 0.2] is
    [0.10000000000000003], not the 0.1 held before. *)
Lemma rollback_can_change_occupancy :
  ¬ Double.rollback_restores Double.tenth_held OperationalError.
Proof.
  intros H.
  assert (E : fst (Double.find_best_fit_bin 0.2 Double.tenth_held)
              = Returned (Some 0%nat)) by (vm_compute; reflexivity).
  specialize (H (Double.package_of_size "P1" 0.2) [] 0%nat
                (Double.new_StorageBin 1 1 "A01" 0.1) eq_refl E eq_refl).
  cbv zeta in H. destruct H as (_ & b' & Hb' & Hocc).
  rewrite (process_next_package_failed_double Double.tenth_held
             (Double.package_of_size "P1" 0.2) [] 0%nat
             (Double.new_StorageBin 1 1 "A01" 0.1) OperationalError
             eq_refl E eq_refl) in Hb'.
  vm_compute in Hb'. injection Hb' as <-.
  vm_compute in Hocc. discriminate Hocc.
Qed.

(** C3, amended.  When [process_next_package] pops an item, matches it to
    a bin and the persistence step then fails, the call ends normally with
    the failed item back at the front of the ingestion queue, ahead of the
    items that arrived after it, the ledger and every other bin untouched,
    and the matched bin's occupancy set to
    [max(0.0, (occupancy + size) - size)] as computed on doubles.  That
    value is never negative; it is 0.0 when the bin was empty; and when it
    equals the occupancy before the attempt the whole controller state is
    the one before the call.  It need not equal it: the sum is rounded
    before the amount is taken off again. *)
Theorem persistence_failure_rolls_back_on_doubles (s : Double.LogiMaster)
    (package : Double.Package) (queue' : list Double.Package) (i : nat)
    (b : Double.StorageBin) (e : exn) :
  Double.conveyor_queue s = package :: queue' →
  fst (Double.find_best_fit_bin (Double.size package) s)
    = Returned (Some i) →
  Double.bin_inventory s !! i = Some b →
  let s' := snd (Double.process_next_package (CommitFails e) s) in
  let back :=
    Double.py_max 0
      ((Double.occupancy b + Double.size package) - Double.size package)%float
  in
  fst (Double.process_next_package (CommitFails e) s) = Returned tt ∧
  Double.conveyor_queue s' = package :: queue' ∧
  Double.loading_stack s' = Double.loading_stack s ∧
  Double.bin_inventory s'
    = <[i := Double.set_occupancy back b]> (Double.bin_inventory s) ∧
  (0 <=? back)%float = true ∧
  ((Double.occupancy b =? 0)%float = true → back = 0%float) ∧
  (back = Double.occupancy b → s' = s).
Proof.
  intros Hq Hfind Hb. cbv zeta.
  rewrite (process_next_package_failed_double s package queue' i b e
             Hq Hfind Hb).
  assert (Hfree :
    Double.free_space (Double.size package)
      (snd (Double.occupy_space (Double.size package) b))
    = Double.set_occupancy
        (Double.py_max 0
           ((Double.occupancy b + Double.size package)
            - Double.size package)%float) b).
  { destruct (find_best_fit_bin_double (Double.size package) s)
      as (r & Hrun & Hsome).
    rewrite Hrun in Hfind. simpl in Hfind.
    destruct (Hsome i Hfind) as (b0 & Hb0 & Hfit).
    assert (b0 = b) as -> by congruence.
    unfold Double.occupy_space. rewrite Hfit. reflexivity. }
  rewrite Hfree. simpl.
  split; [done|]. split; [done|]. split; [done|]. split; [done|].
  split; [apply py_max_zero_nonneg|]. split.
  - intros Hz. unfold Double.py_max. by rewrite add_sub_zero.
  - intros ->. destruct s as [bins queue stack]. simpl in *. subst queue.
    f_equal. apply list_insert_id. by destruct b.
Qed.

(** The spec's example: A (size 11) is in its bin, B (size 4) and C are
    waiting, B's persistence fails: the queue is again B, C and the
    catalog is as before the attempt. *)
Lemma persistence_failure_rolls_back_on_doubles_witness :
  snd (Double.process_next_package Committed Double.seeded_ABC)
    = Double.seeded_BC ∧
  snd (Double.process_next_package (CommitFails OperationalError)
         Double.seeded_BC) = Double.seeded_BC.
Proof.
  split; [vm_compute; reflexivity|].
  assert (E : fst (Double.find_best_fit_bin 4 Double.seeded_BC)
              = Returned (Some 0%nat)) by (vm_compute; reflexivity).
  apply (persistence_failure_rolls_back_on_doubles Double.seeded_BC
           (Double.new_Package "P002" 4 "20002" true)
           [Double.new_Package "P003" 16 "30003" false] 0%nat
           (Double.new_StorageBin 101 5 "A01S01" 0) OperationalError
           eq_refl E eq_refl).
  vm_compute. reflexivity.
Defined.

(** ** The optimizer on doubles *)

Section DoubleOptimizer.
Variable T : float.
Local Open Scope float_scope.

(** Whatever the limit, a call either raises [RecursionError] or returns
    what the call without a limit computes. *)
Lemma for_range_limited_cases bt bt' cs l :
  (∀ tl index cs st, (length tl < length l)%nat →
     bt tl index cs st = Returned (bt' tl index cs st) ∨
     bt tl index cs st = Raised RecursionError) →
  ∀ i st,
    Double.for_range T bt cs l i st
    = Returned (Double.for_range_unbounded T bt' cs l i st) ∨
    Double.for_range T bt cs l i st = Raised RecursionError.
Proof.
  induction l as [|p tl IH]; intros Hbt i st; simpl; [by left|].
  assert (Htl : ∀ tl' index cs st, (length tl' < length tl)%nat →
     bt tl' index cs st = Returned (bt' tl' index cs st) ∨
     bt tl' index cs st = Raised RecursionError).
  { intros tl' ? ? ? Hlt. apply Hbt. simpl. lia. }
  destruct (cs + Double.size p <=? T); [|by apply IH].
  destruct (Hbt tl (S i) (cs + Double.size p) (Double.load_append p st)
              ltac:(simpl; lia)) as [-> | ->]; [by apply IH|by right].
Qed.

Lemma backtrack_limited_cases limit rest :
  ∀ depth index cs st,
    Double.backtrack T limit depth rest index cs st
    = Returned (Double.backtrack_unbounded T rest index cs st) ∨
    Double.backtrack T limit depth rest index cs st = Raised RecursionError.
Proof.
  remember (length rest) as n eqn:Hn. revert rest Hn.
  induction (lt_wf n) as [n _ IH]. intros rest -> depth index cs st.
  rewrite backtrack_limited_unfold, backtrack_unbounded_unfold. cbv zeta.
  destruct (limit <? depth)%nat; [by right|].
  destruct (cs =? T); [by left|].
  apply for_range_limited_cases. intros tl index' cs' st' Hlt.
  apply (IH (length tl) Hlt tl eq_refl).
Qed.

(** The run from the empty selection. *)
Lemma run_search_unbounded_ok packages :
  (0 <=? T) = true →
  let st := Double.run_search_unbounded T packages in
  Double.best_ok T (Double.sorted_desc packages) st ∧
  (∀ S, S `sublist_of` Double.sorted_desc packages →
        Double.fits_from T 0 S →
        (Double.fsum S <=? Double.best_size st) = true) ∧
  ∃ new, Double.calls st = (0%nat, 0) :: new.
Proof.
  intros HT. cbv zeta. unfold Double.run_search_unbounded.
  destruct (backtrack_ok T (Double.sorted_desc packages)
              (Double.sorted_desc packages) 0%nat 0 Double.search_init)
    as (_ & Hok & _ & Hopt & new & Hlog); try done.
  - unfold Double.best_ok. simpl.
    split; [apply sublist_nil_l|].
    split; [done|]. split; [done|]. split; [done|].
    intros (i & c & Hin & _). by apply elem_of_nil in Hin.
  - split; [done|]. split; [done|]. exists new. exact Hlog.
Qed.

Lemma for_range_unbounded_nothing_fits bt cs l :
  Forall (λ p, (cs + Double.size p <=? T) = false) l →
  ∀ i st, Double.for_range_unbounded T bt cs l i st = st.
Proof.
  induction 1 as [|p tl Hp _ IH]; intros i st; simpl; [done|].
  rewrite Hp. apply IH.
Qed.

(** When every candidate alone exceeds the ceiling, the first call is the
    only one and nothing is selected. *)
Lemma run_search_unbounded_nothing_fits packages :
  Forall (λ p, (T <? Double.size p) = true) packages →
  Double.calls (Double.run_search_unbounded T packages) = [(0%nat, 0)] ∧
  Double.best_load (Double.run_search_unbounded T packages) = [].
Proof.
  intros Hbig. unfold Double.run_search_unbounded.
  rewrite backtrack_unbounded_unfold. cbv zeta.
  destruct (0 =? T); [done|].
  rewrite for_range_unbounded_nothing_fits; [done|].
  rewrite sorted_desc_Permutation.
  eapply Forall_impl; [exact Hbig|]. intros p Hp. simpl in Hp.
  rewrite (leb_fkey _ (Double.size p) _ T (fkey_add_zero _) eq_refl).
  by apply flt_not_fle.
Qed.
End DoubleOptimizer.

(** C1 fails on doubles.  For sizes 1.2, 1.0 and 0.7 under a ceiling of
    2.9 the search returns the first two: the running total
    [(1.2 + 1.0) + 0.7] is [2.9000000000000004] and is pruned, although
    the three sizes together are no more than the ceiling. *)
Lemma optimizer_misses_a_fitting_subset :
  ¬ Double.returns_a_best_subset 1000 Double.trio 2.9.
Proof.
  intros (result & Hres & _ & _ & Hbest).
  assert (E : Double.find_optimal_shipment 1000 Double.trio 2.9
              = Returned [Double.package_of_size "A" 1.2;
                          Double.package_of_size "B" 1])
    by (vm_compute; reflexivity).
  rewrite E in Hres. injection Hres as <-.
  specialize (Hbest Double.trio (reflexivity _)).
  assert (Hfit : (Double.exact_total Double.trio <= F2Q 2.9)%Q)
    by (vm_compute; discriminate).
  apply Hbest in Hfit. vm_compute in Hfit. by apply Hfit.
Qed.

(** The other direction: for sizes 0.4 and 0.1 under a ceiling of 0.5 both
    are returned, because [0.4 + 0.1] rounds to 0.5, although the two
    sizes together are more than the ceiling. *)
Example optimizer_loads_above_the_ceiling :
  Double.find_optimal_shipment 1000 Double.pair_04_01 0.5
    = Returned Double.pair_04_01 ∧
  ¬ (Double.exact_total Double.pair_04_01 <= F2Q 0.5)%Q.
Proof.
  split; [vm_compute; reflexivity|].
  intros H. vm_compute in H. by apply H.
Qed.

(** With as many candidates as nested calls allowed, the search raises. *)
Example optimizer_exhausts_recursion :
  Double.find_optimal_shipment 2 Double.two_fives 10
    = Raised RecursionError.
Proof. vm_compute. reflexivity. Qed.

(** C1, amended.  For candidates with positive sizes and a positive
    ceiling, [find_optimal_shipment] either raises [RecursionError] or
    returns one selection, the same at every recursion limit, and it does
    return when the limit exceeds the number of candidates.  The selection
    is a subsequence of the candidates sorted by decreasing size, hence a
    subset of the candidates; its running total, the sizes added one by
    one in that order on doubles, is at most the ceiling at every
    addition; and it is maximal: no subsequence of the sorted candidates
    whose running total stays at most the ceiling at every addition has a
    strictly larger running total.  It is empty when every single
    candidate's size exceeds the ceiling. *)
Theorem find_optimal_shipment_best_running_total
    (packages : list Double.Package) (target_capacity : float) :
  Forall (λ p, (0 <? Double.size p)%float = true) packages →
  (0 <? target_capacity)%float = true →
  ∃ result,
    (∀ limit, (length packages < limit)%nat →
       Double.find_optimal_shipment limit packages target_capacity
       = Returned result) ∧
    (∀ limit,
       Double.find_optimal_shipment limit packages target_capacity
       = Returned result ∨
       Double.find_optimal_shipment limit packages target_capacity
       = Raised RecursionError) ∧
    result `sublist_of` Double.sorted_desc packages ∧
    result ⊆+ packages ∧
    Double.fits_from target_capacity 0 result ∧
    (Double.fsum result <=? target_capacity)%float = true ∧
    (∀ other, other `sublist_of` Double.sorted_desc packages →
       Double.fits_from target_capacity 0 other →
       (Double.fsum other <=? Double.fsum result)%float = true) ∧
    (Forall (λ p, (target_capacity <? Double.size p)%float = true) packages →
     result = []).
Proof.
  intros _ HT%flt_fle.
  exists (Double.best_load
            (Double.run_search_unbounded target_capacity packages)).
  destruct (run_search_unbounded_ok target_capacity packages HT)
    as ((Hsub & Hfit & Hsize & Hle & _) & Hopt & _).
  split; [|split; [|split; [|split; [|split; [|split; [|split]]]]]].
  - intros limit Hlim. unfold Double.find_optimal_shipment.
    by rewrite run_search_within_limit.
  - intros limit. unfold Double.find_optimal_shipment, Double.run_search.
    destruct (backtrack_limited_cases target_capacity limit
                (Double.sorted_desc packages) 1 0%nat 0%float
                Double.search_init) as [-> | ->]; [by left|by right].
  - done.
  - rewrite <- (sorted_desc_Permutation packages) at 2.
    by apply sublist_submseteq.
  - done.
  - by rewrite <- Hsize.
  - intros other Hother Hfits. rewrite <- Hsize. by apply Hopt.
  - intros Hbig.
    by destruct (run_search_unbounded_nothing_fits target_capacity packages
                   Hbig).
Qed.

Lemma find_optimal_shipment_best_running_total_witness :
  ∃ result,
    Double.find_optimal_shipment 1000 Double.trio 2.9 = Returned result ∧
    (Double.fsum result <=? 2.9)%float = true.
Proof.
  destruct (find_optimal_shipment_best_running_total Double.trio 2.9)
    as (result & Hret & _ & _ & _ & _ & Hle & _).
  - repeat constructor.
  - reflexivity.
  - exists result. split; [apply Hret; simpl; lia|exact Hle].
Defined.

(** ** The call log of the search *)

Section DoubleLog.
Variable T : float.
Variable sorted : list Double.Package.
Local Open Scope float_scope.

Lemma calls_closed_nil : Double.calls_closed T sorted [].
Proof. intros [|??] ? ? ? Heq; discriminate Heq. Qed.

Lemma calls_closed_app a b :
  Double.calls_closed T sorted a → Double.calls_closed T sorted b →
  Double.calls_closed T sorted (a ++ b).
Proof.
  intros Ha Hb before index cs after Heq Hne k p Hk Hp Hfit.
  apply List.app_eq_app in Heq as [l [[H1 H2]|[H1 H2]]].
  - destruct l as [|e l].
    + simpl in H2. apply (Hb [] index cs after); done.
    + simpl in H2. injection H2 as <- ->.
      apply elem_of_app. left. by apply (Ha before index cs l).
  - by apply (Hb l index cs after).
Qed.

Lemma calls_closed_cons index cs new :
  ((cs =? T) = false →
   ∀ k p, (index ≤ k)%nat → sorted !! k = Some p →
     (cs + Double.size p <=? T) = true → (S k, cs + Double.size p) ∈ new) →
  Double.calls_closed T sorted new →
  Double.calls_closed T sorted ((index, cs) :: new).
Proof.
  intros Hhead Hnew before index' cs' after Heq Hne k p Hk Hp Hfit.
  destruct before as [|e before].
  - simpl in Heq. injection Heq as <- <- <-. by apply Hhead.
  - simpl in Heq. injection Heq as <- ->.
    by apply (Hnew before index' cs' after).
Qed.

Lemma exact_seen_app l k :
  Double.exact_seen T (l ++ k)
  ↔ Double.exact_seen T l ∨ Double.exact_seen T k.
Proof.
  unfold Double.exact_seen. split.
  - intros (i & c & [Hin|Hin]%elem_of_app & Hc); [left|right]; eauto.
  - intros [(i & c & Hin & Hc)|(i & c & Hin & Hc)]; exists i, c;
      (split; [apply elem_of_app; auto|done]).
Qed.

Lemma drop_cons_inv {A} (l : list A) i x tl :
  drop i l = x :: tl → l !! i = Some x ∧ drop (S i) l = tl.
Proof.
  intros Hd.
  assert (Hx : l !! i = Some x).
  { rewrite <- (Nat.add_0_r i), <- lookup_drop, Hd. done. }
  split; [done|].
  rewrite (drop_S _ _ _ Hx) in Hd. by injection Hd.
Qed.

Lemma for_range_log cs l :
  (∀ tl, (length tl < length l)%nat →
         Double.log_ok T sorted (Double.backtrack_unbounded T) tl) →
  ∀ i st,
    drop i sorted = l →
    cs = Double.fsum (Double.current_load st) →
    Double.best_size st = Double.fsum (Double.best_load st) →
    (Double.exact_seen T (Double.calls st) →
     (Double.best_size st =? T) = true) →
    let st' := Double.for_range_unbounded T (Double.backtrack_unbounded T)
                 cs l i st in
    Double.current_load st' = Double.current_load st ∧
    Double.best_size st' = Double.fsum (Double.best_load st') ∧
    (Double.exact_seen T (Double.calls st') →
     (Double.best_size st' =? T) = true) ∧
    ∃ new, Double.calls st' = Double.calls st ++ new ∧
           Double.calls_closed T sorted new ∧
           ∀ k p, (i ≤ k)%nat → sorted !! k = Some p →
             (cs + Double.size p <=? T) = true →
             (S k, cs + Double.size p) ∈ new.
Proof.
  induction l as [|p tl IH]; intros Hbt i st Hdrop Hcs Hbest Hseen; simpl.
  { split; [done|]. split; [done|]. split; [done|].
    exists []. rewrite List.app_nil_r. split; [done|].
    split; [apply calls_closed_nil|].
    intros k q Hk Hq _. exfalso.
    apply lookup_lt_Some in Hq.
    assert (Hlen : length (drop i sorted) = 0%nat) by by rewrite Hdrop.
    rewrite length_drop in Hlen. lia. }
  apply drop_cons_inv in Hdrop as [Hp Hdrop].
  set (st1 := if cs + Double.size p <=? T
              then Double.load_pop
                     (Double.backtrack_unbounded T tl (S i)
                        (cs + Double.size p) (Double.load_append p st))
              else st).
  assert (H1 :
    Double.current_load st1 = Double.current_load st ∧
    Double.best_size st1 = Double.fsum (Double.best_load st1) ∧
    (Double.exact_seen T (Double.calls st1) →
     (Double.best_size st1 =? T) = true) ∧
    ∃ new, Double.calls st1 = Double.calls st ++ new ∧
           Double.calls_closed T sorted new ∧
           ((cs + Double.size p <=? T) = true →
            (S i, cs + Double.size p) ∈ new)).
  { subst st1. destruct (cs + Double.size p <=? T) eqn:E.
    - destruct (Hbt tl ltac:(simpl; lia) (S i) (cs + Double.size p)
                  (Double.load_append p st))
        as (Hc & Hb & Hs & new & Hnew & Hclosed); simpl; try done.
      + unfold Double.fsum. by rewrite fsum_from_app, Hcs.
      + simpl in *. rewrite Hc, removelast_last.
        split; [done|]. split; [done|]. split; [done|].
        eexists. split; [exact Hnew|]. split; [done|].
        intros _. by left.
    - split; [done|]. split; [done|]. split; [done|].
      exists []. rewrite List.app_nil_r. split; [done|].
      split; [apply calls_closed_nil|done]. }
  destruct H1 as (Hc1 & Hb1 & Hs1 & new1 & Hlog1 & Hcl1 & Hch1).
  destruct (IH (λ tl' Hlt, Hbt tl' ltac:(simpl; lia)) (S i) st1)
    as (Hc2 & Hb2 & Hs2 & new2 & Hlog2 & Hcl2 & Hch2); try done.
  { by rewrite Hc1. }
  fold st1. split; [congruence|]. split; [done|]. split; [done|].
  exists (new1 ++ new2). split; [by rewrite Hlog2, Hlog1, List.app_assoc|].
  split; [by apply calls_closed_app|].
  intros k q Hk Hq Hfit. apply elem_of_app.
  destruct (decide (k = i)) as [->|Hne].
  - left. assert (q = p) as -> by congruence. by apply Hch1.
  - right. apply (Hch2 k q); [lia|done|done].
Qed.

Lemma backtrack_log rest :
  Double.log_ok T sorted (Double.backtrack_unbounded T) rest.
Proof.
  remember (length rest) as n eqn:Hn. revert rest Hn.
  induction (lt_wf n) as [n _ IH].
  intros rest -> index cs st Hdrop Hcs Hbest Hseen Hle.
  rewrite backtrack_unbounded_unfold. cbv zeta.
  destruct (cs =? T) eqn:E.
  - simpl. split; [done|]. split; [done|]. split; [done|].
    exists []. split; [done|].
    apply calls_closed_cons; [congruence|apply calls_closed_nil].
  - set (st0 := Double.log_call index cs st).
    set (st1 := if Double.best_size st0 <? cs
                then Double.record_best cs st0 else st0).
    assert (Hseen0 : Double.exact_seen T (Double.calls st0) →
                     Double.exact_seen T (Double.calls st)).
    { simpl. intros [H|(i' & c' & Hin & Hc')]%exact_seen_app; [done|].
      apply list_elem_of_singleton in Hin as [= -> ->]. congruence. }
    assert (H1 :
      Double.current_load st1 = Double.current_load st ∧
      Double.best_size st1 = Double.fsum (Double.best_load st1) ∧
      (Double.exact_seen T (Double.calls st1) →
       (Double.best_size st1 =? T) = true) ∧
      Double.calls st1 = Double.calls st ++ [(index, cs)]).
    { assert (Hkeep : Double.exact_seen T (Double.calls st0) →
                      (Double.best_size st0 <? cs) = false).
      { intros Hex%Hseen0. simpl. apply fle_not_flt.
        destruct (feq_fle _ _ (Hseen Hex)) as [_ HTb].
        exact (fle_trans _ _ _ (Hle Hex) HTb). }
      subst st1. destruct (Double.best_size st0 <? cs) eqn:G.
      - simpl. split; [done|]. split; [done|]. split; [|done].
        intros Hex. specialize (Hkeep Hex). congruence.
      - simpl. split; [done|]. split; [done|]. split; [|done].
        intros Hex. by apply Hseen, Hseen0. }
    destruct H1 as (Hc1 & Hb1 & Hs1 & Hlog1).
    destruct (for_range_log cs rest
                (λ tl Hlt, IH (length tl) Hlt tl eq_refl) index st1)
      as (Hc2 & Hb2 & Hs2 & new & Hlog2 & Hcl2 & Hch2); try done.
    { by rewrite Hc1. }
    split; [congruence|]. split; [done|]. split; [done|].
    exists new. split; [by rewrite Hlog2, Hlog1, <- List.app_assoc|].
    apply calls_closed_cons; [|done]. intros _. exact Hch2.
Qed.

Lemma search_log :
  let st := Double.backtrack_unbounded T sorted 0 0 Double.search_init in
  Double.calls_closed T sorted (Double.calls st) ∧
  (Double.exact_seen T (Double.calls st) →
   (Double.best_size st =? T) = true ∧
   (Double.fsum (Double.best_load st) =? T) = true).
Proof.
  cbv zeta.
  destruct (backtrack_log sorted 0%nat 0 Double.search_init)
    as (_ & Hb & Hs & new & Hlog & Hcl); try done.
  - intros (i & c & Hin & _). by apply elem_of_nil in Hin.
  - intros (i & c & Hin & _). by apply elem_of_nil in Hin.
  - split.
    + rewrite Hlog. exact Hcl.
    + intros Hex. split; [by apply Hs|]. rewrite <- Hb. by apply Hs.
Qed.
End DoubleLog.

(** C5 fails.  With two candidates of size 5 under a ceiling of 5 the
    calls are (0, 0.0), (1, 5.0), (2, 5.0): the second is an exact match,
    and the third is made after it. *)
Lemma exact_match_does_not_end_the_search :
  ¬ Double.search_stops_at_exact_match 1000 Double.two_fives 5.
Proof.
  intros H.
  assert (E : ∃ st, Double.run_search 5 1000 Double.two_fives = Returned st
                    ∧ Double.calls st = [(0%nat, 0%float)]
                                        ++ (1%nat, 5%float)
                                        :: [(2%nat, 5%float)]).
  { eexists. split; [vm_compute; reflexivity|reflexivity]. }
  destruct E as (st & Hrun & Hcalls).
  specialize (H st _ _ _ _ Hrun Hcalls eq_refl). discriminate H.
Qed.

(** The total of an exact match is a running total.  For sizes 0.4, 0.1
    and 0.1 under a ceiling of 0.6 the three are returned on an exact
    match, [(0.4 + 0.1) + 0.1] being 0.6 on doubles, although the three
    sizes together are not the ceiling. *)
Example exact_match_on_a_rounded_sum :
  Double.find_optimal_shipment 1000 Double.trio_06 0.6
    = Returned Double.trio_06 ∧
  (Double.fsum Double.trio_06 =? 0.6)%float = true ∧
  ¬ (Double.exact_total Double.trio_06 == F2Q 0.6)%Q.
Proof.
  split; [vm_compute; reflexivity|]. split; [reflexivity|].
  intros H. vm_compute in H. discriminate H.
Qed.

(** C5, amended.  [sorted_packages] is the list the closure works on, in
    [find_optimal_shipment] the candidates sorted by decreasing size.  A
    call of [backtrack] entered with a running sum equal to the ceiling
    logs itself, records the current selection as best and returns at
    once, with no recursive call of its own.  Only that call ends.  In the
    search [backtrack(0, [], 0.0)], which the recursion limit lets finish
    when it exceeds the number of candidates, every call entered with a
    running sum different from the ceiling is followed, later in the call
    log, by its recursive call for each candidate from its index on whose
    addition keeps the running sum at most the ceiling, whether or not an
    exact match was reached before.  If some call was an exact match, then
    at the end the recorded best size equals the ceiling and so does the
    running total of the selection recorded, its sizes added one by one
    from 0.0 on doubles. *)
Theorem exact_match_ends_only_its_own_call_on_doubles (limit : nat)
    (sorted_packages : list Double.Package) (target_capacity : float) :
  (length sorted_packages < limit)%nat →
  (∀ depth rest index current_size st,
     (depth ≤ limit)%nat →
     (current_size =? target_capacity)%float = true →
     Double.backtrack target_capacity limit depth rest index current_size st
     = Returned (Double.record_best current_size
                   (Double.log_call index current_size st))) ∧
  ∃ st,
    Double.backtrack target_capacity limit 1 sorted_packages 0 0
      Double.search_init = Returned st ∧
    Double.calls_closed target_capacity sorted_packages (Double.calls st) ∧
    (Double.exact_seen target_capacity (Double.calls st) →
     (Double.best_size st =? target_capacity)%float = true ∧
     (Double.fsum (Double.best_load st) =? target_capacity)%float = true).
Proof.
  intros Hlim. split.
  - intros depth rest index cs st Hdepth Hexact.
    rewrite backtrack_limited_unfold. cbv zeta. rewrite Hexact.
    by assert ((limit <? depth)%nat = false) as ->
      by (apply Nat.ltb_ge; lia).
  - exists (Double.backtrack_unbounded target_capacity sorted_packages 0 0
              Double.search_init).
    split; [apply backtrack_within_limit; lia|].
    apply search_log.
Qed.

Lemma exact_match_ends_only_its_own_call_on_doubles_witness :
  ∃ st,
    Double.run_search 5 1000 Double.two_fives = Returned st ∧
    (2%nat, 5%float) ∈ Double.calls st ∧
    (Double.fsum (Double.best_load st) =? 5)%float = true.
Proof.
  destruct (exact_match_ends_only_its_own_call_on_doubles 1000
              (Double.sorted_desc Double.two_fives) 5)
    as (_ & st & Hrun & Hclosed & Hbest).
  - simpl. lia.
  - exists st. split; [exact Hrun|].
    assert (Hcalls : Double.calls st = [(0%nat, 0%float)]
                                       ++ (1%nat, 5%float)
                                       :: [(2%nat, 5%float)]).
    { assert (E : Double.backtrack 5 1000 1
                    (Double.sorted_desc Double.two_fives) 0 0
                    Double.search_init
                  = Returned (Double.run_search_unbounded 5 Double.two_fives))
        by (vm_compute; reflexivity).
      rewrite E in Hrun. injection Hrun as <-. vm_compute. reflexivity. }
    split.
    + rewrite Hcalls. apply elem_of_app. right.
      apply (Hclosed [] 0%nat 0%float _ Hcalls eq_refl 1%nat
               (Double.package_of_size "B" 5)); [lia|reflexivity|reflexivity].
    + apply Hbest. exists 1%nat, 5%float. split; [|reflexivity].
      rewrite Hcalls. simpl. right. by left.
Defined.

(** ** How many calls the search makes *)

Section DoubleCalls.
Variable T : float.
Local Open Scope float_scope.

(** The calls one loop adds to the log, and the calls one call adds. *)
Lemma for_range_unbounded_calls_le cs l :
  (∀ tl, (length tl < length l)%nat →
     ∀ index cs st, ∃ new,
       Double.calls (Double.backtrack_unbounded T tl index cs st)
         = Double.calls st ++ new ∧
       (length new ≤ 2 ^ length tl)%nat) →
  ∀ i st, ∃ new,
    Double.calls
      (Double.for_range_unbounded T (Double.backtrack_unbounded T) cs l i st)
      = Double.calls st ++ new ∧
    (length new + 1 ≤ 2 ^ length l)%nat.
Proof.
  induction l as [|p tl IH]; intros Hbt i st; simpl.
  { exists []. by rewrite List.app_nil_r. }
  set (st1 := if cs + Double.size p <=? T
              then Double.load_pop
                     (Double.backtrack_unbounded T tl (S i)
                        (cs + Double.size p) (Double.load_append p st))
              else st).
  assert (H1 : ∃ new, Double.calls st1 = Double.calls st ++ new ∧
                      (length new ≤ 2 ^ length tl)%nat).
  { subst st1. destruct (cs + Double.size p <=? T).
    - destruct (Hbt tl ltac:(simpl; lia) (S i) (cs + Double.size p)
                  (Double.load_append p st)) as (new & Hnew & Hlen).
      exists new. by split.
    - exists []. rewrite List.app_nil_r. split; [done|].
      simpl. pose proof (Nat.pow_nonzero 2 (length tl)). lia. }
  destruct H1 as (new1 & Hnew1 & Hlen1).
  destruct (IH (λ tl' Hlt, Hbt tl' ltac:(simpl; lia)) (S i) st1)
    as (new2 & Hnew2 & Hlen2).
  exists (new1 ++ new2). split.
  - by rewrite Hnew2, Hnew1, List.app_assoc.
  - rewrite length_app. lia.
Qed.

Lemma backtrack_unbounded_calls_le rest index cs st :
  ∃ new, Double.calls (Double.backtrack_unbounded T rest index cs st)
         = Double.calls st ++ (index, cs) :: new ∧
         (S (length new) ≤ 2 ^ length rest)%nat.
Proof.
  remember (length rest) as n eqn:Hn. revert rest Hn index cs st.
  induction (lt_wf n) as [n _ IH]. intros rest -> index cs st.
  rewrite backtrack_unbounded_unfold. cbv zeta.
  destruct (cs =? T).
  { exists []. split; [done|]. simpl.
    pose proof (Nat.pow_nonzero 2 (length rest)). lia. }
  set (st1 := if Double.best_size (Double.log_call index cs st) <? cs
              then Double.record_best cs (Double.log_call index cs st)
              else Double.log_call index cs st).
  assert (H1 : Double.calls st1 = Double.calls st ++ [(index, cs)]).
  { subst st1. by destruct (_ <? _). }
  destruct (for_range_unbounded_calls_le cs rest) with (i := index) (st := st1)
    as (new & Hnew & Hlen).
  { intros tl Hlt index' cs' st'.
    destruct (IH (length tl) Hlt tl eq_refl index' cs' st')
      as (new & Hnew & Hlen).
    exists ((index', cs') :: new). split; [done|]. simpl. lia. }
  exists new. split; [|lia].
  by rewrite Hnew, H1, <- List.app_assoc.
Qed.
End DoubleCalls.

(** X16.  [sorted_packages] is the list the closure works on.  In a
    search [backtrack(0, [], 0.0)] that the recursion limit lets finish,
    [backtrack] is called at least once and at most [2 ^ n] times for [n]
    candidates, the first time with index 0 and running sum 0.0.  When the
    ceiling is 0.0, or when every candidate alone exceeds the ceiling, the
    first call is the only one and the selection recorded is empty. *)
Theorem backtrack_call_count_on_doubles (limit : nat)
    (sorted_packages : list Double.Package) (target_capacity : float) :
  (length sorted_packages < limit)%nat →
  ∃ st,
    Double.backtrack target_capacity limit 1 sorted_packages 0 0
      Double.search_init = Returned st ∧
    (∃ more, Double.calls st = (0%nat, 0%float) :: more) ∧
    (1 ≤ length (Double.calls st) ≤ 2 ^ length sorted_packages)%nat ∧
    ((0 =? target_capacity)%float = true ∨
     Forall (λ p, (target_capacity <? Double.size p)%float = true)
            sorted_packages →
     Double.calls st = [(0%nat, 0%float)] ∧ Double.best_load st = []).
Proof.
  intros Hlim.
  exists (Double.backtrack_unbounded target_capacity sorted_packages 0 0
            Double.search_init).
  split; [apply backtrack_within_limit; lia|].
  destruct (backtrack_unbounded_calls_le target_capacity sorted_packages
              0%nat 0%float Double.search_init) as (new & Hnew & Hlen).
  split; [|split].
  - exists new. by rewrite Hnew.
  - rewrite Hnew. simpl. lia.
  - intros Hnone. rewrite backtrack_unbounded_unfold. cbv zeta.
    destruct Hnone as [Hzero|Hbig]; [by rewrite Hzero|].
    destruct (0 =? target_capacity)%float; [done|].
    rewrite for_range_unbounded_nothing_fits; [done|].
    eapply Forall_impl; [exact Hbig|]. intros p Hp. simpl in Hp.
    rewrite (leb_fkey _ (Double.size p) _ target_capacity
               (fkey_add_zero _) eq_refl).
    by apply flt_not_fle.
Qed.

Lemma backtrack_call_count_on_doubles_witness :
  ∃ st,
    Double.run_search 5 1000 Double.P005_P007 = Returned st ∧
    (1 ≤ length (Double.calls st) ≤ 4)%nat.
Proof.
  destruct (backtrack_call_count_on_doubles 1000
              (Double.sorted_desc Double.P005_P007) 5)
    as (st & Hrun & _ & Hlen & _).
  - simpl. lia.
  - exists st. split; [exact Hrun|exact Hlen].
Defined.

(** ** Shipments on doubles *)

Section DoubleShape.
Variable T : float.
Variable sorted : list Double.Package.
Local Open Scope float_scope.

(** Whatever the ceiling, a call leaves the current selection as it found
    it, and the recorded selection stays drawn from the sorted candidates
    in their order. *)
Lemma for_range_unbounded_shape cs l :
  (∀ tl, (length tl < length l)%nat →
     ∀ index cs st,
       Double.current_load st ++ tl `sublist_of` sorted →
       Double.best_load st `sublist_of` sorted →
       let st' := Double.backtrack_unbounded T tl index cs st in
       Double.current_load st' = Double.current_load st ∧
       Double.best_load st' `sublist_of` sorted) →
  ∀ i st,
    Double.current_load st ++ l `sublist_of` sorted →
    Double.best_load st `sublist_of` sorted →
    let st' := Double.for_range_unbounded T (Double.backtrack_unbounded T)
                 cs l i st in
    Double.current_load st' = Double.current_load st ∧
    Double.best_load st' `sublist_of` sorted.
Proof.
  induction l as [|p tl IH]; intros Hbt i st Hsub Hbest; simpl; [done|].
  assert (Hsub' : Double.current_load st ++ tl `sublist_of` sorted).
  { etrans; [|exact Hsub]. apply sublist_app; [done|]. by apply sublist_cons. }
  set (st1 := if cs + Double.size p <=? T
              then Double.load_pop
                     (Double.backtrack_unbounded T tl (S i)
                        (cs + Double.size p) (Double.load_append p st))
              else st).
  assert (H1 : Double.current_load st1 = Double.current_load st ∧
               Double.best_load st1 `sublist_of` sorted).
  { subst st1. destruct (cs + Double.size p <=? T); [|done].
    destruct (Hbt tl ltac:(simpl; lia) (S i) (cs + Double.size p)
                (Double.load_append p st)) as [Hc Hb]; simpl.
    - by rewrite <- List.app_assoc.
    - done.
    - simpl in *. by rewrite Hc, removelast_last. }
  destruct H1 as [Hc1 Hb1].
  destruct (IH (λ tl' Hlt, Hbt tl' ltac:(simpl; lia)) (S i) st1)
    as [Hc2 Hb2]; [by rewrite Hc1|done|].
  fold st1. split; [congruence|done].
Qed.

Lemma backtrack_unbounded_shape rest :
  ∀ index cs st,
    Double.current_load st ++ rest `sublist_of` sorted →
    Double.best_load st `sublist_of` sorted →
    let st' := Double.backtrack_unbounded T rest index cs st in
    Double.current_load st' = Double.current_load st ∧
    Double.best_load st' `sublist_of` sorted.
Proof.
  remember (length rest) as n eqn:Hn. revert rest Hn.
  induction (lt_wf n) as [n _ IH]. intros rest -> index cs st Hsub Hbest.
  rewrite backtrack_unbounded_unfold. cbv zeta.
  assert (Hcur : Double.current_load st `sublist_of` sorted).
  { etrans; [|exact Hsub]. by apply sublist_inserts_r. }
  destruct (cs =? T); [done|].
  set (st1 := if Double.best_size (Double.log_call index cs st) <? cs
              then Double.record_best cs (Double.log_call index cs st)
              else Double.log_call index cs st).
  assert (Hc1 : Double.current_load st1 = Double.current_load st)
    by (subst st1; by destruct (_ <? _)).
  assert (Hb1 : Double.best_load st1 `sublist_of` sorted)
    by (subst st1; by destruct (_ <? _)).
  destruct (for_range_unbounded_shape cs rest
              (λ tl Hlt, IH (length tl) Hlt tl eq_refl) index st1)
    as [Hc2 Hb2]; [by rewrite Hc1|done|].
  split; [congruence|done].
Qed.
End DoubleShape.

Lemma best_load_submseteq (T : float) (packages : list Double.Package) :
  Double.best_load (Double.run_search_unbounded T packages) ⊆+ packages.
Proof.
  rewrite <- (sorted_desc_Permutation packages) at 2.
  apply sublist_submseteq. unfold Double.run_search_unbounded.
  apply backtrack_unbounded_shape; [done|apply sublist_nil_l].
Qed.

Lemma loading_loop_run_double (db : Double.ShipmentDb)
    (load : list Double.Package) (s : Double.LogiMaster) :
  Forall (λ package,
            ∃ row, one (filter (λ p, Double.tracking_id p
                                     = Double.tracking_id package)
                               (Double.packages_table db)) = Returned row)
         load →
  Double.loading_loop db load s
  = (Returned tt,
     Double.set_loading_stack
       (Double.loading_stack s ++ (Double.tracking_id <$> load)) s).
Proof.
  intros Hall. revert s. unfold Double.loading_loop.
  induction Hall as [|package load (row & Hrow) _ IH]; intros s.
  - simpl. unfold ret, Double.set_loading_stack. rewrite List.app_nil_r.
    by destruct s.
  - simpl. unfold Double._log_shipment. unfold_M. rewrite Hrow. simpl.
    rewrite IH. unfold Double.set_loading_stack. simpl.
    by rewrite <- List.app_assoc.
Qed.

(** In a table with no tracking id twice, looking a row up by its tracking
    id finds this row and no other. *)
Lemma filter_by_unique_key {A K} (key : A → K) `{EqDecision K} (l : list A)
    (x : A) :
  NoDup (key <$> l) → x ∈ l → filter (λ y, key y = key x) l = [x].
Proof.
  assert (Hnone : ∀ l', key x ∉ key <$> l' →
                        filter (λ y, key y = key x) l' = []).
  { induction l' as [|y l' IH]; intros Hn; [done|].
    rewrite fmap_cons in Hn. apply not_elem_of_cons in Hn as [Hy Hn].
    rewrite filter_cons_False by (intros E; by apply Hy). by apply IH. }
  induction l as [|y l IH]; intros Hnd Hx; [by apply elem_of_nil in Hx|].
  rewrite fmap_cons in Hnd. apply NoDup_cons in Hnd as [Hy Hnd].
  apply elem_of_cons in Hx as [->|Hx].
  - rewrite filter_cons_True by done. f_equal. by apply Hnone.
  - rewrite filter_cons_False; [by apply IH|].
    intros E. apply Hy. rewrite E. by apply list_elem_of_fmap_2.
Qed.

(** Where a candidate comes from. *)
Lemma shipment_candidate_row (db : Double.ShipmentDb)
    (zip_code_filter : string) (package : Double.Package) :
  package ∈ Double.shipment_candidates db zip_code_filter →
  ∃ row, row ∈ Double.packages_table db ∧
         Double.tracking_id row = Double.tracking_id package ∧
         Double.size row = Double.size package ∧
         Double.current_bin_id row ≠ None ∧
         Double.destination row = zip_code_filter.
Proof.
  intros Hp. unfold Double.shipment_candidates in Hp.
  apply list_elem_of_fmap in Hp as (row & -> & Hrow).
  apply list_elem_of_filter in Hrow as [[Hbin Hzip] Hrow].
  by exists row.
Qed.

(** X18.  When the truck is found and the packages table has no tracking
    id twice, [prepare_shipment] returns normally and does one of two
    things.  Either the search ends in [RecursionError], which is caught,
    and the controller is as it was; this does not happen when the
    candidates are fewer than the nested calls allowed.  Or the whole load
    the optimizer returns goes on the stack, in the order of the load,
    each tracking id once, whether the commit succeeds or not.  Every
    package of the load is a row of the table that is stored in a bin and
    destined for the ZIP, and for a truck capacity that is not negative
    the running total of the load is at most the capacity at every
    addition. *)
Theorem prepare_shipment_pushes_the_load_on_doubles (db : Double.ShipmentDb)
    (truck_id : Z) (zip_code_filter : string) (s : Double.LogiMaster)
    (truck : Double.TruckRow) :
  one (filter (λ t, Double.row_truck_id t = truck_id)
              (Double.delivery_trucks db)) = Returned truck →
  NoDup (Double.tracking_id <$> Double.packages_table db) →
  let candidates := Double.shipment_candidates db zip_code_filter in
  let capacity := Double.row_truck_max_capacity truck in
  ∃ load,
    (∀ limit,
       (Double.find_optimal_shipment limit candidates capacity
        = Returned load ∧
        Double.prepare_shipment limit db truck_id zip_code_filter s
        = (Returned tt,
           Double.set_loading_stack
             (Double.loading_stack s ++ (Double.tracking_id <$> load)) s)) ∨
       (Double.find_optimal_shipment limit candidates capacity
        = Raised RecursionError ∧
        Double.prepare_shipment limit db truck_id zip_code_filter s
        = (Returned tt, s))) ∧
    (∀ limit, (length candidates < limit)%nat →
       Double.find_optimal_shipment limit candidates capacity
       = Returned load) ∧
    NoDup (Double.tracking_id <$> load) ∧
    (∀ package, package ∈ load →
       ∃ row, row ∈ Double.packages_table db ∧
              Double.tracking_id row = Double.tracking_id package ∧
              Double.size row = Double.size package ∧
              Double.current_bin_id row ≠ None ∧
              Double.destination row = zip_code_filter) ∧
    ((0 <=? capacity)%float = true →
     Double.fits_from capacity 0 load).
Proof.
  intros Htruck Hnd. cbv zeta.
  remember (Double.shipment_candidates db zip_code_filter) as candidates
    eqn:Hcand.
  remember (Double.row_truck_max_capacity truck) as capacity eqn:Hcap.
  set (load := Double.best_load
                 (Double.run_search_unbounded capacity candidates)).
  exists load.
  assert (Hsub : load ⊆+ candidates).
  { apply best_load_submseteq. }
  assert (Hrows : ∀ package, package ∈ load →
            ∃ row, row ∈ Double.packages_table db ∧
                   Double.tracking_id row = Double.tracking_id package ∧
                   Double.size row = Double.size package ∧
                   Double.current_bin_id row ≠ None ∧
                   Double.destination row = zip_code_filter).
  { intros package Hp. apply (shipment_candidate_row db).
    rewrite <- Hcand. by eapply elem_of_submseteq. }
  assert (Hcases : ∀ limit,
            Double.find_optimal_shipment limit candidates capacity
            = Returned load ∨
            Double.find_optimal_shipment limit candidates capacity
            = Raised RecursionError).
  { intros limit. unfold Double.find_optimal_shipment, Double.run_search.
    destruct (backtrack_limited_cases capacity limit
                (Double.sorted_desc candidates) 1 0%nat 0%float
                Double.search_init) as [-> | ->]; [by left|by right]. }
  split; [|split; [|split; [|split]]].
  - intros limit. unfold Double.prepare_shipment. unfold_M.
    rewrite Htruck. cbv beta iota zeta. rewrite <- Hcand, <- Hcap.
    assert (Hnil : Double.set_loading_stack
                     (Double.loading_stack s ++ (Double.tracking_id <$> [])) s
                   = s).
    { simpl. unfold Double.set_loading_stack. rewrite List.app_nil_r.
      by destruct s. }
    destruct (Hcases limit) as [Hret|Hraise]; [left|right];
      (split; [done|]).
    + clearbody load. clear Hcases Hcand.
      destruct candidates as [|c cs].
      { apply submseteq_nil_r in Hsub. by rewrite Hsub, Hnil. }
      rewrite Hret.
      destruct load as [|o os] eqn:El; [by rewrite Hnil|].
      rewrite <- El in *. clear El.
      rewrite loading_loop_run_double.
      * unfold Double.session_commit. unfold_M.
        by destruct (Double.commit db).
      * apply Forall_forall. intros package Hp.
        destruct (Hrows package Hp) as (row & Hrow & Hid & _).
        exists row. rewrite <- Hid.
        by rewrite (filter_by_unique_key Double.tracking_id
                      (Double.packages_table db) row).
    + clearbody load. clear Hcases Hcand.
      destruct candidates as [|c cs]; [done|].
      by rewrite Hraise.
  - intros limit Hlim. unfold Double.find_optimal_shipment.
    by rewrite run_search_within_limit.
  - assert (Hids : Double.tracking_id <$> candidates
                   = Double.tracking_id <$>
                       filter (λ p, Double.current_bin_id p ≠ None
                                    ∧ Double.destination p = zip_code_filter)
                              (Double.packages_table db)).
    { rewrite Hcand. unfold Double.shipment_candidates.
      generalize (filter
        (λ p, Double.current_bin_id p ≠ None
              ∧ Double.destination p = zip_code_filter)
        (Double.packages_table db)).
      intros l. induction l as [|x l IH]; [done|]. simpl. by f_equal. }
    assert (Hsubids : Double.tracking_id <$> load
                      ⊆+ Double.tracking_id <$> Double.packages_table db).
    { etrans; [apply fmap_submseteq, Hsub|].
      rewrite Hids. apply fmap_submseteq, sublist_submseteq, sublist_filter. }
    apply submseteq_sublist_r in Hsubids as (l' & Hperm & Hsub').
    rewrite Hperm. by eapply sublist_NoDup.
  - exact Hrows.
  - intros HT.
    destruct (run_search_unbounded_ok capacity candidates HT)
      as ((_ & Hfit & _) & _). exact Hfit.
Qed.

Lemma prepare_shipment_pushes_the_load_on_doubles_witness :
  Double.prepare_shipment 1000
    (Double.mkShipmentDb Double.seed_trucks Double.stored_P005_P007 Committed)
    1 "40004" Double.seeded_BC
  = (Returned tt,
     Double.set_loading_stack ["P007"; "P005"] Double.seeded_BC).
Proof.
  destruct (prepare_shipment_pushes_the_load_on_doubles
              (Double.mkShipmentDb Double.seed_trucks Double.stored_P005_P007
                 Committed)
              1 "40004" Double.seeded_BC (Double.mkTruckRow 1 500))
    as (load & Hcases & Hret & _).
  - reflexivity.
  - simpl. apply NoDup_cons.
    split; [intros H%list_elem_of_singleton; discriminate H|].
    apply NoDup_singleton.
  - cbv zeta in Hcases, Hret.
    assert (E : Double.find_optimal_shipment 1000
                  (Double.shipment_candidates
                     (Double.mkShipmentDb Double.seed_trucks
                        Double.stored_P005_P007 Committed) "40004")
                  (Double.row_truck_max_capacity (Double.mkTruckRow 1 500))
                = Returned [Double.new_Package "P007" 25 "40004" false;
                            Double.new_Package "P005" 5 "40004" false])
      by (vm_compute; reflexivity).
    destruct (Hcases 1000%nat) as [[Hfind Hrun]|[Hraise _]].
    + rewrite Hrun. rewrite E in Hfind. injection Hfind as <-. reflexivity.
    + rewrite E in Hraise. discriminate Hraise.
Defined.

(** ** One package through [process_next_package], on doubles *)

(** What [process_next_package] leaves behind, in terms of the selector's
    answer. *)
Lemma process_next_package_run_double db (s : Double.LogiMaster) package
    queue' :
  Double.conveyor_queue s = package :: queue' →
  Double.process_next_package db s =
  match fst (Double.find_best_fit_bin (Double.size package) s) with
  | Returned (Some i) =>
      let occupied :=
        alter (λ b, snd (Double.occupy_space (Double.size package) b)) i
              (Double.bin_inventory s) in
      match db with
      | Committed =>
          (Returned tt,
           Double.mkLogiMaster occupied queue' (Double.loading_stack s))
      | CommitFails _ =>
          (Returned tt,
           Double.mkLogiMaster
             (alter (Double.free_space (Double.size package)) i occupied)
             (package :: queue') (Double.loading_stack s))
      end
  | Returned None =>
      (Returned tt,
       Double.mkLogiMaster (Double.bin_inventory s) queue'
         (Double.loading_stack s))
  | Raised e =>
      (Raised e,
       Double.mkLogiMaster (Double.bin_inventory s) queue'
         (Double.loading_stack s))
  end.
Proof.
  intros Hq. unfold Double.process_next_package.
  unfold mbind at 1, M_bind at 1, bind at 1, gets at 1. rewrite Hq.
  unfold mbind at 1, M_bind at 1, bind at 1, modify at 1.
  unfold mbind at 1, M_bind at 1, bind at 1.
  rewrite find_best_fit_bin_queue_double.
  destruct (find_best_fit_bin_double (Double.size package) s)
    as (r & Hrun & Hsome).
  rewrite Hrun. simpl.
  destruct r as [[i|]|e]; [|done|done].
  destruct (Hsome i eq_refl) as (b & Hb & _).
  unfold try_except, Double._update_db_assignment, Double._log_shipment,
    Double.bin_call.
  unfold_M. simpl. rewrite Hb. simpl.
  destruct db as [|e]; [done|]. simpl.
  rewrite list_lookup_alter_eq, Hb. done.
Qed.

(** X8.  On doubles: if no bin has a negative occupancy and no queued
    package a negative size, the same holds after [process_next_package],
    whatever the database answers and whether the package was assigned,
    rolled back or dropped.  The call changes the id, the capacity and the
    location of no bin and keeps the bins in their order, and it never
    touches the loading stack.  (That no bin is filled above its capacity
    is not kept: the sum stored by [occupy_space] is rounded.) *)
Theorem process_next_package_keeps_occupancy_nonneg (db : commit_answer)
    (s : Double.LogiMaster) :
  Forall (λ b, (0 <=? Double.occupancy b)%float = true)
         (Double.bin_inventory s) →
  Forall (λ p, (0 <=? Double.size p)%float = true)
         (Double.conveyor_queue s) →
  let s' := snd (Double.process_next_package db s) in
  Forall (λ b, (0 <=? Double.occupancy b)%float = true)
         (Double.bin_inventory s') ∧
  Forall (λ p, (0 <=? Double.size p)%float = true)
         (Double.conveyor_queue s') ∧
  (λ b, (Double.bin_id b, Double.capacity b, Double.location_code b))
    <$> Double.bin_inventory s'
  = (λ b, (Double.bin_id b, Double.capacity b, Double.location_code b))
    <$> Double.bin_inventory s ∧
  Double.loading_stack s' = Double.loading_stack s.
Proof.
  intros Hbins Hqueue. cbv zeta.
  destruct (Double.conveyor_queue s) as [|package queue'] eqn:Hq.
  { unfold Double.process_next_package. unfold_M. rewrite Hq. simpl.
    by rewrite Hq. }
  inversion Hqueue as [|? ? Hsize Hrest]; subst.
  rewrite (process_next_package_run_double _ _ _ _ Hq).
  set (ident := λ b, (Double.bin_id b, Double.capacity b,
                      Double.location_code b)).
  assert (Hocc : ∀ i,
    Forall (λ b, (0 <=? Double.occupancy b)%float = true)
      (alter (λ b, snd (Double.occupy_space (Double.size package) b)) i
             (Double.bin_inventory s)) ∧
    ident <$> alter (λ b, snd (Double.occupy_space (Double.size package) b))
                    i (Double.bin_inventory s)
    = ident <$> Double.bin_inventory s).
  { intros i. split.
    - apply Forall_alter; [done|]. intros b _ Hb.
      by apply occupy_space_nonneg_double.
    - rewrite (list_fmap_alter ident _ id).
      + by apply list_alter_id.
      + apply Forall_forall. intros b _. unfold Double.occupy_space.
        by destruct (Double.size package
                     <=? Double.get_remaining_capacity b)%float. }
  destruct (fst (Double.find_best_fit_bin (Double.size package) s))
    as [[i|]|e]; [|done|done].
  destruct (Hocc i) as [Hnn Hid].
  destruct db; simpl.
  - done.
  - split; [|split; [by constructor|split; [|done]]].
    + apply Forall_alter; [done|]. intros b _ _. simpl.
      apply py_max_zero_nonneg.
    + rewrite (list_fmap_alter ident _ id).
      * by rewrite list_alter_id.
      * by apply Forall_forall.
Qed.

Lemma process_next_package_keeps_occupancy_nonneg_witness :
  Forall (λ b, (0 <=? Double.occupancy b)%float = true)
    (Double.bin_inventory
       (snd (Double.process_next_package Committed Double.seeded_ABC))).
Proof.
  apply (process_next_package_keeps_occupancy_nonneg Committed
           Double.seeded_ABC).
  - repeat constructor.
  - repeat constructor.
Defined.

(** X9.  On doubles, when the selector answers the bin at position [i] for
    the package at the front and persistence succeeds: the package has
    left the queue, the bin at [i] holds [occupancy + size] as the doubles
    add them, and every other bin, and the loading stack, are as before.
    When the selector answers no bin, the package has left the queue and
    nothing else has changed. *)
Theorem assignment_adds_the_size (s : Double.LogiMaster)
    (package : Double.Package) (queue' : list Double.Package) :
  Double.conveyor_queue s = package :: queue' →
  let answer := fst (Double.find_best_fit_bin (Double.size package) s) in
  let s' := snd (Double.process_next_package Committed s) in
  (∀ i, answer = Returned (Some i) →
     ∃ b, Double.bin_inventory s !! i = Some b ∧
          s' = Double.mkLogiMaster
                 (<[i := Double.set_occupancy
                           (Double.occupancy b + Double.size package)%float
                           b]> (Double.bin_inventory s))
                 queue' (Double.loading_stack s)) ∧
  (answer = Returned None →
     s' = Double.mkLogiMaster (Double.bin_inventory s) queue'
            (Double.loading_stack s)).
Proof.
  intros Hq. cbv zeta.
  rewrite (process_next_package_run_double _ _ _ _ Hq).
  split.
  - intros i Hi. rewrite Hi. simpl.
    destruct (find_best_fit_bin_double (Double.size package) s)
      as (r & Hrun & Hsome).
    rewrite Hrun in Hi. simpl in Hi.
    destruct (Hsome i Hi) as (b & Hb & Hfit).
    exists b. split; [done|]. f_equal.
    apply list_eq. intros j. destruct (decide (j = i)) as [->|Hne].
    + rewrite list_lookup_alter_eq, Hb, list_lookup_insert_eq
        by (by eapply lookup_lt_Some).
      simpl. unfold Double.occupy_space. by rewrite Hfit.
    + by rewrite list_lookup_alter_ne, list_lookup_insert_ne.
  - intros ->. done.
Qed.

Lemma assignment_adds_the_size_witness :
  snd (Double.process_next_package Committed Double.seeded_ABC)
  = Double.seeded_BC.
Proof.
  assert (E : fst (Double.find_best_fit_bin 11 Double.seeded_ABC)
              = Returned (Some 2%nat)) by (vm_compute; reflexivity).
  destruct (assignment_adds_the_size Double.seeded_ABC
              (Double.new_Package "P001" 11 "10001" false)
              [ Double.new_Package "P002" 4 "20002" true;
                Double.new_Package "P003" 16 "30003" false ] eq_refl)
    as [Hsome _].
  destruct (Hsome 2%nat E) as (b & Hb & ->).
  injection Hb as <-. vm_compute. reflexivity.
Defined.
